(** * Mask head of the Mask R-CNN fork: penalty volumes and combined loss

    Shallow embedding of [detectron2/modeling/roi_heads/mask_head.py].

    Numbers.  The Python code computes on float32/float64 values.  Box
    coordinates and IoU values are embedded as exact rationals ([Q]), raw
    overlap counts as integers ([Z]), logits, weights and losses as real
    numbers ([R]); rounding, infinities and NaN are outside this part of
    the embedding.  Which proposal the matching loop selects depends on a
    strict comparison of computed IoUs, where rounding decides: module
    [Float32] embeds [bb_intersection_over_union] and the loop on binary32
    values, with the operations of IEEE 754 as [SpecFloat] specifies them.

    External libraries.  OpenCV's contour filling and the rasterisation of
    polygons ([crop_and_resize]) are parameters of the development; the
    morphological operations, [np.unique], [torch.stack], [torch.cat],
    [torch.split] and the broadcasting rules are written out. *)

From Stdlib Require Import ZArith QArith Qminmax Qabs Reals Lra Lia Lqa Bool
  Sorted Ascii SpecFloat.
From stdpp Require Import base list gmap strings.

(** ** Exceptions *)

Inductive exn : Type :=
| RuntimeError
| IndexError
| ValueError
| AttributeError
| AssertionError.

Inductive result (A : Type) : Type :=
| Ok (a : A)
| Raise (e : exn).

Arguments Ok {A} a.
Arguments Raise {A} e.

#[global] Instance result_ret : MRet result := fun A a => Ok a.

#[global] Instance result_bind : MBind result := fun A B k m =>
  match m with
  | Ok a => k a
  | Raise e => Raise e
  end.

(** ** GeometryOps *)

Module Geometry.

(** A box is the row [(x1, y1, x2, y2)] of a [Boxes] tensor; [boxA[0]] ..
    [boxA[3]] are the four fields in this order. *)
Record Box : Type := mkBox { bx1 : Q; by1 : Q; bx2 : Q; by2 : Q }.

(** [abs((box[2] - box[0]) * (box[3] - box[1]))]. *)
Definition boxArea (b : Box) : Q :=
  Qabs ((bx2 b - bx1 b) * (by2 b - by1 b)).

(** The intersection rectangle and its area:
    [abs(max((xB - xA, 0)) * max((yB - yA), 0))]. *)
Definition interArea (boxA boxB : Box) : Q :=
  let xA := Qmax (bx1 boxA) (bx1 boxB) in
  let yA := Qmax (by1 boxA) (by1 boxB) in
  let xB := Qmin (bx2 boxA) (bx2 boxB) in
  let yB := Qmin (by2 boxA) (by2 boxB) in
  Qabs (Qmax (xB - xA) 0 * Qmax (yB - yA) 0).

Definition bb_intersection_over_union (boxA boxB : Box) : Q :=
  let interArea := interArea boxA boxB in
  if Qeq_bool interArea 0 then 0
  else
    let boxAArea := boxArea boxA in
    let boxBArea := boxArea boxB in
    interArea / (boxAArea + boxBArea - interArea).

(** The corners are ordered: the box is an axis-aligned rectangle. *)
Definition ordered (b : Box) : Prop :=
  (bx1 b <= bx2 b)%Q /\ (by1 b <= by2 b)%Q.

(** The rectangles share no interior point. *)
Definition disjoint (a b : Box) : Prop :=
  (bx2 a <= bx1 b)%Q \/ (bx2 b <= bx1 a)%Q \/
  (by2 a <= by1 b)%Q \/ (by2 b <= by1 a)%Q.

End Geometry.

(** ** Tensors as nested lists *)

Module Tensor.

(** A 2-D array is a list of rows; a 3-D array [(N, H, W)] is a list of [N]
    grids.  A tensor of shape [(N, 1, 1)] is a list of [N] one-by-one grids. *)
Abbreviation grid A := (list (list A)) (only parsing).
Abbreviation tensor3 A := (list (list (list A))) (only parsing).

Definition grid_map {A B : Type} (f : A -> B) (g : grid A) : grid B :=
  map (map f) g.

Definition t3_map {A B : Type} (f : A -> B) (t : tensor3 A) : tensor3 B :=
  map (grid_map f) t.

Definition grid_zip {A B C : Type} (f : A -> B -> C)
  (g : grid A) (h : grid B) : grid C :=
  zip_with (zip_with f) g h.

Definition t3_zip {A B C : Type} (f : A -> B -> C)
  (t : tensor3 A) (u : tensor3 B) : tensor3 C :=
  zip_with (grid_zip f) t u.

(** Row-major list of all the elements. *)
Definition t3_flatten {A : Type} (t : tensor3 A) : list A :=
  concat (concat t).

(** [t[n][i][j]]. *)
Definition grid_get {A : Type} (g : grid A) (i j : nat) : option A :=
  match g !! i with
  | Some row => row !! j
  | None => None
  end.

Definition t3_get {A : Type} (t : tensor3 A) (n i j : nat) : option A :=
  match t !! n with
  | Some g => grid_get g i j
  | None => None
  end.

(** The two arrays have the same size along every axis. *)
Definition same_rows {A B : Type} (r : list A) (s : list B) : bool :=
  bool_decide (length r = length s).

Fixpoint same_grid {A B : Type} (g : grid A) (h : grid B) : bool :=
  match g, h with
  | [], [] => true
  | r :: g', s :: h' => same_rows r s && same_grid g' h'
  | _, _ => false
  end.

Fixpoint same_shape {A B : Type} (t : tensor3 A) (u : tensor3 B) : bool :=
  match t, u with
  | [], [] => true
  | g :: t', h :: u' => same_grid g h && same_shape t' u'
  | _, _ => false
  end.

(** [torch.zeros(t.shape)], [torch.ones(...)]. *)
Definition zeros_like {A : Type} (t : tensor3 A) : tensor3 Z :=
  t3_map (fun _ => 0%Z) t.

Definition full (n h w : nat) {A : Type} (x : A) : tensor3 A :=
  replicate n (replicate h (replicate w x)).

(** [torch.stack] of 2-D arrays along a new first axis, and [torch.cat] of
    3-D arrays along the first axis.  Both raise on an empty list of
    tensors, [torch.stack] a [RuntimeError] and [torch.cat] a
    [ValueError]. *)
Definition torch_stack {A : Type} (l : list (grid A)) : result (tensor3 A) :=
  match l with
  | [] => Raise RuntimeError
  | _ :: _ => Ok l
  end.

Definition torch_cat {A : Type} (l : list (tensor3 A)) : result (tensor3 A) :=
  match l with
  | [] => Raise ValueError
  | _ :: _ => Ok (concat l)
  end.

(** Broadcasting of one axis: a size that differs from the reference must
    be 1. *)
Definition expand_like {A B : Type} (l : list A) (ref : list B)
  : result (list A) :=
  if bool_decide (length l = length ref) then Ok l
  else match l with
       | [x] => Ok (replicate (length ref) x)
       | _ => Raise RuntimeError
       end.

Fixpoint mapM2 {A B C : Type} (f : A -> B -> result C)
  (l : list A) (k : list B) : result (list C) :=
  match l, k with
  | a :: l', b :: k' =>
      c ← f a b; cs ← mapM2 f l' k'; Ok (c :: cs)
  | _, _ => Ok []
  end.

Definition broadcast_grid {A B : Type} (g : grid A) (ref : grid B)
  : result (grid A) :=
  g' ← expand_like g ref; mapM2 expand_like g' ref.

Definition broadcast_like {A B : Type} (t : tensor3 A) (ref : tensor3 B)
  : result (tensor3 A) :=
  t' ← expand_like t ref; mapM2 broadcast_grid t' ref.

End Tensor.

(** ** Ground-truth instance records (training) *)

Module Instances.
Import Geometry.

(** A polygon is its flat list of vertex coordinates. *)
Abbreviation Polygon := (list Q) (only parsing).

(** The polygons of one instance: [x[0]] and the remaining ones. *)
Record PolygonMask : Type := mkPolygonMask {
  poly0 : Polygon;
  poly_rest : list Polygon
}.

(** Modelled from the spec: the class [Instances] of
    [detectron2/structures/instances.py] as the training path reads it.
    All per-instance fields are index-aligned, "row i refers to the same
    instance everywhere", so an image's record is embedded as the list
    of its rows; [len(instances_per_image)] is the length of this list. *)
Record Instance : Type := mkInstance {
  gt_class : nat;
  gt_box : Box;
  proposal_box : Box;
  gt_mask : PolygonMask
}.

Abbreviation Instances := (list Instance) (only parsing).

Definition gt_classes (i : Instances) : list nat := map gt_class i.
Definition gt_boxes (i : Instances) : list Box := map gt_box i.
Definition proposal_boxes (i : Instances) : list Box := map proposal_box i.
Definition gt_masks (i : Instances) : list PolygonMask := map gt_mask i.

End Instances.

(** ** PenaltyBuilder: duplicate-box weight *)

Module RoiPenalty.
Import Geometry Tensor.

Definition Qlt_bool (x y : Q) : bool := negb (Qle_bool y x).

(** Order of the rows in the result of [np.unique(..., axis=0)]. *)
Definition box_compare (a b : Box) : comparison :=
  match (bx1 a ?= bx1 b)%Q with
  | Eq =>
      match (by1 a ?= by1 b)%Q with
      | Eq =>
          match (bx2 a ?= bx2 b)%Q with
          | Eq => (by2 a ?= by2 b)%Q
          | c => c
          end
      | c => c
      end
  | c => c
  end.

(** One more occurrence of row [b] in the sorted table of rows and
    counts. *)
Fixpoint count_row (b : Box) (l : list (Box * Z)) : list (Box * Z) :=
  match l with
  | [] => [(b, 1%Z)]
  | (b', c) :: t =>
      match box_compare b b' with
      | Eq => (b', (c + 1)%Z) :: t
      | Lt => (b, 1%Z) :: (b', c) :: t
      | Gt => (b', c) :: count_row b t
      end
  end.

(** [np.unique(rows, axis=0, return_counts=True)]: the distinct rows in
    increasing order, each with its number of occurrences. *)
Definition np_unique (rows : list Box) : list (Box * Z) :=
  foldl (fun acc b => count_row b acc) [] rows.

Definition enumerate {A : Type} (l : list A) : list (nat * A) :=
  imap pair l.

(** Body of the loop over the predicted boxes; the state is
    [(best_iou, best_box)].  The IoUs are the exact ones; module
    [Float32] has the loop on the computed values. *)
Definition best_step (gt_box : Box) (st : Q * nat) (jb : nat * Box)
  : Q * nat :=
  let iou := bb_intersection_over_union gt_box (snd jb) in
  if Qlt_bool (fst st) iou then (iou, fst jb) else st.

Definition best_match (gt_box : Box) (proposals : list Box) : Q * nat :=
  foldl (best_step gt_box) (0%Q, 0%nat) (enumerate proposals).

Definition best_box (gt_box : Box) (proposals : list Box) : nat :=
  snd (best_match gt_box proposals).

(** Body of the loop over the unique boxes:
    [img_roi_penalty[best_box] = torch.tensor(roi_counts[i].item())]. *)
Definition roi_step (proposals : list Box) (pen : tensor3 Z)
  (gc : Box * Z) : tensor3 Z :=
  <[best_box (fst gc) proposals := [[snd gc]]]> pen.

(** The [(len, 1, 1)] weight of one image. *)
Definition img_roi_penalty (instances_per_image : Instances.Instances)
  : tensor3 Z :=
  let uniq := np_unique (Instances.gt_boxes instances_per_image) in
  foldl (roi_step (Instances.proposal_boxes instances_per_image))
        (full (length instances_per_image) 1 1 1%Z) uniq.

End RoiPenalty.

(** ** The matching loop on binary32 values *)

Module Float32.
Import Tensor.

(** Bits of the significand and exponent of the infinities of binary32
    and binary64. *)
Definition prec32 : Z := 24.
Definition emax32 : Z := 128.
Definition prec64 : Z := 53.
Definition emax64 : Z := 1024.

(** [0.0]; the Python integer [0] compares and multiplies as it does. *)
Definition zero : spec_float := S754_zero false.

(** The binary32 value nearest to an integer. *)
Definition of_Z (z : Z) : spec_float :=
  binary_normalize prec32 emax32 z 0 false.

(** [float(x)] of a binary32 value: the same number as a binary64. *)
Definition to_double (x : spec_float) : spec_float :=
  match x with
  | S754_finite s m e => binary_round prec64 emax64 s m e
  | _ => x
  end.

(** Python's [max(a, b)] and [min(a, b)]: the first argument unless the
    second is greater (smaller). *)
Definition py_max (a b : spec_float) : spec_float :=
  if SFltb a b then b else a.

Definition py_min (a b : spec_float) : spec_float :=
  if SFltb b a then b else a.

(** A row [(x1, y1, x2, y2)] of a float32 array of boxes. *)
Record Box : Type := mkBox {
  x1 : spec_float;
  y1 : spec_float;
  x2 : spec_float;
  y2 : spec_float
}.

(** [bb_intersection_over_union] on two rows of float32 arrays.  The
    differences, products and sums are binary32 operations.  The quotient
    [interArea / float(...)] of a float32 scalar by a Python float is a
    binary64 operation under NumPy's scalar promotion before NEP 50
    ([legacy = true]) and a binary32 operation under NEP 50
    ([legacy = false]).  The integer [0] that is returned without
    overlap is [zero]. *)
Definition bb_intersection_over_union (legacy : bool) (boxA boxB : Box)
  : spec_float :=
  let xA := py_max (x1 boxA) (x1 boxB) in
  let yA := py_max (y1 boxA) (y1 boxB) in
  let xB := py_min (x2 boxA) (x2 boxB) in
  let yB := py_min (y2 boxA) (y2 boxB) in
  let interArea :=
    SFabs (SFmul prec32 emax32
             (py_max (SFsub prec32 emax32 xB xA) zero)
             (py_max (SFsub prec32 emax32 yB yA) zero)) in
  if SFeqb interArea zero then zero
  else
    let boxAArea :=
      SFabs (SFmul prec32 emax32
               (SFsub prec32 emax32 (x2 boxA) (x1 boxA))
               (SFsub prec32 emax32 (y2 boxA) (y1 boxA))) in
    let boxBArea :=
      SFabs (SFmul prec32 emax32
               (SFsub prec32 emax32 (x2 boxB) (x1 boxB))
               (SFsub prec32 emax32 (y2 boxB) (y1 boxB))) in
    let denominator :=
      SFsub prec32 emax32 (SFadd prec32 emax32 boxAArea boxBArea)
        interArea in
    if legacy
    then SFdiv prec64 emax64 (to_double interArea) (to_double denominator)
    else SFdiv prec32 emax32 interArea denominator.

(** Order of two coordinates, and of two rows, in [np.unique(..., axis=0)].
    Rows with a NaN coordinate are outside the embedding. *)
Definition coord_compare (a b : spec_float) : comparison :=
  match SFcompare a b with
  | Some c => c
  | None => Gt
  end.

Definition box_compare (a b : Box) : comparison :=
  match coord_compare (x1 a) (x1 b) with
  | Eq =>
      match coord_compare (y1 a) (y1 b) with
      | Eq =>
          match coord_compare (x2 a) (x2 b) with
          | Eq => coord_compare (y2 a) (y2 b)
          | c => c
          end
      | c => c
      end
  | c => c
  end.

Fixpoint count_row (b : Box) (l : list (Box * Z)) : list (Box * Z) :=
  match l with
  | [] => [(b, 1%Z)]
  | (b', c) :: t =>
      match box_compare b b' with
      | Eq => (b', (c + 1)%Z) :: t
      | Lt => (b, 1%Z) :: (b', c) :: t
      | Gt => (b', c) :: count_row b t
      end
  end.

Definition np_unique (rows : list Box) : list (Box * Z) :=
  foldl (fun acc b => count_row b acc) [] rows.

(** The two box fields of the instances of one image. *)
Record Instance : Type := mkInstance {
  gt_box : Box;
  proposal_box : Box
}.

Definition gt_boxes (i : list Instance) : list Box := map gt_box i.
Definition proposal_boxes (i : list Instance) : list Box :=
  map proposal_box i.

Section Promotion.

Variable legacy : bool.

(** Body of the loop over the predicted boxes; the state is
    [(best_iou, best_box)], [best_iou < iou] is the comparison of the
    computed values. *)
Definition best_step (gt_box : Box) (st : spec_float * nat)
  (jb : nat * Box) : spec_float * nat :=
  let iou := bb_intersection_over_union legacy gt_box (snd jb) in
  if SFltb (fst st) iou then (iou, fst jb) else st.

Definition best_match (gt_box : Box) (proposals : list Box)
  : spec_float * nat :=
  foldl (best_step gt_box) (zero, 0%nat) (imap pair proposals).

Definition best_box (gt_box : Box) (proposals : list Box) : nat :=
  snd (best_match gt_box proposals).

Definition roi_step (proposals : list Box) (pen : tensor3 Z)
  (gc : Box * Z) : tensor3 Z :=
  <[best_box (fst gc) proposals := [[snd gc]]]> pen.

(** Lines 167-187: the [(len, 1, 1)] weight of one image. *)
Definition img_roi_penalty (instances_per_image : list Instance)
  : tensor3 Z :=
  let uniq := np_unique (gt_boxes instances_per_image) in
  foldl (roi_step (proposal_boxes instances_per_image))
        (full (length instances_per_image) 1 1 1%Z) uniq.

End Promotion.

End Float32.

(** ** PenaltyBuilder: boundary weight *)

Module Boundary.
Import Tensor.

(** Hyperparameter of [mask_rcnn_loss]. *)
Definition BNDRY_WT : Z := 0.

(** Indices of the 3x3 window around [i] along one axis; indices past the
    end are dropped by the lookup. *)
Definition neighbours (i : nat) : list nat :=
  match i with
  | O => [0; 1]
  | S p => [p; i; S i]
  end.

(** The pixels of [g] under the 3x3 kernel anchored at [(i, j)].  With
    OpenCV's default border value, pixels outside the image take no part
    in a dilation or an erosion. *)
Definition window {A : Type} (g : grid A) (i j : nat) : list A :=
  omap (fun ab : nat * nat => grid_get g (fst ab) (snd ab))
       (list_prod (neighbours i) (neighbours j)).

(** [cv.dilate(background, kernel)] and [cv.erode(background, kernel)]
    on a grid with values 0 and 1: maximum and minimum under the kernel. *)
Definition dilate (g : grid bool) : grid bool :=
  imap (fun i row =>
          imap (fun j _ => existsb (fun b : bool => b) (window g i j)) row)
       g.

Definition erode (g : grid bool) : grid bool :=
  imap (fun i row =>
          imap (fun j _ => forallb (fun b : bool => b) (window g i j)) row)
       g.

(** [np.bitwise_xor(dilation, erosion)] for the filled contours
    [background]. *)
Definition bound_pixels (background : grid bool) : grid bool :=
  grid_zip xorb (dilate background) (erode background).

(** [torch.where(stack == 1, torch.ones(1) * BNDRY_WT, torch.ones(1))]. *)
Definition boundary_weights (stack : tensor3 bool) : tensor3 Z :=
  t3_map (fun b : bool => if b then (1 * BNDRY_WT)%Z else 1%Z) stack.

End Boundary.

(** ** PenaltyBuilder: overlap weight *)

Module Overlap.
Import Geometry Tensor Instances.

(** [list(x[0]) == d] for two lists of coordinates. *)
Definition polygon_eqb (p q : Polygon) : bool :=
  bool_decide (length p = length q) &&
  forallb (fun xy : Q * Q => Qeq_bool (fst xy) (snd xy)) (zip p q).

(** [itertools.combinations(l, 2)]. *)
Fixpoint combinations2 {A : Type} (l : list A) : list (A * A) :=
  match l with
  | [] => []
  | x :: t => map (pair x) t ++ combinations2 t
  end.

(** Python's [sum(temp)]: [0 + temp[0] + temp[1] + ...].  The list is
    the list of the pairs of at least two masks, which is not empty. *)
Definition py_sum (temp : list (tensor3 Z)) : tensor3 Z :=
  match temp with
  | [] => []
  | t0 :: rest => foldl (t3_zip Z.add) (t3_map (Z.add 0) t0) rest
  end.

(** [quad]: the larger root, for an input [c], of the quadratic whose
    constant term is [-2 * c]. *)
Definition radicand (c : R) : R :=
  let c := (-2 * c)%R in
  (1 - 4 * c)%R.

Definition quad (c : R) : R :=
  let c := (-2 * c)%R in
  let x1 := ((1 + sqrt (1 - 4 * c)) / 2)%R in
  let x2 := ((1 - sqrt (1 - 4 * c)) / 2)%R in
  Rmax x1 x2.

Section Rasterizer.

(** [PolygonMasks(polygons).crop_and_resize(boxes, mask_size)]: a boolean
    [(N, M, M)] array, one mask per box. *)
Variable crop_and_resize :
  list PolygonMask -> list Box -> nat -> tensor3 bool.

(** Body of the loop over [instances_per_image.gt_masks]; the state is
    [(done, img_masks)]. *)
Definition object_step (instances_per_image : Instances)
  (mask_side_len : nat) (st : list Polygon * list (tensor3 Z))
  (x : PolygonMask) : list Polygon * list (tensor3 Z) :=
  if existsb (polygon_eqb (poly0 x)) (fst st) then st
  else
    let temp_msk :=
      map (fun _ => mkPolygonMask (poly0 x) []) instances_per_image in
    (fst st ++ [poly0 x],
     snd st ++ [t3_map Z.b2z
                  (crop_and_resize temp_msk
                     (proposal_boxes instances_per_image) mask_side_len)]).

Definition img_masks (instances_per_image : Instances)
  (mask_side_len : nat) : list (tensor3 Z) :=
  snd (foldl (object_step instances_per_image mask_side_len) ([], [])
         (gt_masks instances_per_image)).

(** The raw overlap raster of one image.  The products and the sum are
    elementwise; all the operands come from the rasteriser with the same
    boxes and side, hence with the same shape. *)
Definition per_ins_overlap_masks (instances_per_image : Instances)
  (mask_side_len : nat) (gt_masks_per_image : tensor3 bool) : tensor3 Z :=
  let img_masks := img_masks instances_per_image mask_side_len in
  if bool_decide (1 < length img_masks)%nat then
    let temp :=
      map (fun c => t3_zip Z.mul (fst c) (snd c)) (combinations2 img_masks) in
    t3_zip Z.mul (py_sum temp) (t3_map Z.b2z gt_masks_per_image)
  else zeros_like gt_masks_per_image.

End Rasterizer.

(** [quad(torch.cat(overlap_penalty, 0))], elementwise. *)
Definition overlap_weights (raw : tensor3 Z) : tensor3 R :=
  t3_map (fun c : Z => quad (IZR c)) raw.

End Overlap.

(** ** LossCombiner and the training path of the head *)

Module MaskLoss.
Import Geometry Tensor Instances.

(** [pred_mask_logits]: the sizes of the four axes and the values,
    [data[b][c]] being the [(Hmask, Wmask)] grid of mask [b], class [c]. *)
Record Logits : Type := mkLogits {
  size0 : nat;
  size1 : nat;
  size2 : nat;
  size3 : nat;
  data : list (list (grid R))
}.

(** [self.log_vars], a vector of three learnable scalars. *)
Record LogVars : Type := mkLogVars { lv0 : R; lv1 : R; lv2 : R }.

Definition b2r (b : bool) : R := if b then 1%R else 0%R.

Definition rsum (l : list R) : R := foldr Rplus 0%R l.

(** [t.sum()] and [torch.mean(t)]. *)
Definition t3_sum (t : tensor3 R) : R := rsum (t3_flatten t).

Definition t3_mean (t : tensor3 R) : R :=
  (t3_sum t / INR (length (t3_flatten t)))%R.

Definition logits_sum (l : Logits) : R :=
  rsum (concat (map (fun row => concat (map (fun g => concat g) row))
                  (data l))).

(** [row[c]] for one row of the logits. *)
Definition pick (row : list (grid R)) (c : nat) : result (grid R) :=
  match row !! c with
  | Some g => Ok g
  | None => Raise IndexError
  end.

(** [pred_mask_logits[indices, gt_classes]] with
    [indices = arange(total_num_masks)]: the two index vectors are
    broadcast against each other. *)
Definition select_channels (rows : list (list (grid R))) (cls : list nat)
  : result (tensor3 R) :=
  match expand_like cls rows with
  | Ok cls' => mapM2 pick rows cls'
  | Raise _ =>
      match rows with
      | [r] => mapM2 pick (replicate (length cls) r) cls
      | _ => Raise IndexError
      end
  end.

(** [pred_mask_logits[:, 0]]. *)
Definition channel0 (rows : list (list (grid R))) : result (tensor3 R) :=
  mapM2 pick rows (replicate (length rows) 0%nat).

(** Binary cross entropy of a logit [x] against a target [y]. *)
Definition bce (x y : R) : R :=
  ((1 - y) * x + ln (1 + exp (- x)))%R.

(** [F.binary_cross_entropy_with_logits(input, target, weight=weight,
    reduction="none")]: the target must have the size of the input, the
    weight is broadcast to it. *)
Definition binary_cross_entropy_with_logits
  (input target weight : tensor3 R) : result (tensor3 R) :=
  if same_shape target input then
    w ← broadcast_like weight input;
    Ok (t3_zip Rmult (t3_zip bce input target) w)
  else Raise ValueError.

(** Lines 288-297: relative weighing of the three losses and the mean. *)
Definition weighted_mask_loss (log_vars : LogVars)
  (boundary_mask_loss roi_mask_loss overlap_mask_loss : tensor3 R)
  : tensor3 R :=
  let precision1 := exp (- lv0 log_vars) in
  let weighted_mask_loss :=
    t3_map (fun l => (l + lv0 log_vars)%R)
      (t3_map (Rmult precision1) boundary_mask_loss) in
  let precision2 := exp (- lv1 log_vars) in
  let weighted_mask_loss :=
    t3_zip Rplus weighted_mask_loss
      (t3_map (fun l => (l + lv1 log_vars)%R)
         (t3_map (Rmult precision2) roi_mask_loss)) in
  let precision3 := exp (- lv2 log_vars) in
  let weighted_mask_loss :=
    t3_zip Rplus weighted_mask_loss
      (t3_map (fun l => (l + lv2 log_vars)%R)
         (t3_map (Rmult precision3) overlap_mask_loss)) in
  weighted_mask_loss.

(** The containers filled by the loop over the images. *)
Record Containers : Type := mkContainers {
  c_gt_classes : list (list nat);
  c_gt_masks : list (tensor3 bool);
  c_boundary_penalty : list (grid bool);
  c_roi_penalty : list (tensor3 Z);
  c_overlap_penalty : list (tensor3 Z)
}.

Definition empty_containers : Containers :=
  mkContainers [] [] [] [] [].

(** [(pred_mask_logits > 0.0) != gt_masks_bool]: the comparison
    broadcasts its two operands against each other and raises when it
    cannot.  Its value only enters the scalars put into the event
    storage (module [Metrics]). *)
Definition mask_incorrect {A B : Type} (pred_mask_logits : tensor3 A)
  (gt_masks_bool : tensor3 B) : result unit :=
  match broadcast_like pred_mask_logits gt_masks_bool with
  | Ok _ => Ok tt
  | Raise _ =>
      match broadcast_like gt_masks_bool pred_mask_logits with
      | Ok _ => Ok tt
      | Raise _ => Raise RuntimeError
      end
  end.

Section Head.

Variable crop_and_resize :
  list PolygonMask -> list Box -> nat -> tensor3 bool.

(** [cv.findContours(..., cv.RETR_EXTERNAL, ...)] of a mask followed by
    [cv.drawContours(background, cnts, -1, 1, -1)] on a zero grid of the
    given side: the filled outer contours, with values 0 and 1. *)
Variable draw_contours : nat -> grid bool -> grid bool.

(** Body of [for instances_per_image in instances]. *)
Definition loop_body (cls_agnostic_mask : bool) (mask_side_len : nat)
  (st : Containers) (instances_per_image : Instances) : Containers :=
  if bool_decide (length instances_per_image = 0%nat) then st
  else
    let gt_classes' :=
      if negb cls_agnostic_mask
      then c_gt_classes st ++ [gt_classes instances_per_image]
      else c_gt_classes st in
    let gt_masks_per_image :=
      crop_and_resize (gt_masks instances_per_image)
        (proposal_boxes instances_per_image) mask_side_len in
    let bound :=
      map (fun m => Boundary.bound_pixels (draw_contours mask_side_len m))
          gt_masks_per_image in
    let img_roi_penalty := RoiPenalty.img_roi_penalty instances_per_image in
    let per_ins_overlap_masks :=
      Overlap.per_ins_overlap_masks crop_and_resize instances_per_image
        mask_side_len gt_masks_per_image in
    mkContainers gt_classes'
      (c_gt_masks st ++ [gt_masks_per_image])
      (c_boundary_penalty st ++ bound)
      (c_roi_penalty st ++ [img_roi_penalty])
      (c_overlap_penalty st ++ [per_ins_overlap_masks]).

(** [mask_rcnn_loss], for a call inside an event-storage context in
    which the printing, the archive step of lines 125-130 and the calls
    of the storage return: they do not enter the returned value and are
    left out.  Of the accuracy scalars only the comparison of line 253,
    which can raise, is part of the run. *)
Definition mask_rcnn_loss (log_vars : LogVars) (pred_mask_logits : Logits)
  (instances : list Instances) : result R :=
  let cls_agnostic_mask := bool_decide (size1 pred_mask_logits = 1%nat) in
  let mask_side_len := size2 pred_mask_logits in
  if negb (bool_decide (size2 pred_mask_logits = size3 pred_mask_logits))
  then Raise AssertionError
  else
    let st :=
      foldl (loop_body cls_agnostic_mask mask_side_len) empty_containers
        instances in
    stacked ← torch_stack (c_boundary_penalty st);
    let boundary_penalty := t3_map IZR (Boundary.boundary_weights stacked) in
    roi ← torch_cat (c_roi_penalty st);
    let roi_penalty := t3_map IZR roi in
    raw ← torch_cat (c_overlap_penalty st);
    let overlap_penalty := Overlap.overlap_weights raw in
    if bool_decide (length (c_gt_masks st) = 0%nat)
    then Ok (logits_sum pred_mask_logits * 0)%R
    else
      let gt_masks := concat (c_gt_masks st) in
      logits ←
        (if cls_agnostic_mask then channel0 (data pred_mask_logits)
         else select_channels (data pred_mask_logits)
                (concat (c_gt_classes st)));
      _ ← mask_incorrect logits gt_masks;
      let gt_masks := t3_map b2r gt_masks in
      boundary_mask_loss ←
        binary_cross_entropy_with_logits logits gt_masks boundary_penalty;
      roi_mask_loss ←
        binary_cross_entropy_with_logits logits gt_masks roi_penalty;
      overlap_mask_loss ←
        binary_cross_entropy_with_logits logits gt_masks overlap_penalty;
      Ok (t3_mean (weighted_mask_loss log_vars boundary_mask_loss
                     roi_mask_loss overlap_mask_loss)).

End Head.

End MaskLoss.

(** ** InferenceProjector *)

Module MaskInference.
Import Geometry Tensor.

(** The value of one field of an instance record: a column with one entry
    per instance. *)
Inductive field : Type :=
| IntField (v : list nat)
| RealField (v : list R)
| BoxField (v : list Box)
| MaskField (v : list (tensor3 R)).

(** Modelled from the spec: the class [Instances] of
    [detectron2/structures/instances.py], the "instance records" that
    expose named fields (the predicted class among them) and to which a
    soft mask field is attached.  A record is its number of instances
    and its fields by name; [len] reads the number, attribute access
    reads a field, attribute assignment writes one. *)
Record Instances : Type := mkInstances {
  len : nat;
  fields : gmap string field
}.

Definition set (name : string) (value : field) (i : Instances) : Instances :=
  mkInstances (len i) (<[name := value]> (fields i)).

(** [i.pred_classes]. *)
Definition pred_classes (i : Instances) : result (list nat) :=
  match fields i !! "pred_classes" with
  | Some (IntField v) => Ok v
  | Some _ => Raise RuntimeError
  | None => Raise AttributeError
  end.

(** Modelled from the spec: [cat] of [detectron2/layers], which joins
    the per-image class vectors into the "flattened instance axis" of the
    index-aligned gather; it is [torch.cat], which raises on an empty
    list of tensors. *)
Definition cat {A : Type} (l : list (list A)) : result (list A) :=
  match l with
  | [] => Raise ValueError
  | _ :: _ => Ok (concat l)
  end.

Fixpoint mapM {A B : Type} (f : A -> result B) (l : list A)
  : result (list B) :=
  match l with
  | [] => Ok []
  | a :: l' => b ← f a; bs ← mapM f l'; Ok (b :: bs)
  end.

Fixpoint chunks {A : Type} (t : list A) (sizes : list nat) : list (list A) :=
  match sizes with
  | [] => []
  | n :: sizes' => take n t :: chunks (drop n t) sizes'
  end.

(** [t.split(sizes, dim=0)]: the sizes must sum up to the size of the
    axis. *)
Definition split {A : Type} (t : list A) (sizes : list nat)
  : result (list (list A)) :=
  if bool_decide (sum_list sizes = length t) then Ok (chunks t sizes)
  else Raise RuntimeError.

Definition sigmoid (x : R) : R := (1 / (1 + exp (- x)))%R.

(** [mask_rcnn_inference]; the records are updated in place, the updated
    list is the result. *)
Definition mask_rcnn_inference (pred_mask_logits : MaskLoss.Logits)
  (pred_instances : list Instances) : result (list Instances) :=
  let cls_agnostic_mask :=
    bool_decide (MaskLoss.size1 pred_mask_logits = 1%nat) in
  mask_probs_pred ←
    (if cls_agnostic_mask
     then Ok (map (map (grid_map sigmoid)) (MaskLoss.data pred_mask_logits))
     else
       classes ← mapM pred_classes pred_instances;
       class_pred ← cat classes;
       selected ←
         MaskLoss.select_channels (MaskLoss.data pred_mask_logits) class_pred;
       Ok (map (fun g => [grid_map sigmoid g]) selected));
  let num_boxes_per_image := map len pred_instances in
  mask_probs_pred ← split mask_probs_pred num_boxes_per_image;
  Ok (zip_with
        (fun prob instances => set "pred_masks" (MaskField prob) instances)
        mask_probs_pred pred_instances).

End MaskInference.

(** ** MaskHead *)

Module MaskHead.
Import Geometry Tensor.

Inductive mode : Type := TRAIN | INFER.

(** What [forward] receives as [instances] and what it returns, by the
    value of [self.training]. *)
Definition instances_of (m : mode) : Type :=
  match m with
  | TRAIN => list Instances.Instances
  | INFER => list MaskInference.Instances
  end.

Definition output_of (m : mode) : Type :=
  match m with
  | TRAIN => R
  | INFER => list MaskInference.Instances
  end.

Section Forward.

Variable Features : Type.
Variable layers : Features -> MaskLoss.Logits.
Variable log_vars : MaskLoss.LogVars.
Variable crop_and_resize :
  list Instances.PolygonMask -> list Box -> nat -> tensor3 bool.
Variable draw_contours : nat -> grid bool -> grid bool.

(** [BaseMaskRCNNHead.forward]; in training the result is the value of
    the entry ["loss_mask"]. *)
Definition forward (m : mode) (x : Features)
  : instances_of m -> result (output_of m) :=
  let x := layers x in
  match m return instances_of m -> result (output_of m) with
  | TRAIN => fun instances =>
      MaskLoss.mask_rcnn_loss crop_and_resize draw_contours log_vars x
        instances
  | INFER => fun instances =>
      MaskInference.mask_rcnn_inference x instances
  end.

End Forward.

End MaskHead.


(** ** Training accuracy put into the event storage *)

Module Metrics.
Import Tensor.

(** [pred_mask_logits > 0.0]. *)
Definition positive (x : R) : bool :=
  if Rlt_dec 0 x then true else false.

(** [t.sum().item()] and [t.numel()] of a boolean array. *)
Definition count_true (t : tensor3 bool) : Z :=
  Z.of_nat (length (filter (fun b : bool => b = true) (t3_flatten t))).

Definition numel {A : Type} (t : tensor3 A) : Z :=
  Z.of_nat (length (t3_flatten t)).

Record Rates : Type := mkRates {
  mask_accuracy : Q;
  false_positive : Q;
  false_negative : Q
}.

(** The scalars that [mask_rcnn_loss] puts into the event storage, for
    the selected logits and the ground-truth masks, two arrays of the
    same shape: the accuracy of the mask at threshold 0 of the logits,
    and the rates of false positives and false negatives.  The quotients
    are exact rationals. *)
Definition mask_rates (pred_mask_logits : tensor3 R)
  (gt_masks_bool : tensor3 bool) : Rates :=
  let mask_incorrect :=
    t3_zip (fun x g => xorb (positive x) g) pred_mask_logits gt_masks_bool in
  let mask_accuracy :=
    (1 - inject_Z (count_true mask_incorrect) /
         Qmax (inject_Z (numel mask_incorrect)) 1)%Q in
  let num_positive := count_true gt_masks_bool in
  let false_positive :=
    (inject_Z (count_true (t3_zip (fun i g => i && negb g) mask_incorrect
                             gt_masks_bool)) /
     Qmax (inject_Z (numel gt_masks_bool - num_positive)) 1)%Q in
  let false_negative :=
    (inject_Z (count_true (t3_zip andb mask_incorrect gt_masks_bool)) /
     Qmax (inject_Z num_positive) 1)%Q in
  mkRates mask_accuracy false_positive false_negative.

End Metrics.

(** ** MaskRCNNConvUpsampleHead: the layer stack and its shapes *)

Module ConvUpsampleHead.

(** The entries of [cfg] and [input_shape] read by [__init__]. *)
Record Config : Type := mkConfig {
  NUM_CLASSES : nat;
  CONV_DIM : nat;
  NUM_CONV : nat;
  CLS_AGNOSTIC_MASK : bool;
  input_channels : nat
}.

(** A convolution or a transposed convolution of [torch.nn] with a
    square kernel.  [Conv2d] of [detectron2.layers] applies the
    normalisation and the activation after the convolution; both keep
    the size. *)
Record Layer : Type := mkLayer {
  transposed : bool;
  in_channels : nat;
  out_channels : nat;
  kernel_size : nat;
  stride : nat;
  padding : nat
}.

Definition Conv2d (cin cout k s p : nat) : Layer := mkLayer false cin cout k s p.

Definition ConvTranspose2d (cin cout k s p : nat) : Layer :=
  mkLayer true cin cout k s p.

(** [self.conv_norm_relus], [self.deconv] and [self.predictor]. *)
Definition conv_norm_relus (cfg : Config) : list Layer :=
  map (fun k =>
         Conv2d (if bool_decide (k = 0%nat) then input_channels cfg
                 else CONV_DIM cfg)
           (CONV_DIM cfg) 3 1 1)
      (seq 0 (NUM_CONV cfg)).

Definition deconv (cfg : Config) : Layer :=
  ConvTranspose2d
    (if bool_decide (0 < NUM_CONV cfg)%nat then CONV_DIM cfg
     else input_channels cfg)
    (CONV_DIM cfg) 2 2 0.

Definition num_mask_classes (cfg : Config) : nat :=
  if CLS_AGNOSTIC_MASK cfg then 1%nat else NUM_CLASSES cfg.

Definition predictor (cfg : Config) : Layer :=
  Conv2d (CONV_DIM cfg) (num_mask_classes cfg) 1 1 0.

(** The size [(N, C, H, W)] of a batch of feature maps. *)
Record Size : Type := mkSize { sN : nat; sC : nat; sH : nat; sW : nat }.

(** Output length of one spatial axis, by the rule of [torch.nn] for
    dilation 1 and no output padding: [(n + 2p - k) / s + 1] for a
    convolution, which needs [k <= n + 2p] and [s > 0];
    [(n - 1) * s - 2p + k] for a transposed convolution. *)
Definition out_length (l : Layer) (n : nat) : result nat :=
  if transposed l then
    if bool_decide (0 < n /\ 2 * padding l <= (n - 1) * stride l + kernel_size l)%nat
    then Ok ((n - 1) * stride l + kernel_size l - 2 * padding l)%nat
    else Raise RuntimeError
  else
    if bool_decide (0 < stride l /\ kernel_size l <= n + 2 * padding l)%nat
    then Ok ((n + 2 * padding l - kernel_size l) / stride l + 1)%nat
    else Raise RuntimeError.

(** The size of [layer(x)]; the channels of [x] must be the input
    channels of the layer, and a layer without input channels or without
    output channels is rejected in the forward pass.  The activation
    keeps the size. *)
Definition apply_layer (l : Layer) (x : Size) : result Size :=
  if bool_decide (sC x = in_channels l /\ 0 < in_channels l /\
                  0 < out_channels l)%nat then
    h ← out_length l (sH x);
    w ← out_length l (sW x);
    Ok (mkSize (sN x) (out_channels l) h w)
  else Raise RuntimeError.

(** [layers]: the convolutions, the upsampling and the predictor. *)
Definition layers (cfg : Config) (x : Size) : result Size :=
  x ← foldl (fun acc layer => x ← acc; apply_layer layer x) (Ok x)
        (conv_norm_relus cfg);
  x ← apply_layer (deconv cfg) x;
  apply_layer (predictor cfg) x.

End ConvUpsampleHead.

(** ** get_all_file_paths *)

Module FilePaths.

(** A directory: its name, the names of its files and its
    sub-directories.  Symbolic links to directories, which [os.walk]
    lists but does not follow, are not modelled. *)
#[warnings="-register-all"]
Inductive Dir : Type :=
| mkDir (name : string) (files : list string) (subdirs : list Dir).

Definition dir_name (d : Dir) : string :=
  match d with mkDir name _ _ => name end.

Definition startswith_sep (s : string) : bool :=
  match s with
  | String "/"%char _ => true
  | _ => false
  end.

Fixpoint endswith_sep (s : string) : bool :=
  match s with
  | EmptyString => false
  | String c EmptyString => bool_decide (c = "/"%char)
  | String _ s' => endswith_sep s'
  end.

(** [os.path.join(path, b)] on a POSIX system. *)
Definition join (path b : string) : string :=
  if startswith_sep b then b
  else if bool_decide (path = EmptyString) || endswith_sep path
       then path +:+ b
       else path +:+ "/" +:+ b.

(** [os.walk(top)], top-down: the triple of the directory, then the
    triples of its sub-directories in the order of the listing. *)
Fixpoint walk (top : string) (d : Dir)
  : list (string * list string * list string) :=
  match d with
  | mkDir _ files subdirs =>
      (top, map dir_name subdirs, files) ::
      (fix walk_all (l : list Dir) :=
         match l with
         | [] => []
         | sub :: l' => walk (join top (dir_name sub)) sub ++ walk_all l'
         end) subdirs
  end.

(** [get_all_file_paths(directory)]; [tree] is the directory found at
    the path (its own name plays no part), [None] when there is none, in
    which case [os.walk] yields nothing. *)
Definition get_all_file_paths (directory : string) (tree : option Dir)
  : list string :=
  match tree with
  | None => []
  | Some d =>
      concat (map (fun rdf : string * list string * list string =>
                     map (fun filename => join (fst (fst rdf)) filename)
                         (snd rdf))
                (walk directory d))
  end.

End FilePaths.

(** ** Specifications *)

Module BoundarySpec.
Import Tensor.
Definition near (i a : nat) : Prop := a <= i + 1 /\ i <= a + 1.

(** Some pixel under the 3x3 kernel at [(i, j)] has the value [v]. *)
Definition kernel_hits {A : Type} (g : grid A) (i j : nat) (v : A) : Prop :=
  exists a b, near i a /\ near j b /\ grid_get g a b = Some v.

(** The pixel lies on the boundary band of the silhouette [g]: its
    dilation is set and its erosion is not. *)
Definition on_band (g : grid bool) (i j : nat) : Prop :=
  kernel_hits g i j true /\ kernel_hits g i j false.
End BoundarySpec.

Module Float32Spec.
Import Float32.

Definition no_nan (b : Box) : Prop :=
  x1 b <> S754_nan /\ y1 b <> S754_nan /\ x2 b <> S754_nan /\
  y2 b <> S754_nan.

(** Row [j] is the row with the highest computed IoU against [g]: the
    computed IoU of every earlier row is smaller and that of no later
    row is greater.  When no computed IoU is above 0 it is row 0. *)
Definition best_row (legacy : bool) (g : Box) (proposals : list Box)
  (j : nat) : Prop :=
  let iou := bb_intersection_over_union legacy g in
  (j = 0%nat /\
   forall i q, proposals !! i = Some q -> SFltb zero (iou q) = false) \/
  (exists p, proposals !! j = Some p /\
     SFltb zero (iou p) = true /\
     (forall i q, (i < j)%nat -> proposals !! i = Some q ->
        SFltb (iou q) (iou p) = true) /\
     (forall i q, (j < i)%nat -> proposals !! i = Some q ->
        SFltb (iou p) (iou q) = false)).

(** Position of a value other than NaN in the order of the
    comparisons. *)
Definition key (x : spec_float) : Z * Z * Z :=
  match x with
  | S754_infinity true => (-2, 0, 0)%Z
  | S754_finite true m e => (-1, - e, - Z.pos m)%Z
  | S754_zero _ => (0, 0, 0)%Z
  | S754_nan => (0, 0, 0)%Z
  | S754_finite false m e => (1, e, Z.pos m)%Z
  | S754_infinity false => (2, 0, 0)%Z
  end.

Definition key_lt (a b : Z * Z * Z) : Prop :=
  (fst (fst a) < fst (fst b) \/
   (fst (fst a) = fst (fst b) /\
    (snd (fst a) < snd (fst b) \/
     (snd (fst a) = snd (fst b) /\ snd a < snd b))))%Z.

(** The loop over the rows [l], numbered from [k]. *)
Definition scan (legacy : bool) (g : Box) (st : spec_float * nat) (k : nat)
  (l : list Box) : spec_float * nat :=
  foldl (best_step legacy g) st (imap (fun i => pair (k + i)%nat) l).

End Float32Spec.

Module OverlapSpec.
Import Instances Overlap.
(** The distinct ground-truth objects of an image: the first polygons of
    its instances, without repetition. *)
Definition distinct_step (done : list Polygon) (x : PolygonMask)
  : list Polygon :=
  if existsb (polygon_eqb (poly0 x)) done then done else done ++ [poly0 x].

Definition distinct_objects (img : Instances) : list Polygon :=
  foldl distinct_step [] (gt_masks img).
End OverlapSpec.

Module LossSpec.
Import Geometry Tensor Instances MaskLoss.

Definition grid_shape {A : Type} (h w : nat) (g : grid A) : Prop :=
  length g = h /\ Forall (fun r => length r = w) g.

Definition shape3 {A : Type} (n h w : nat) (t : tensor3 A) : Prop :=
  length t = n /\ Forall (grid_shape h w) t.

(** Contract of the rasteriser: one mask of the requested side per box. *)
Definition rasterizer_ok
  (crop_and_resize : list PolygonMask -> list Box -> nat -> tensor3 bool)
  : Prop :=
  forall polys boxes M, length polys = length boxes ->
    shape3 (length boxes) M M (crop_and_resize polys boxes M).

(** Contract of the contour filling: it draws on a square grid of the
    requested side. *)
Definition contours_ok (draw_contours : nat -> grid bool -> grid bool)
  : Prop :=
  forall M m, grid_shape M M (draw_contours M m).

(** The images that contribute foreground instances. *)
Definition foreground (instances : list Instances) : list Instances :=
  filter (fun img => length img <> 0%nat) instances.

Section Volumes.

Variable crop_and_resize :
  list PolygonMask -> list Box -> nat -> tensor3 bool.
Variable draw_contours : nat -> grid bool -> grid bool.
Variable M : nat.

Definition gt_masks_of (img : Instances) : tensor3 bool :=
  crop_and_resize (gt_masks img) (proposal_boxes img) M.

(** The targets and the three weight volumes of a batch. *)
Definition targets (instances : list Instances) : tensor3 R :=
  t3_map b2r (concat (map gt_masks_of (foreground instances))).

Definition boundary_volume (instances : list Instances) : tensor3 R :=
  t3_map IZR
    (Boundary.boundary_weights
       (map (fun m => Boundary.bound_pixels (draw_contours M m))
          (concat (map gt_masks_of (foreground instances))))).

Definition roi_volume (instances : list Instances) : tensor3 R :=
  t3_map IZR (concat (map RoiPenalty.img_roi_penalty (foreground instances))).

Definition overlap_volume (instances : list Instances) : tensor3 R :=
  Overlap.overlap_weights
    (concat (map (fun img =>
                    Overlap.per_ins_overlap_masks crop_and_resize img M
                      (gt_masks_of img))
               (foreground instances))).

End Volumes.


(** The logits are a [(B, C, S, S)] array with one row per foreground
    instance, and the ground-truth classes index its channels. *)
Definition well_formed (pred_mask_logits : Logits)
  (instances : list Instances) : Prop :=
  size2 pred_mask_logits = size3 pred_mask_logits /\
  length (data pred_mask_logits) = size0 pred_mask_logits /\
  size0 pred_mask_logits = length (concat instances) /\
  Forall (fun row =>
            length row = size1 pred_mask_logits /\
            Forall (grid_shape (size2 pred_mask_logits)
                      (size3 pred_mask_logits)) row)
         (data pred_mask_logits) /\
  (size1 pred_mask_logits <> 1%nat ->
   Forall (fun inst => (gt_class inst < size1 pred_mask_logits)%nat)
          (concat instances)).

(** [f] applied to the elements of three arrays at the same position. *)
Definition pointwise3 {A B C D : Type} (f : A -> B -> C -> D)
  (t : tensor3 A) (u : tensor3 B) (v : tensor3 C) : tensor3 D :=
  t3_zip (fun ab c => f (fst ab) (snd ab) c) (t3_zip pair t u) v.

End LossSpec.

Module InferenceSpec.
Import Tensor MaskLoss MaskInference.

(** Index, in the flattened instance axis, of the first instance of
    image [k]. *)
Definition offset (pred_instances : list Instances) (k : nat) : nat :=
  sum_list (map len (take k pred_instances)).

(** The predicted classes of a record index the channels of the logits. *)
Definition classes_ok (C : nat) (i : Instances) : Prop :=
  exists v, fields i !! "pred_classes" = Some (IntField v) /\
            length v = len i /\ Forall (fun c => (c < C)%nat) v.

(** The logits have one row per predicted instance, and in the
    class-specific case every record of a non-empty batch carries its
    predicted classes. *)
Definition well_formed (pred_mask_logits : Logits)
  (pred_instances : list Instances) : Prop :=
  length (data pred_mask_logits) = sum_list (map len pred_instances) /\
  Forall (fun row => length row = size1 pred_mask_logits)
         (data pred_mask_logits) /\
  (size1 pred_mask_logits <> 1%nat ->
   pred_instances <> [] /\
   Forall (classes_ok (size1 pred_mask_logits)) pred_instances).

(** The channel selected for instance [r] of the record [i]. *)
Definition channel_of (pred_mask_logits : Logits) (i : Instances)
  (r c : nat) : Prop :=
  if bool_decide (size1 pred_mask_logits = 1%nat) then c = 0%nat
  else exists v, fields i !! "pred_classes" = Some (IntField v) /\
                 v !! r = Some c.

End InferenceSpec.

(** ** Further predicates on boxes, tables of rows, objects and paths *)

Module GeometrySpec.
Import Geometry.
Local Open Scope Q_scope.

(** Both boxes have a positive extent along each axis, and along each
    axis each box begins before the other one ends. *)
Definition overlapping (a b : Box) : Prop :=
  (bx1 a < bx2 a /\ bx1 b < bx2 b /\ bx1 a < bx2 b /\ bx1 b < bx2 a) /\
  (by1 a < by2 a /\ by1 b < by2 b /\ by1 a < by2 b /\ by1 b < by2 a).

End GeometrySpec.

Module UniqueSpec.
Import Geometry RoiPenalty.

(** The counts of a table of rows, and their sum. *)
Definition counts (t : list (Box * Z)) : list Z := map snd t.

Definition total (t : list (Box * Z)) : Z := foldr Z.add 0%Z (counts t).

(** Consecutive rows of the table are strictly increasing. *)
Definition increasing (t : list (Box * Z)) : Prop :=
  Sorted (fun x y => box_compare (fst x) (fst y) = Lt) t.

(** No two rows have the same coordinates. *)
Definition pairwise_distinct (rows : list Box) : Prop :=
  forall i j bi bj, (i < j)%nat -> rows !! i = Some bi -> rows !! j = Some bj ->
    box_compare bj bi <> Eq.

End UniqueSpec.

Module ObjectsSpec.
Import Geometry Tensor Instances Overlap OverlapSpec.

Definition zsum (l : list Z) : Z := foldr Z.add 0%Z l.

(** The sum of the products of the pairs of a list of numbers. *)
Definition pair_sum (xs : list Z) : Z :=
  zsum (map (fun c => (fst c * snd c)%Z) (combinations2 xs)).

Section Objects.

Variable crop_and_resize :
  list PolygonMask -> list Box -> nat -> tensor3 bool.

(** The mask of the object with first polygon [p], rasterised against
    every proposal box of the image. *)
Definition object_mask (img : Instances) (M : nat) (p : Polygon)
  : tensor3 bool :=
  crop_and_resize (map (fun _ => mkPolygonMask p []) img)
    (proposal_boxes img) M.

(** Number of distinct objects of the image whose mask is set at pixel
    [(i, j)] of instance [r]. *)
Definition objects_at (img : Instances) (M r i j : nat) : Z :=
  zsum (map (fun p =>
               Z.b2z (default false (t3_get (object_mask img M p) r i j)))
          (distinct_objects img)).

End Objects.

End ObjectsSpec.

Module MetricsSpec.

(** Number of [true] entries of a list. *)
Definition ntrue (l : list bool) : nat :=
  length (filter (fun b : bool => b = true) l).

End MetricsSpec.

Module ProbabilitySpec.
Import Tensor.

(** Every entry lies between 0 and 1. *)
Definition probabilities (t : tensor3 R) : Prop :=
  Forall (Forall (Forall (fun p => (0 <= p <= 1)%R))) t.

End ProbabilitySpec.

Module FilePathsSpec.
Import FilePaths.

(** Number of files in a directory tree. *)
Fixpoint count_files (d : Dir) : nat :=
  match d with
  | mkDir _ files subdirs =>
      (length files +
       (fix count_all (l : list Dir) :=
          match l with
          | [] => 0
          | sub :: l' => count_files sub + count_all l'
          end) subdirs)%nat
  end.

(** No name of the tree starts with the separator (names come from a
    directory listing). *)
Fixpoint plain_names (d : Dir) : Prop :=
  match d with
  | mkDir _ files subdirs =>
      Forall (fun f => startswith_sep f = false) files /\
      (fix plain_all (l : list Dir) :=
         match l with
         | [] => True
         | sub :: l' =>
             startswith_sep (dir_name sub) = false /\ plain_names sub /\
             plain_all l'
         end) subdirs
  end.

Definition starts_with (p s : string) : Prop := exists t, s = p +:+ t.

Definition files_of (d : Dir) : list string :=
  match d with mkDir _ files _ => files end.

Definition subdirs_of (d : Dir) : list Dir :=
  match d with mkDir _ _ subdirs => subdirs end.

(** [file_at d dirs f]: [f] is a file of the directory reached from [d]
    through the sub-directories named [dirs]. *)
Inductive file_at : Dir -> list string -> string -> Prop :=
| file_here name files subdirs f :
    f ∈ files -> file_at (mkDir name files subdirs) [] f
| file_below name files subdirs sub dirs f :
    sub ∈ subdirs -> file_at sub dirs f ->
    file_at (mkDir name files subdirs) (dir_name sub :: dirs) f.

(** The joined paths of the files of a list of triples of [os.walk]. *)
Definition paths_of (w : list (string * list string * list string))
  : list string :=
  concat (map (fun rdf : string * list string * list string =>
                 map (fun filename => join (fst (fst rdf)) filename)
                     (snd rdf)) w).

End FilePathsSpec.

(** ** Concrete inputs *)

Module Examples.
Import Geometry Tensor Instances.

Definition box_a : Box := mkBox 0 0 2 2.
Definition box_b : Box := mkBox 1 1 3 3.
Definition box_far : Box := mkBox 5 5 6 6.

(** A corner tuple with both axes reversed. *)
Definition box_reversed : Box := mkBox 0 0 (-1) (-1).

Definition no_polygon : PolygonMask := mkPolygonMask [] [].

(** A rasteriser that fills every mask, and a contour filling that draws
    the full square. *)
Definition full_masks (polys : list PolygonMask) (boxes : list Box)
  (M : nat) : tensor3 bool :=
  replicate (length boxes) (replicate M (replicate M true)).

Definition full_square (M : nat) (m : grid bool) : grid bool :=
  replicate M (replicate M true).

(** A contour filling that returns the mask itself. *)
Definition same_mask (M : nat) (m : grid bool) : grid bool := m.

(** One image with one instance and a class-agnostic 1x1 logit. *)
Definition one_instance : Instances :=
  [mkInstance 0 box_a box_a no_polygon].

Definition one_logit : MaskLoss.Logits :=
  MaskLoss.mkLogits 1 1 1 1 [[[[0%R]]]].

Definition zero_log_vars : MaskLoss.LogVars := MaskLoss.mkLogVars 0 0 0.

(** No mask at all: the logits of an empty batch. *)
Definition no_logits : MaskLoss.Logits := MaskLoss.mkLogits 0 1 2 2 [].

(** Three proposals matched to the same ground-truth box; the second one
    is the box itself. *)
Definition three_duplicates : Instances :=
  [mkInstance 0 box_a box_b no_polygon;
   mkInstance 0 box_a box_a no_polygon;
   mkInstance 0 box_a box_far no_polygon].

(** Two proposals matched to a ground-truth box that neither overlaps. *)
Definition two_unmatched : Instances :=
  [mkInstance 0 box_a box_far no_polygon;
   mkInstance 0 box_a box_far no_polygon].

(** A 3x3 silhouette with one unset corner. *)
Definition corner_mask : grid bool :=
  [[false; true; true]; [true; true; true]; [true; true; true]].

(** Class-specific logits with two channels for one predicted instance of
    class 1. *)
Definition two_channels : MaskLoss.Logits :=
  MaskLoss.mkLogits 1 2 1 1 [[[[0%R]]; [[1%R]]]].

Definition one_prediction : MaskInference.Instances :=
  MaskInference.mkInstances 1
    {[ "pred_classes" := MaskInference.IntField [1%nat] ]}.

(** One image with two objects: distinct first polygons and distinct
    ground-truth boxes. *)
Definition triangle_a : PolygonMask := mkPolygonMask [0; 0; 2; 0; 2; 2]%Q [].
Definition triangle_b : PolygonMask := mkPolygonMask [1; 1; 3; 1; 3; 3]%Q [].

Definition two_objects : Instances :=
  [mkInstance 0 box_a box_a triangle_a;
   mkInstance 1 box_b box_b triangle_b].

(** An instance whose class is not a channel of [two_channels]. *)
Definition class_two : Instances :=
  [mkInstance 2 box_a box_a no_polygon].

(** A head with four convolutions for 80 classes on 256 channels. *)
Definition coco_head : ConvUpsampleHead.Config :=
  ConvUpsampleHead.mkConfig 80 256 4 false 256.

(** A directory with one file and one sub-directory with one file. *)
Definition small_tree : FilePaths.Dir :=
  FilePaths.mkDir "data" ["a.txt"] [FilePaths.mkDir "sub" ["b.txt"] []].

(** A rasteriser whose masks are set everywhere but at the corner pixel,
    and a contour filling that redraws the mask on a grid of the
    requested side. *)
Definition corner_masks (polys : list PolygonMask) (boxes : list Box)
  (M : nat) : tensor3 bool :=
  replicate (length boxes)
    (map (fun i => map (fun j => negb (Nat.eqb i 0 && Nat.eqb j 0))
                     (seq 0 M))
       (seq 0 M)).

Definition redraw (M : nat) (m : grid bool) : grid bool :=
  map (fun i => map (fun j => default false (grid_get m i j)) (seq 0 M))
    (seq 0 M).

(** One image with two instances of the same ground-truth box and of two
    objects; class-specific logits of side 3 for them. *)
Definition duplicated_pair : Instances :=
  [mkInstance 0 box_a box_a triangle_a;
   mkInstance 1 box_a box_b triangle_b].



(** A ground-truth box found twice, with two proposals whose exact IoUs
    against it differ and whose computed IoUs are equal. *)
Definition box32 (a b c d : Z) : Float32.Box :=
  Float32.mkBox (Float32.of_Z a) (Float32.of_Z b) (Float32.of_Z c)
    (Float32.of_Z d).

Definition large_box : Float32.Box := box32 0 0 10000 10000.
Definition near_square : Float32.Box := box32 0 0 8193 8191.
Definition square : Float32.Box := box32 0 0 8192 8192.

Definition tied_pair : list Float32.Instance :=
  [Float32.mkInstance large_box near_square;
   Float32.mkInstance large_box square].

(** The same ground-truth box with a proposal that does not meet it
    before the two others. *)
Definition far_then_tied : list Float32.Instance :=
  [Float32.mkInstance large_box (box32 20000 20000 20001 20001);
   Float32.mkInstance large_box near_square;
   Float32.mkInstance large_box square].

End Examples.

(** ** Verification *)

Section GeometryFacts.
Import Geometry.
Local Open Scope Q_scope.

Lemma interArea_comm a b : interArea a b == interArea b a.
Proof.
  unfold interArea; cbv zeta.
  rewrite (Q.max_comm (bx1 a)), (Q.max_comm (by1 a)),
    (Q.min_comm (bx2 a)), (Q.min_comm (by2 a)).
  reflexivity.
Qed.

Lemma Qeq_bool_0_proper x y : x == y -> Qeq_bool x 0 = Qeq_bool y 0.
Proof.
  intros H. destruct (Qeq_bool y 0) eqn:E.
  - apply Qeq_bool_iff. apply Qeq_bool_iff in E. rewrite H. exact E.
  - destruct (Qeq_bool x 0) eqn:E'; [|reflexivity].
    apply Qeq_bool_iff in E'. rewrite H in E'. apply Qeq_bool_iff in E'.
    congruence.
Qed.

Lemma interArea_product a b :
  interArea a b ==
   Qmax (Qmin (bx2 a) (bx2 b) - Qmax (bx1 a) (bx1 b)) 0 *
   Qmax (Qmin (by2 a) (by2 b) - Qmax (by1 a) (by1 b)) 0.
Proof.
  unfold interArea; cbv zeta. apply Qabs_pos.
  apply Qmult_le_0_compat; apply Q.le_max_r.
Qed.

Lemma interArea_nonneg a b : 0 <= interArea a b.
Proof. unfold interArea; cbv zeta. apply Qabs_nonneg. Qed.

Lemma clamp_nonpos x : x <= 0 -> Qmax x 0 == 0.
Proof. intros H. apply Q.max_r. exact H. Qed.

Lemma clamp_pos x : 0 <= x -> Qmax x 0 == x.
Proof. intros H. apply Q.max_l. exact H. Qed.

Lemma interArea_zero_x a b :
  Qmin (bx2 a) (bx2 b) - Qmax (bx1 a) (bx1 b) <= 0 -> interArea a b == 0.
Proof.
  intros H. rewrite interArea_product, (clamp_nonpos _ H). ring.
Qed.

Lemma interArea_zero_y a b :
  Qmin (by2 a) (by2 b) - Qmax (by1 a) (by1 b) <= 0 -> interArea a b == 0.
Proof.
  intros H. rewrite interArea_product, (clamp_nonpos _ H). ring.
Qed.

Lemma iou_of_zero_interArea a b :
  interArea a b == 0 -> bb_intersection_over_union a b == 0.
Proof.
  intros H. unfold bb_intersection_over_union; cbv zeta.
  apply Qeq_bool_iff in H. rewrite H. reflexivity.
Qed.

Lemma extent_le a1 a2 b1 b2 :
  a2 <= b1 \/ b2 <= a1 \/ a2 <= a1 \/ b2 <= b1 -> Qmin a2 b2 - Qmax a1 b1 <= 0.
Proof.
  intros H.
  pose proof (Q.le_min_l a2 b2). pose proof (Q.le_min_r a2 b2).
  pose proof (Q.le_max_l a1 b1). pose proof (Q.le_max_r a1 b1).
  Lqa.lra.
Qed.

Lemma boxArea_nonpos b :
  boxArea b <= 0 -> bx2 b <= bx1 b \/ by2 b <= by1 b.
Proof.
  unfold boxArea. intros H.
  assert (E : (bx2 b - bx1 b) * (by2 b - by1 b) == 0).
  { pose proof (Qabs_nonneg ((bx2 b - bx1 b) * (by2 b - by1 b))) as Hn.
    assert (Hz : Qabs ((bx2 b - bx1 b) * (by2 b - by1 b)) == 0) by Lqa.lra.
    destruct (Qlt_le_dec ((bx2 b - bx1 b) * (by2 b - by1 b)) 0) as [L | L].
    - rewrite Qabs_neg in Hz by Lqa.lra. Lqa.lra.
    - rewrite Qabs_pos in Hz by Lqa.lra. Lqa.lra. }
  destruct (Qmult_integral _ _ E); [left | right]; Lqa.lra.
Qed.

Lemma iou_disjoint a b : disjoint a b -> interArea a b == 0.
Proof.
  intros [H | [H | [H | H]]].
  - apply interArea_zero_x, extent_le; auto.
  - apply interArea_zero_x, extent_le; auto.
  - apply interArea_zero_y, extent_le; auto.
  - apply interArea_zero_y, extent_le; auto.
Qed.

Lemma interArea_self a :
  ordered a -> interArea a a == boxArea a.
Proof.
  intros [Hx Hy]. unfold interArea, boxArea; cbv zeta.
  rewrite !Q.max_id, !Q.min_id.
  rewrite (clamp_pos (bx2 a - bx1 a)) by Lqa.lra.
  rewrite (clamp_pos (by2 a - by1 a)) by Lqa.lra.
  reflexivity.
Qed.

Lemma iou_self a :
  ordered a -> 0 < boxArea a -> bb_intersection_over_union a a == 1.
Proof.
  intros Ho Hp. unfold bb_intersection_over_union; cbv zeta.
  pose proof (interArea_self a Ho) as E.
  rewrite (Qeq_bool_0_proper _ _ E).
  destruct (Qeq_bool (boxArea a) 0) eqn:Z.
  - apply Qeq_bool_iff in Z. Lqa.lra.
  - rewrite E. field. Lqa.lra.
Qed.

(** C8.  IoU is symmetric; the IoU of a rectangle of positive area with
    itself is 1; the IoU is 0 for two rectangles that do not overlap and
    whenever one of the two areas is not positive. *)
Theorem iou_symmetric_unit_zero (a b : Box) :
  bb_intersection_over_union a b == bb_intersection_over_union b a /\
  (ordered a -> 0 < boxArea a -> bb_intersection_over_union a a == 1) /\
  (disjoint a b \/ boxArea a <= 0 \/ boxArea b <= 0 ->
   bb_intersection_over_union a b == 0).
Proof.
  split; [|split].
  - unfold bb_intersection_over_union; cbv zeta.
    rewrite (Qeq_bool_0_proper _ _ (interArea_comm a b)).
    destruct (Qeq_bool (interArea b a) 0); [reflexivity|].
    rewrite (interArea_comm a b), (Qplus_comm (boxArea a)). reflexivity.
  - apply iou_self.
  - intros [H | [H | H]]; apply iou_of_zero_interArea.
    + apply iou_disjoint, H.
    + destruct (boxArea_nonpos _ H).
      * apply interArea_zero_x, extent_le; auto.
      * apply interArea_zero_y, extent_le; auto.
    + destruct (boxArea_nonpos _ H).
      * apply interArea_zero_x, extent_le; auto.
      * apply interArea_zero_y, extent_le; auto.
Qed.


Lemma interArea_le_boxArea a b : interArea a b <= boxArea a.
Proof.
  rewrite interArea_product. unfold boxArea.
  set (ex := Qmin (bx2 a) (bx2 b) - Qmax (bx1 a) (bx1 b)).
  set (ey := Qmin (by2 a) (by2 b) - Qmax (by1 a) (by1 b)).
  assert (Hx : ex <= bx2 a - bx1 a).
  { unfold ex. pose proof (Q.le_min_l (bx2 a) (bx2 b)).
    pose proof (Q.le_max_l (bx1 a) (bx1 b)). Lqa.lra. }
  assert (Hy : ey <= by2 a - by1 a).
  { unfold ey. pose proof (Q.le_min_l (by2 a) (by2 b)).
    pose proof (Q.le_max_l (by1 a) (by1 b)). Lqa.lra. }
  pose proof (Qabs_nonneg ((bx2 a - bx1 a) * (by2 a - by1 a))) as Hn.
  destruct (Qlt_le_dec 0 ex) as [Px | Nx].
  - destruct (Qlt_le_dec 0 ey) as [Py | Ny].
    + rewrite (clamp_pos ex), (clamp_pos ey) by Lqa.lra.
      rewrite Qabs_pos by Lqa.nra. Lqa.nra.
    + rewrite (clamp_nonpos ey Ny). Lqa.lra.
  - rewrite (clamp_nonpos ex Nx). Lqa.lra.
Qed.

Lemma boxArea_nonneg a : 0 <= boxArea a.
Proof. apply Qabs_nonneg. Qed.

Lemma iou_nonneg a b : 0 <= bb_intersection_over_union a b.
Proof.
  unfold bb_intersection_over_union; cbv zeta.
  destruct (Qeq_bool (interArea a b) 0) eqn:E; [Lqa.lra|].
  pose proof (interArea_nonneg a b) as Hi.
  pose proof (interArea_le_boxArea a b) as Ha.
  pose proof (interArea_le_boxArea b a) as Hb.
  rewrite (interArea_comm b a) in Hb.
  assert (Hp : 0 < interArea a b).
  { destruct (Qlt_le_dec 0 (interArea a b)) as [|L]; [assumption|].
    assert (Z0 : interArea a b == 0) by Lqa.lra.
    apply Qeq_bool_iff in Z0. congruence. }
  apply Qle_shift_div_l; Lqa.lra.
Qed.

End GeometryFacts.

Section QuadFacts.
Import Overlap.
Local Open Scope R_scope.

Lemma radicand_linear c : radicand c = 1 + 8 * c.
Proof. unfold radicand. ring. Qed.

Lemma quad_radicand c :
  quad c = Rmax ((1 + sqrt (radicand c)) / 2) ((1 - sqrt (radicand c)) / 2).
Proof. reflexivity. Qed.

Lemma quad_larger_root c : quad c = (1 + sqrt (radicand c)) / 2.
Proof.
  rewrite quad_radicand. apply Rmax_left.
  pose proof (sqrt_pos (radicand c)). Lra.lra.
Qed.

Lemma quad_is_root c :
  0 <= radicand c -> quad c * quad c - quad c - 2 * c = 0.
Proof.
  intros H. rewrite quad_larger_root.
  pose proof (sqrt_sqrt _ H) as E. rewrite radicand_linear in *.
  Lra.nra.
Qed.

Lemma quad_dominates_roots c w :
  0 <= radicand c -> w * w - w - 2 * c = 0 -> w <= quad c.
Proof.
  intros H Hw. rewrite quad_larger_root.
  pose proof (sqrt_sqrt _ H) as E. pose proof (sqrt_pos (radicand c)) as P.
  rewrite radicand_linear in *.
  destruct (Rle_lt_dec w ((1 + sqrt (1 + 8 * c)) / 2)) as [L | L]; [exact L|].
  exfalso. Lra.nra.
Qed.

Lemma sqrt_9 : sqrt 9 = 3.
Proof. replace 9 with (3 * 3) by ring. apply sqrt_square. Lra.lra. Qed.

Lemma quad_1 : quad 1 = 2.
Proof.
  rewrite quad_larger_root, radicand_linear.
  replace (1 + 8 * 1) with 9 by ring. rewrite sqrt_9. Lra.lra.
Qed.

Lemma quad_0 : quad 0 = 1.
Proof.
  rewrite quad_larger_root, radicand_linear.
  replace (1 + 8 * 0) with 1 by ring. rewrite sqrt_1. Lra.lra.
Qed.

(** C3, as stated, fails: a raw overlap count of 1 is not mapped to the
    weight 1. *)
Lemma quad_of_one_is_not_one : quad 1 <> 1.
Proof. rewrite quad_1. Lra.lra. Qed.

(** C3, amended.  [quad] maps the raw overlap count 1 to the weight 2,
    the larger root of [w * w - w - 2 * c = 0] at [c = 1]. *)
Theorem quad_of_one_is_two :
  quad 1 = 2 /\
  quad 1 * quad 1 - quad 1 - 2 * 1 = 0 /\
  forall w, w * w - w - 2 * 1 = 0 -> w <= quad 1.
Proof.
  assert (H : 0 <= radicand 1) by (rewrite radicand_linear; Lra.lra).
  split; [apply quad_1 | split].
  - apply quad_is_root, H.
  - intros w. apply quad_dominates_roots, H.
Qed.

(** C5, as stated, fails: above 0.25 the radicand is not negative. *)
Lemma radicand_above_quarter_not_negative :
  1 > 1 / 4 /\ ~ radicand 1 < 0.
Proof. rewrite radicand_linear. split; Lra.lra. Qed.

(** C5, amended.  The radicand of [quad] is [1 + 8 * c]: it is negative
    exactly when [c < -1/8], and for every raw count [c >= 0] it is not
    negative and [quad c] is a root of [w * w - w - 2 * c = 0]. *)
Theorem radicand_negative_iff (c : R) :
  (radicand c < 0 <-> c < - (1 / 8)) /\
  (0 <= c -> 0 <= radicand c /\ quad c * quad c - quad c - 2 * c = 0).
Proof.
  split.
  - rewrite radicand_linear. split; Lra.lra.
  - intros H. assert (0 <= radicand c) by (rewrite radicand_linear; Lra.lra).
    split; [assumption | by apply quad_is_root].
Qed.

End QuadFacts.


Section BoundaryFacts.
Import Tensor Boundary BoundarySpec.

Lemma elem_of_neighbours i a : a ∈ neighbours i <-> near i a.
Proof.
  unfold near. destruct i as [|p]; simpl;
    rewrite !elem_of_cons, elem_of_nil; lia.
Qed.

Lemma elem_of_window {A} (g : grid A) i j v :
  v ∈ window g i j <-> kernel_hits g i j v.
Proof.
  unfold window, kernel_hits. rewrite list_elem_of_omap. split.
  - intros [[a b] [Hin Hv]]. apply list_elem_of_In, in_prod_iff in Hin.
    destruct Hin as [Ha Hb]. exists a, b.
    rewrite <- !elem_of_neighbours, !list_elem_of_In. auto.
  - intros (a & b & Ha & Hb & Hv). exists (a, b). split; [|exact Hv].
    apply list_elem_of_In, in_prod_iff.
    rewrite <- !list_elem_of_In, !elem_of_neighbours. auto.
Qed.

Lemma existsb_window g i j :
  existsb (fun b : bool => b) (window g i j) = true <-> kernel_hits g i j true.
Proof.
  rewrite existsb_exists. setoid_rewrite <- elem_of_window.
  setoid_rewrite <- list_elem_of_In. split.
  - intros [x [Hx ->]]. exact Hx.
  - intros H. exists true. auto.
Qed.

Lemma forallb_window g i j :
  forallb (fun b : bool => b) (window g i j) = false <->
  kernel_hits g i j false.
Proof.
  rewrite <- elem_of_window. split.
  - intros H. destruct (decide (false ∈ window g i j)) as [|N]; [done|].
    exfalso.
    assert (forallb (fun b : bool => b) (window g i j) = true); [|congruence].
    apply forallb_forall. intros [] Hx; [done|].
    apply list_elem_of_In in Hx. done.
  - intros H. destruct (forallb _ _) eqn:E; [|done].
    rewrite forallb_forall in E. apply list_elem_of_In, E in H. done.
Qed.

Lemma grid_get_imap {A B} (f : nat -> nat -> A -> B) (g : grid A) i j :
  grid_get (imap (fun i row => imap (f i) row) g) i j =
  f i j <$> grid_get g i j.
Proof.
  unfold grid_get. rewrite list_lookup_imap.
  destruct (g !! i) as [row|]; simpl; [|done].
  by rewrite list_lookup_imap.
Qed.

Lemma grid_get_zip {A B C} (f : A -> B -> C) (g : grid A) (h : grid B) i j :
  grid_get (grid_zip f g h) i j =
  x ← grid_get g i j; y ← grid_get h i j; Some (f x y).
Proof.
  unfold grid_get, grid_zip. rewrite lookup_zip_with.
  destruct (g !! i) as [r|]; simpl; [|done].
  destruct (h !! i) as [s|]; simpl.
  - by rewrite lookup_zip_with.
  - by destruct (r !! j).
Qed.

Lemma grid_get_map {A B} (f : A -> B) (g : grid A) i j :
  grid_get (grid_map f g) i j = f <$> grid_get g i j.
Proof.
  unfold grid_get, grid_map. rewrite list_lookup_fmap.
  destruct (g !! i) as [r|]; simpl; [|done].
  by rewrite list_lookup_fmap.
Qed.

Lemma t3_get_map {A B} (f : A -> B) (t : tensor3 A) n i j :
  t3_get (t3_map f t) n i j = f <$> t3_get t n i j.
Proof.
  unfold t3_get, t3_map. rewrite list_lookup_fmap.
  destruct (t !! n) as [g|]; simpl; [|done].
  apply grid_get_map.
Qed.

Lemma bound_pixels_get g i j v :
  grid_get g i j = Some v ->
  grid_get (bound_pixels g) i j =
  Some (xorb (existsb (fun b : bool => b) (window g i j))
             (forallb (fun b : bool => b) (window g i j))).
Proof.
  intros H. unfold bound_pixels, dilate, erode.
  rewrite grid_get_zip, !grid_get_imap, H. reflexivity.
Qed.

Lemma kernel_hits_centre {A} (g : grid A) i j v :
  grid_get g i j = Some v -> kernel_hits g i j v.
Proof. intros H. exists i, j. unfold near. repeat split; try lia. exact H. Qed.

Lemma band_pixel g i j v :
  grid_get g i j = Some v ->
  xorb (existsb (fun b : bool => b) (window g i j))
       (forallb (fun b : bool => b) (window g i j)) = true <-> on_band g i j.
Proof.
  intros H. unfold on_band.
  destruct (existsb _ _) eqn:D, (forallb _ _) eqn:E; simpl.
  - split; [discriminate|]. intros [_ F]. apply forallb_window in F. congruence.
  - split; [|reflexivity]. intros _. split.
    + by apply existsb_window.
    + by apply forallb_window.
  - exfalso. destruct v.
    + apply kernel_hits_centre, existsb_window in H. congruence.
    + apply kernel_hits_centre, forallb_window in H. congruence.
  - split; [discriminate|]. intros [T _]. apply existsb_window in T. congruence.
Qed.

Lemma dilate_get g i j v :
  grid_get g i j = Some v ->
  grid_get (dilate g) i j =
  Some (existsb (fun b : bool => b) (window g i j)).
Proof. intros H. unfold dilate. by rewrite grid_get_imap, H. Qed.

Lemma erode_get g i j v :
  grid_get g i j = Some v ->
  grid_get (erode g) i j =
  Some (forallb (fun b : bool => b) (window g i j)).
Proof. intros H. unfold erode. by rewrite grid_get_imap, H. Qed.

(** C7.  At every pixel of every ground-truth mask, the boundary weight
    is [BNDRY_WT] (which is 0) where the 3x3 dilation and the 3x3 erosion
    of the silhouette differ, and 1 elsewhere; the dilation is set where
    the kernel meets a set pixel, the erosion is unset where it meets an
    unset pixel. *)
Theorem boundary_weight_band (draw_contours : nat -> grid bool -> grid bool)
  (mask_side_len : nat) (gt_masks : tensor3 bool) (n i j : nat)
  (m : grid bool) (v : bool) :
  gt_masks !! n = Some m ->
  grid_get (draw_contours mask_side_len m) i j = Some v ->
  let silhouette := draw_contours mask_side_len m in
  exists (d e : bool) (w : Z),
    grid_get (dilate silhouette) i j = Some d /\
    grid_get (erode silhouette) i j = Some e /\
    (d = true <-> kernel_hits silhouette i j true) /\
    (e = false <-> kernel_hits silhouette i j false) /\
    (xorb d e = true <-> on_band silhouette i j) /\
    t3_get (boundary_weights
              (map (fun m => bound_pixels (draw_contours mask_side_len m))
                 gt_masks)) n i j = Some w /\
    w = (if xorb d e then BNDRY_WT else 1%Z) /\
    BNDRY_WT = 0%Z.
Proof.
  intros Hm Hv silhouette. fold silhouette in Hv.
  exists (existsb (fun b : bool => b) (window silhouette i j)),
         (forallb (fun b : bool => b) (window silhouette i j)).
  eexists. split; [by eapply dilate_get|]. split; [by eapply erode_get|].
  split; [apply existsb_window|]. split; [apply forallb_window|].
  split; [by eapply band_pixel|].
  unfold boundary_weights. rewrite t3_get_map. unfold t3_get.
  rewrite list_lookup_fmap, Hm. simpl. fold silhouette.
  rewrite (bound_pixels_get _ _ _ _ Hv). simpl.
  split; [reflexivity|]. split; [|reflexivity].
  by destruct (xorb _ _).
Qed.

End BoundaryFacts.


Section RoiFacts.
Import Geometry Tensor RoiPenalty.

Lemma Qlt_bool_iff x y : Qlt_bool x y = true <-> (x < y)%Q.
Proof.
  unfold Qlt_bool. rewrite negb_true_iff. split.
  - intros H. apply Qnot_le_lt. intros L. apply Qle_bool_iff in L. congruence.
  - intros H. destruct (Qle_bool y x) eqn:E; [|reflexivity].
    apply Qle_bool_iff in E. Lqa.lra.
Qed.

Lemma box_compare_refl g : box_compare g g = Eq.
Proof.
  unfold box_compare.
  rewrite !(proj1 (Qeq_alt _ _) (Qeq_refl _)). reflexivity.
Qed.

Lemma enumerate_snoc {A} (l : list A) x :
  enumerate (l ++ [x]) = enumerate l ++ [(length l, x)].
Proof.
  unfold enumerate. rewrite imap_app. simpl. by rewrite Nat.add_0_r.
Qed.

Lemma best_match_snoc g l p :
  best_match g (l ++ [p]) = best_step g (best_match g l) (length l, p).
Proof.
  unfold best_match. by rewrite enumerate_snoc, foldl_app.
Qed.

Local Abbreviation iou := bb_intersection_over_union (only parsing).

Lemma best_match_no_overlap g l :
  (forall p, p ∈ l -> ~ (0 < iou g p)%Q) -> best_match g l = (0%Q, 0%nat).
Proof.
  induction l as [|p l IH] using rev_ind; intros H; [done|].
  rewrite best_match_snoc, IH.
  - unfold best_step. cbn [fst snd].
    destruct (Qlt_bool 0 (iou g p)) eqn:T; [|done].
    apply Qlt_bool_iff in T. exfalso. apply (H p); [|done].
    apply elem_of_app. right. by apply list_elem_of_singleton.
  - intros q Hq. apply H, elem_of_app. by left.
Qed.

Lemma roi_steps_length props pen l :
  length (foldl (roi_step props) pen l) = length pen.
Proof.
  revert pen. induction l as [|gc l IH]; intros pen; simpl; [done|].
  rewrite IH. unfold roi_step. by rewrite length_insert.
Qed.

Lemma roi_steps_other props pen l r :
  Forall (fun gc => best_box (fst gc) props <> r) l ->
  foldl (roi_step props) pen l !! r = pen !! r.
Proof.
  revert pen. induction l as [|gc l IH]; intros pen H; simpl; [done|].
  inversion H as [|? ? Hgc Hl]; subst. rewrite IH by done.
  unfold roi_step. by rewrite list_lookup_insert_ne.
Qed.

(** C10.  A unique ground-truth box against which no proposal has an IoU
    above 0 has best-match index 0: its count is written to row 0 of the
    image, over the weight that row has then, and stays there unless a
    later unique box also selects row 0. *)
Theorem unmatched_box_writes_row_0 (img : Instances.Instances)
  (pre post : list (Box * Z)) (g : Box) (c : Z) :
  np_unique (Instances.gt_boxes img) = pre ++ (g, c) :: post ->
  (forall p, p ∈ Instances.proposal_boxes img -> ~ (0 < iou g p)%Q) ->
  let props := Instances.proposal_boxes img in
  let init := full (length img) 1 1 1%Z in
  best_box g props = 0%nat /\
  foldl (roi_step props) init (pre ++ [(g, c)]) =
    <[0%nat := [[c]]]> (foldl (roi_step props) init pre) /\
  foldl (roi_step props) init (pre ++ [(g, c)]) !! 0%nat = Some [[c]] /\
  (Forall (fun gc => best_box (fst gc) props <> 0%nat) post ->
   img_roi_penalty img !! 0%nat = Some [[c]]).
Proof.
  intros Huniq Hno props init.
  assert (Hbest : best_box g props = 0%nat).
  { unfold best_box, props. by rewrite (best_match_no_overlap _ _ Hno). }
  assert (Hstep : foldl (roi_step props) init (pre ++ [(g, c)]) =
                  <[0%nat := [[c]]]> (foldl (roi_step props) init pre)).
  { rewrite foldl_app. simpl. unfold roi_step at 1. cbn [fst snd].
    by rewrite Hbest. }
  assert (Hlen : (0 < length img)%nat).
  { destruct img; [|simpl; lia]. simpl in Huniq. by destruct pre. }
  assert (Hrow : foldl (roi_step props) init (pre ++ [(g, c)]) !! 0%nat =
                 Some [[c]]).
  { rewrite Hstep. apply list_lookup_insert_eq.
    rewrite roi_steps_length. unfold init, full. by rewrite length_replicate. }
  repeat split; try done.
  intros Hpost. unfold img_roi_penalty; cbv zeta. rewrite Huniq.
  change (pre ++ (g, c) :: post) with (pre ++ [(g, c)] ++ post).
  rewrite app_assoc, foldl_app. fold props. fold init.
  by rewrite roi_steps_other.
Qed.

End RoiFacts.

(** ** The matching loop on binary32 values *)

Section Float32Facts.
Import Tensor Float32 Float32Spec.

Example tied_ious legacy :
  bb_intersection_over_union legacy Examples.large_box
    Examples.near_square =
  bb_intersection_over_union legacy Examples.large_box
    Examples.square.
Proof. destruct legacy; vm_compute; reflexivity. Qed.

(** In exact arithmetic the second proposal has the greater IoU. *)
Example tied_ious_exact :
  (Geometry.bb_intersection_over_union (Geometry.mkBox 0 0 10000 10000)
     (Geometry.mkBox 0 0 8193 8191) <
   Geometry.bb_intersection_over_union (Geometry.mkBox 0 0 10000 10000)
     (Geometry.mkBox 0 0 8192 8192))%Q.
Proof. reflexivity. Qed.

Example tied_pair_penalty legacy :
  img_roi_penalty legacy Examples.tied_pair = [[[2%Z]]; [[1%Z]]].
Proof. destruct legacy; vm_compute; reflexivity. Qed.

Lemma SFcompare_refl x : x <> S754_nan -> SFcompare x x = Some Eq.
Proof.
  destruct x as [s|s| |s m e]; try done; intros _; simpl.
  - by destruct s.
  - destruct s; rewrite Z.compare_refl, Pos.compare_cont_refl; done.
Qed.

Lemma box32_compare_refl g : no_nan g -> box_compare g g = Eq.
Proof.
  intros (H1 & H2 & H3 & H4). unfold box_compare, coord_compare.
  by rewrite !SFcompare_refl.
Qed.

Lemma count_rows_same g c n :
  no_nan g ->
  foldl (fun acc b => count_row b acc) [(g, c)] (replicate n g) =
  [(g, (c + Z.of_nat n)%Z)].
Proof.
  intros Hg. revert c. induction n as [|n IH]; intros c; simpl.
  - by rewrite Z.add_0_r.
  - rewrite (box32_compare_refl _ Hg), IH. do 2 f_equal. lia.
Qed.

Lemma np_unique_same g n :
  no_nan g -> np_unique (replicate (S n) g) = [(g, Z.of_nat (S n))].
Proof.
  intros Hg. unfold np_unique. simpl replicate. simpl foldl.
  rewrite (count_rows_same _ _ _ Hg). do 2 f_equal. lia.
Qed.

Lemma gt_boxes_same img g :
  Forall (fun inst => gt_box inst = g) img ->
  gt_boxes img = replicate (length img) g.
Proof.
  induction 1 as [|inst img E _ IH]; simpl; [done|]. by rewrite E, IH.
Qed.

Section Scan.

Variable legacy : bool.
Variable g : Box.

Local Abbreviation iou := (bb_intersection_over_union legacy g).

Local Abbreviation scan := (Float32Spec.scan legacy g).

Lemma scan_nil st k : scan st k [] = st.
Proof. done. Qed.

Lemma scan_cons st k p l :
  scan st k (p :: l) = scan (best_step legacy g st (k, p)) (S k) l.
Proof.
  unfold scan. cbn [imap foldl]. rewrite Nat.add_0_r. f_equal.
  apply imap_ext. intros i x _. simpl. f_equal. lia.
Qed.

Lemma scan_app st k l l' :
  scan st k (l ++ l') = scan (scan st k l) (k + length l) l'.
Proof.
  revert st k. induction l as [|p l IH]; intros st k.
  - by rewrite Nat.add_0_r.
  - cbn [app length]. rewrite !scan_cons, IH. f_equal. lia.
Qed.

Lemma best_match_scan l : best_match legacy g l = scan (zero, 0%nat) 0 l.
Proof. done. Qed.

Lemma scan_keeps st k l :
  Forall (fun q => SFltb (fst st) (iou q) = false) l -> scan st k l = st.
Proof.
  intros H. revert k. induction H as [|q l Hq _ IH]; intros k; [done|].
  rewrite scan_cons. unfold best_step. cbn [snd]. rewrite Hq. apply IH.
Qed.

Lemma scan_below v st k l :
  SFltb (fst st) v = true ->
  Forall (fun q => SFltb (iou q) v = true) l ->
  SFltb (fst (scan st k l)) v = true.
Proof.
  intros Hst H. revert st k Hst.
  induction H as [|q l Hq _ IH]; intros st k Hst; [done|].
  rewrite scan_cons. apply IH. unfold best_step. cbn [snd].
  by destruct (SFltb (fst st) (iou q)).
Qed.

Lemma best_box_best_row l j : best_row legacy g l j -> best_box legacy g l = j.
Proof.
  unfold best_box. rewrite best_match_scan.
  intros [[-> Hno] | (p & Hp & Hpos & Hlt & Hge)].
  - rewrite scan_keeps; [done|]. apply Forall_lookup. intros i q Hq.
    by apply (Hno i q).
  - rewrite <- (take_drop_middle l j p Hp), scan_app, scan_cons.
    assert (Hlen : length (take j l) = j).
    { rewrite length_take. apply lookup_lt_Some in Hp. lia. }
    assert (Hpre : SFltb (fst (scan (zero, 0%nat) 0 (take j l))) (iou p) = true).
    { apply scan_below; [done|]. apply Forall_lookup. intros i q Hq.
      assert (i < j)%nat.
      { apply lookup_lt_Some in Hq. rewrite length_take in Hq. lia. }
      apply (Hlt i q); [done|]. by rewrite lookup_take_lt in Hq. }
    unfold best_step at 1. cbn [fst snd]. rewrite Hpre.
    rewrite scan_keeps; [cbn [snd]; lia|].
    apply Forall_lookup. intros i q Hq. cbn [fst].
    rewrite lookup_drop in Hq. apply (Hge (S j + i)%nat q); [lia | done].
Qed.

End Scan.

(** C6.  When all the [k] instances of an image have the same
    ground-truth box, the duplicate-box weight is [k] at the row whose
    proposal has the highest computed IoU against that box, the first
    one if several rows reach it, and 1 at every other row. *)
Theorem duplicate_box_weight (legacy : bool) (img : list Instance) (g : Box)
  (j : nat) :
  img <> [] ->
  no_nan g ->
  Forall (fun inst => gt_box inst = g) img ->
  best_row legacy g (proposal_boxes img) j ->
  img_roi_penalty legacy img =
    <[j := [[Z.of_nat (length img)]]]> (replicate (length img) [[1%Z]]).
Proof.
  intros Hne Hg Hsame Hbest. unfold img_roi_penalty; cbv zeta.
  rewrite (gt_boxes_same _ _ Hsame).
  destruct img as [|inst img]; [done|].
  cbn [length]. rewrite (np_unique_same _ _ Hg). cbn [foldl].
  unfold roi_step. cbn [fst snd].
  by rewrite (best_box_best_row _ _ _ _ Hbest).
Qed.

End Float32Facts.


Section OverlapFacts.
Import Geometry Tensor Instances Overlap OverlapSpec.

Variable crop_and_resize :
  list PolygonMask -> list Box -> nat -> tensor3 bool.

Lemma object_steps img M st l :
  length (snd st) = length (fst st) ->
  fst (foldl (object_step crop_and_resize img M) st l) =
    foldl distinct_step (fst st) l /\
  length (snd (foldl (object_step crop_and_resize img M) st l)) =
    length (foldl distinct_step (fst st) l).
Proof.
  revert st. induction l as [|x l IH]; intros st Hlen; simpl; [done|].
  unfold object_step at 2 4. unfold distinct_step at 2 4.
  destruct (existsb (polygon_eqb (poly0 x)) (fst st)); [by apply IH|].
  cbv zeta. apply IH. cbn [fst snd]. rewrite !length_app. simpl. lia.
Qed.

Lemma img_masks_length img M :
  length (img_masks crop_and_resize img M) = length (distinct_objects img).
Proof.
  unfold img_masks, distinct_objects.
  by destruct (object_steps img M ([], []) (gt_masks img) eq_refl) as [_ ->].
Qed.

Lemma overlap_weights_zeros {A} (t : tensor3 A) :
  overlap_weights (zeros_like t) = t3_map (fun _ => 1%R) t.
Proof.
  unfold overlap_weights, zeros_like, t3_map, grid_map.
  rewrite <- list_fmap_compose. apply list_fmap_ext. intros _ g _. simpl.
  rewrite <- list_fmap_compose. apply list_fmap_ext. intros _ r _. simpl.
  rewrite <- list_fmap_compose. apply list_fmap_ext. intros _ x _. simpl.
  apply quad_0.
Qed.

(** C4, amended.  For an image with at most one distinct ground-truth
    object, the raw overlap raster is 0 at every pixel and the overlap
    weight, its image under [quad], is 1 at every pixel. *)
Theorem single_object_overlap (img : Instances) (mask_side_len : nat)
  (gt_masks_per_image : tensor3 bool) :
  (length (distinct_objects img) <= 1)%nat ->
  per_ins_overlap_masks crop_and_resize img mask_side_len gt_masks_per_image =
    zeros_like gt_masks_per_image /\
  overlap_weights
    (per_ins_overlap_masks crop_and_resize img mask_side_len
       gt_masks_per_image) =
    t3_map (fun _ => 1%R) gt_masks_per_image.
Proof.
  intros H.
  assert (E : per_ins_overlap_masks crop_and_resize img mask_side_len
                gt_masks_per_image = zeros_like gt_masks_per_image).
  { unfold per_ins_overlap_masks; cbv zeta. rewrite img_masks_length.
    rewrite bool_decide_eq_false_2 by lia. reflexivity. }
  split; [exact E|]. rewrite E. apply overlap_weights_zeros.
Qed.

End OverlapFacts.


Section ShapeFacts.
Import Geometry Tensor Instances MaskLoss LossSpec.



Lemma Forall_zip_with_both {A B C} (f : A -> B -> C)
  (P : A -> Prop) (Q : B -> Prop) (S : C -> Prop) l k :
  (forall a b, P a -> Q b -> S (f a b)) ->
  Forall P l -> Forall Q k -> Forall S (zip_with f l k).
Proof.
  intros Hf Hl. revert k. induction Hl as [|a l Ha _ IH]; intros k Hk; [done|].
  destruct Hk as [|b k Hb Hk]; simpl; [done|].
  constructor; [by apply Hf | by apply IH].
Qed.

Lemma grid_shape_zip {A B C} (f : A -> B -> C) h w (g : grid A) (g' : grid B) :
  grid_shape h w g -> grid_shape h w g' -> grid_shape h w (grid_zip f g g').
Proof.
  intros [Hl Hr] [Hl' Hr']. split; unfold grid_zip.
  - rewrite length_zip_with. lia.
  - eapply Forall_zip_with_both; [|exact Hr|exact Hr'].
    intros a b Ha Hb. simpl in *. rewrite length_zip_with. lia.
Qed.

Lemma shape3_zip {A B C} (f : A -> B -> C) n h w
  (t : tensor3 A) (u : tensor3 B) :
  shape3 n h w t -> shape3 n h w u -> shape3 n h w (t3_zip f t u).
Proof.
  intros [Hl Hg] [Hl' Hg']. split; unfold t3_zip.
  - rewrite length_zip_with. lia.
  - eapply Forall_zip_with_both; [|exact Hg|exact Hg'].
    intros a b Ha Hb. by apply grid_shape_zip.
Qed.




Lemma length_concat_map {A B} (f : list A -> list B) (ls : list (list A)) :
  (forall l, length (f l) = length l) ->
  length (concat (map f ls)) = length (concat ls).
Proof.
  intros Hf. induction ls as [|l ls IH]; simpl; [done|].
  by rewrite !length_app, Hf, IH.
Qed.

Lemma length_concat_foreground (insts : list Instances) :
  length (concat (foreground insts)) = length (concat insts).
Proof.
  induction insts as [|img insts IH]; [done|].
  unfold foreground in *. destruct (decide (length img = 0%nat)) as [E | E].
  - rewrite filter_cons_False by lia. rewrite IH.
    cbn [concat]. rewrite length_app. lia.
  - rewrite filter_cons_True by done. cbn [concat].
    by rewrite !length_app, IH.
Qed.




Lemma combinations2_nonempty {A} (l : list A) :
  (1 < length l)%nat -> Overlap.combinations2 l <> [].
Proof. destruct l as [|x [|y l]]; simpl; try lia. done. Qed.





Lemma expand_like_same {A B} (l : list A) (ref : list B) :
  length l = length ref -> expand_like l ref = Ok l.
Proof. intros E. unfold expand_like. by rewrite bool_decide_eq_true_2. Qed.


Lemma mapM2_ok {A B C} (f : A -> B -> result C)
  (PA : A -> Prop) (PB : B -> Prop) (PC : C -> Prop) l k :
  (forall a b, PA a -> PB b -> exists c, f a b = Ok c /\ PC c) ->
  Forall PA l -> Forall PB k -> length l = length k ->
  exists cs, mapM2 f l k = Ok cs /\ Forall PC cs /\ length cs = length l.
Proof.
  intros Hf Hl. revert k. induction Hl as [|a l Ha _ IH]; intros k Hk Hlen.
  - exists []. by destruct k.
  - destruct Hk as [|b k Hb Hk]; simpl in Hlen; [lia|].
    destruct (Hf a b Ha Hb) as (c & Ec & Pc).
    destruct (IH k Hk ltac:(lia)) as (cs & Ecs & Pcs & Lcs).
    exists (c :: cs). simpl. rewrite Ec. simpl. rewrite Ecs. simpl.
    repeat split; [by constructor | lia].
Qed.





Lemma concat_foreground (insts : list Instances) :
  concat (foreground insts) = concat insts.
Proof.
  induction insts as [|img insts IH]; [done|].
  unfold foreground in *. destruct (decide (length img = 0%nat)) as [E | E].
  - rewrite filter_cons_False by lia. rewrite IH.
    destruct img; [done | simpl in E; lia].
  - rewrite filter_cons_True by done. cbn [concat]. by rewrite IH.
Qed.




Lemma zip_with_fuse {A B C A' B' C' AB AB' D : Type}
  (m0 : A -> A') (m1 : B -> B') (m2 : C -> C')
  (p : A' -> B' -> AB') (q : AB' -> C' -> D)
  (pr : A -> B -> AB) (F : AB -> C -> D) :
  (forall a b c, q (p (m0 a) (m1 b)) (m2 c) = F (pr a b) c) ->
  forall l0 l1 l2,
    zip_with q (zip_with p (map m0 l0) (map m1 l1)) (map m2 l2) =
    zip_with F (zip_with pr l0 l1) l2.
Proof.
  intros H. induction l0 as [|a l0 IH]; intros [|b l1] [|c l2]; simpl;
    try done.
  by rewrite H, IH.
Qed.

Lemma weighted_mask_loss_pointwise log_vars (L0 L1 L2 : tensor3 R) :
  weighted_mask_loss log_vars L0 L1 L2 =
  pointwise3
    (fun l0 l1 l2 =>
       (exp (- lv0 log_vars) * l0 + lv0 log_vars +
        exp (- lv1 log_vars) * l1 + lv1 log_vars +
        exp (- lv2 log_vars) * l2 + lv2 log_vars)%R) L0 L1 L2.
Proof.
  unfold weighted_mask_loss, pointwise3, t3_zip, t3_map, grid_zip, grid_map;
    cbv zeta.
  rewrite !map_map.
  apply zip_with_fuse. intros g0 g1 g2. rewrite !map_map.
  apply zip_with_fuse. intros r0 r1 r2. rewrite !map_map.
  apply zip_with_fuse. intros a b c. simpl. ring.
Qed.

Lemma t3_get_zip {A B C} (f : A -> B -> C) (t : tensor3 A) (u : tensor3 B)
  r i j :
  t3_get (t3_zip f t u) r i j =
  x ← t3_get t r i j; y ← t3_get u r i j; Some (f x y).
Proof.
  unfold t3_get, t3_zip. rewrite lookup_zip_with.
  destruct (t !! r) as [g|]; simpl; [|done].
  destruct (u !! r) as [h|]; simpl.
  - apply grid_get_zip.
  - by destruct (grid_get g i j).
Qed.

Lemma t3_get_shape {A} n h w (t : tensor3 A) r i j :
  shape3 n h w t -> (r < n)%nat -> (i < h)%nat -> (j < w)%nat ->
  is_Some (t3_get t r i j).
Proof.
  intros [Hl Hg] Hr Hi Hj. unfold t3_get, grid_get.
  destruct (t !! r) as [g|] eqn:Eg.
  2:{ apply lookup_ge_None in Eg. lia. }
  destruct (Forall_lookup_1 _ _ _ _ Hg Eg) as [Hgl Hrows].
  destruct (g !! i) as [row|] eqn:Er.
  2:{ apply lookup_ge_None in Er. lia. }
  pose proof (Forall_lookup_1 _ _ _ _ Hrows Er) as Hw. simpl in Hw.
  apply lookup_lt_is_Some. lia.
Qed.

Lemma length_concat_grid {A} h w (g : grid A) :
  grid_shape h w g -> length (concat g) = (h * w)%nat.
Proof.
  intros [Hl Hr]. subst h. induction Hr as [|r g Hw _ IH]; simpl; [done|].
  rewrite length_app, IH. lia.
Qed.

Lemma length_flatten {A} n h w (t : tensor3 A) :
  shape3 n h w t -> length (t3_flatten t) = (n * h * w)%nat.
Proof.
  unfold t3_flatten. intros [Hl Hg]. subst n.
  induction Hg as [|g t Hs _ IH]; simpl; [done|].
  rewrite concat_app, length_app, IH, (length_concat_grid _ _ _ Hs). lia.
Qed.








End ShapeFacts.

Section LossFacts.
Import Geometry Tensor Instances MaskLoss LossSpec.

Variable crop_and_resize :
  list PolygonMask -> list Box -> nat -> tensor3 bool.
Variable draw_contours : nat -> grid bool -> grid bool.

Local Abbreviation loop := (loop_body crop_and_resize draw_contours).

Lemma loop_skips_empty ag M st insts :
  Forall (fun img : Instances => length img = 0%nat) insts ->
  foldl (loop ag M) st insts = st.
Proof.
  induction 1 as [|img insts E _ IH]; simpl; [done|].
  unfold loop_body at 2. by rewrite bool_decide_eq_true_2.
Qed.

(** C2 fails on the code.  When no image has a foreground instance the
    weight containers stay empty and [torch.stack] raises before the
    test of [len(gt_masks) == 0] is reached: no loss is returned. *)
Theorem empty_batch_raises (log_vars : LogVars) (pred_mask_logits : Logits)
  (instances : list Instances) :
  Forall (fun img : Instances => length img = 0%nat) instances ->
  mask_rcnn_loss crop_and_resize draw_contours log_vars pred_mask_logits
    instances =
  Raise (if bool_decide (size2 pred_mask_logits = size3 pred_mask_logits)
         then RuntimeError else AssertionError).
Proof.
  intros H. unfold mask_rcnn_loss; cbv zeta.
  destruct (bool_decide (size2 pred_mask_logits = size3 pred_mask_logits));
    simpl; [|done].
  by rewrite (loop_skips_empty _ _ _ _ H).
Qed.

Local Abbreviation masks_of M := (gt_masks_of crop_and_resize M).

Lemma foreground_cons_empty (img : Instances) insts :
  length img = 0%nat -> foreground (img :: insts) = foreground insts.
Proof. intros E. unfold foreground. by rewrite filter_cons_False by lia. Qed.

Lemma foreground_cons (img : Instances) insts :
  length img <> 0%nat -> foreground (img :: insts) = img :: foreground insts.
Proof. intros E. unfold foreground. by rewrite filter_cons_True. Qed.

(** The containers after the loop over the images. *)
Lemma loop_containers ag M st insts :
  foldl (loop ag M) st insts =
  let fg := foreground insts in
  mkContainers
    (c_gt_classes st ++ (if negb ag then map gt_classes fg else []))
    (c_gt_masks st ++ map (masks_of M) fg)
    (c_boundary_penalty st ++
       map (fun m => Boundary.bound_pixels (draw_contours M m))
         (concat (map (masks_of M) fg)))
    (c_roi_penalty st ++ map RoiPenalty.img_roi_penalty fg)
    (c_overlap_penalty st ++
       map (fun img => Overlap.per_ins_overlap_masks crop_and_resize img M
                         (masks_of M img)) fg).
Proof.
  revert st. induction insts as [|img insts IH]; intros st; cbv zeta.
  - simpl. destruct st, ag; simpl; by rewrite !app_nil_r.
  - simpl foldl. rewrite IH. cbv zeta. unfold loop_body at 1 2 3 4 5.
    destruct (decide (length img = 0%nat)) as [E | E].
    + rewrite bool_decide_eq_true_2 by done.
      by rewrite (foreground_cons_empty _ _ E).
    + rewrite bool_decide_eq_false_2 by done.
      rewrite (foreground_cons _ _ E). cbv zeta. cbn [c_gt_classes c_gt_masks
        c_boundary_penalty c_roi_penalty c_overlap_penalty map concat].
      rewrite map_app, <- !app_assoc. destruct ag; simpl; try done.
      by rewrite <- app_assoc.
Qed.

Lemma masks_of_shape M (img : Instances) :
  rasterizer_ok crop_and_resize ->
  shape3 (length img) M M (masks_of M img).
Proof.
  intros Hr. unfold gt_masks_of.
  pose proof (Hr (gt_masks img) (proposal_boxes img) M) as H.
  unfold gt_masks, proposal_boxes in *. rewrite !length_map in H. by apply H.
Qed.


Lemma bind_Ok {A B} (a : A) (k : A -> result B) : (Ok a ≫= k) = k a.
Proof. reflexivity. Qed.

Lemma torch_stack_ok {A} (l : list (grid A)) :
  l <> [] -> torch_stack l = Ok l.
Proof. by destruct l. Qed.

Lemma torch_cat_ok {A} (l : list (tensor3 A)) :
  l <> [] -> torch_cat l = Ok (concat l).
Proof. by destruct l. Qed.




End LossFacts.


Section InferenceFacts.
Import Tensor MaskLoss MaskInference InferenceSpec.

Lemma chunks_length {A} (t : list A) sizes :
  length (chunks t sizes) = length sizes.
Proof.
  revert t. induction sizes as [|n sizes IH]; intros t; simpl; [done|].
  by rewrite IH.
Qed.

Lemma chunks_lookup {A} (t : list A) sizes k n :
  sizes !! k = Some n ->
  chunks t sizes !! k = Some (take n (drop (sum_list (take k sizes)) t)).
Proof.
  revert t k. induction sizes as [|n0 sizes IH]; intros t k H; [done|].
  destruct k as [|k]; simpl in *.
  - by injection H as ->.
  - rewrite (IH _ _ H). by rewrite drop_drop.
Qed.

Lemma chunk_row {A} (t : list A) n o r :
  (r < n)%nat -> take n (drop o t) !! r = t !! (o + r)%nat.
Proof. intros H. rewrite lookup_take_lt by done. by rewrite lookup_drop. Qed.

Lemma sum_list_take_le (sizes : list nat) k n :
  sizes !! k = Some n -> (sum_list (take k sizes) + n <= sum_list sizes)%nat.
Proof.
  revert k. induction sizes as [|n0 sizes IH]; intros k H; [done|].
  destruct k as [|k]; simpl in *.
  - injection H as ->. lia.
  - apply IH in H. lia.
Qed.

Lemma concat_lookup_offset {A} (ls : list (list A)) k l r :
  ls !! k = Some l -> (r < length l)%nat ->
  concat ls !! (length (concat (take k ls)) + r)%nat = l !! r.
Proof.
  revert k. induction ls as [|l0 ls IH]; intros k H Hr; [done|].
  destruct k as [|k]; simpl in *.
  - injection H as ->. by rewrite lookup_app_l.
  - rewrite length_app, <- Nat.add_assoc, lookup_app_r by lia.
    replace (length l0 + (length (concat (take k ls)) + r) - length l0)%nat
      with (length (concat (take k ls)) + r)%nat by lia.
    by apply IH.
Qed.

Lemma mapM_ok {A B} (f : A -> result B) (P : A -> B -> Prop) (l : list A) :
  Forall (fun a => exists b, f a = Ok b /\ P a b) l ->
  exists bs, mapM f l = Ok bs /\ Forall2 P l bs.
Proof.
  induction 1 as [|a l (b & E & Pb) _ (bs & Ebs & Pbs)].
  - exists []. by split.
  - exists (b :: bs). simpl. rewrite E. simpl. rewrite Ebs. simpl.
    split; [done | by constructor].
Qed.

Lemma mapM2_lookup {A B C} (f : A -> B -> result C) l k cs i a b :
  Tensor.mapM2 f l k = Ok cs -> l !! i = Some a -> k !! i = Some b ->
  exists c, cs !! i = Some c /\ f a b = Ok c.
Proof.
  revert k cs i. induction l as [|a0 l IH]; intros k cs i H Ha Hb; [done|].
  destruct k as [|b0 k]; [done|]. simpl in H.
  destruct (f a0 b0) as [c0|] eqn:E0; [|done]. simpl in H.
  destruct (Tensor.mapM2 f l k) as [cs0|] eqn:E1; [|done]. simpl in H.
  injection H as <-. destruct i as [|i]; simpl in *.
  - injection Ha as <-. injection Hb as <-. eauto.
  - by eapply IH.
Qed.

Lemma offset_bound insts k (inst : Instances) :
  insts !! k = Some inst ->
  (offset insts k + len inst <= sum_list (map len insts))%nat.
Proof.
  intros H. unfold offset. rewrite <- firstn_map.
  apply sum_list_take_le. by rewrite list_lookup_fmap, H.
Qed.

Lemma classes_offset insts vs k :
  Forall2 (fun (i : Instances) (v : list nat) => length v = len i) insts vs ->
  length (concat (take k vs)) = offset insts k.
Proof.
  unfold offset. intros H. revert k.
  induction H as [|i v insts vs E _ IH]; intros [|k]; simpl; try done.
  by rewrite length_app, E, IH.
Qed.

(** The soft masks of all the instances, before the split by image. *)
Lemma mask_probs_ok logits insts :
  well_formed logits insts ->
  exists probs : list (tensor3 R),
    (if bool_decide (size1 logits = 1%nat)
     then Ok (map (map (grid_map sigmoid)) (data logits))
     else
       classes ← mapM pred_classes insts;
       class_pred ← cat classes;
       selected ← select_channels (data logits) class_pred;
       Ok (map (fun g => [grid_map sigmoid g]) selected)) = Ok probs /\
    length probs = length (data logits) /\
    forall k inst r, insts !! k = Some inst -> (r < len inst)%nat ->
      exists row c g,
        data logits !! (offset insts k + r)%nat = Some row /\
        channel_of logits inst r c /\ row !! c = Some g /\
        probs !! (offset insts k + r)%nat = Some [grid_map sigmoid g].
Proof.
  intros (Hlen & Hrows & Hcls). unfold channel_of.
  case_bool_decide as Hag.
  - eexists. split; [reflexivity|]. split; [by rewrite length_map|].
    intros k inst r Hk Hr. pose proof (offset_bound _ _ _ Hk) as Hb.
    destruct (data logits !! (offset insts k + r)%nat) as [row|] eqn:E.
    2:{ apply lookup_ge_None in E. lia. }
    pose proof (Forall_lookup_1 _ _ _ _ Hrows E) as Hrow. simpl in Hrow.
    destruct row as [|g [|? ?]]; simpl in Hrow; try lia.
    exists [g], 0%nat, g. repeat split; try done.
    by rewrite list_lookup_fmap, E.
  - destruct (Hcls Hag) as [Hne Hall].
    destruct (mapM_ok pred_classes
                (fun i v => fields i !! "pred_classes" = Some (IntField v) /\
                   length v = len i /\
                   Forall (fun c => (c < size1 logits)%nat) v) insts)
      as (vs & Evs & Hvs).
    { eapply Forall_impl; [exact Hall|]. intros i (v & Hf & Hl & Hc).
      exists v. split; [|done]. unfold pred_classes. by rewrite Hf. }
    rewrite Evs, bind_Ok.
    assert (Hvl : Forall2 (fun (i : Instances) (v : list nat) =>
                             length v = len i) insts vs).
    { eapply Forall2_impl; [exact Hvs|]. by intros i v (_ & ? & _). }
    assert (Hcat : cat vs = Ok (concat vs)).
    { destruct Hvs; [done | reflexivity]. }
    rewrite Hcat, bind_Ok.
    assert (Hcl : length (concat vs) = length (data logits)).
    { rewrite Hlen. clear -Hvl. induction Hvl as [|i v insts vs E _ IH];
        simpl; [done|]. by rewrite length_app, E, IH. }
    unfold select_channels. rewrite expand_like_same by done.
    destruct (mapM2_ok pick (fun row => length row = size1 logits)
                (fun c => (c < size1 logits)%nat) (fun _ => True)
                (data logits) (concat vs)) as (sel & Esel & _ & Lsel);
      try done.
    { intros row c Hrow Hc. unfold pick.
      destruct (row !! c) as [g|] eqn:E; [by exists g|].
      apply lookup_ge_None in E. lia. }
    { clear -Hvs. induction Hvs as [|i v insts vs (_ & _ & Hc) _ IH];
        simpl; [done|]. by apply Forall_app. }
    rewrite Esel, bind_Ok. eexists. split; [reflexivity|].
    split; [by rewrite length_map|].
    intros k inst r Hk Hr. pose proof (offset_bound _ _ _ Hk) as Hb.
    destruct (Forall2_lookup_l _ _ _ _ _ Hvs Hk) as (v & Hv & Hf & Hl & _).
    destruct (data logits !! (offset insts k + r)%nat) as [row|] eqn:E.
    2:{ apply lookup_ge_None in E. lia. }
    assert (Ec : concat vs !! (offset insts k + r)%nat = v !! r).
    { rewrite <- (classes_offset _ _ _ Hvl).
      apply concat_lookup_offset; [done | lia]. }
    destruct (v !! r) as [c|] eqn:Er.
    2:{ apply lookup_ge_None in Er. lia. }
    destruct (mapM2_lookup _ _ _ _ _ _ _ Esel E Ec) as (g & Hg & Hp).
    unfold pick in Hp. destruct (row !! c) as [g'|] eqn:Eg; [|done].
    injection Hp as ->.
    exists row, c, g. repeat split; try done.
    + by exists v.
    + by rewrite list_lookup_fmap, Hg.
Qed.

Lemma mask_rcnn_inference_frame (pred_mask_logits : Logits)
  (pred_instances : list Instances) :
  well_formed pred_mask_logits pred_instances ->
  exists out,
    mask_rcnn_inference pred_mask_logits pred_instances = Ok out /\
    length out = length pred_instances /\
    forall k inst, pred_instances !! k = Some inst ->
      exists inst' prob,
        out !! k = Some inst' /\
        len inst' = len inst /\
        (forall name, name <> "pred_masks" ->
           fields inst' !! name = fields inst !! name) /\
        (fields inst !! "pred_masks" = None -> fields inst ⊆ fields inst') /\
        fields inst' !! "pred_masks" = Some (MaskField prob) /\
        length prob = len inst /\
        forall r, (r < len inst)%nat ->
          exists row c g,
            data pred_mask_logits !!
              (offset pred_instances k + r)%nat = Some row /\
            channel_of pred_mask_logits inst r c /\
            row !! c = Some g /\
            prob !! r = Some [grid_map sigmoid g].
Proof.
  intros Hwf. destruct (mask_probs_ok _ _ Hwf) as (probs & Ep & Lp & Hp).
  destruct Hwf as (Hlen & _ & _).
  unfold mask_rcnn_inference; cbv zeta. rewrite Ep, bind_Ok.
  unfold split. rewrite bool_decide_eq_true_2 by lia. rewrite bind_Ok.
  eexists. split; [reflexivity|]. split.
  - rewrite length_zip_with, chunks_length, length_map. lia.
  - intros k inst Hk. pose proof (offset_bound _ _ _ Hk) as Hb.
    set (prob := take (len inst) (drop (offset pred_instances k) probs)).
    exists (set "pred_masks" (MaskField prob) inst), prob.
    split; [|split; [|split; [|split; [|split; [|split]]]]].
    + rewrite lookup_zip_with, Hk.
      rewrite (chunks_lookup _ _ k (len inst))
        by (by rewrite list_lookup_fmap, Hk).
      unfold prob, offset. by rewrite firstn_map.
    + reflexivity.
    + intros name Hn. unfold set; cbn [fields].
      by rewrite lookup_insert_ne.
    + intros Hnew. unfold set; cbn [fields]. by apply insert_subseteq.
    + unfold set; cbn [fields]. by rewrite lookup_insert_eq.
    + unfold prob. rewrite length_take, length_drop. lia.
    + intros r Hr.
      destruct (Hp k inst r Hk Hr) as (row & c & g & ? & ? & ? & ?).
      exists row, c, g. repeat split; try done.
      unfold prob. by rewrite chunk_row.
Qed.

(** C9.  In inference mode the head returns the same number of records;
    each record keeps its length and every field other than
    [pred_masks], and gets as [pred_masks] one single-channel mask per
    instance: the values [1 / (1 + exp (- v))] of the logits [v] of that
    instance at channel 0 in the class-agnostic case, at the predicted
    class otherwise. *)
Theorem inference_attaches_masks (Features : Type)
  (layers : Features -> Logits) (log_vars : LogVars)
  (crop_and_resize :
     list Instances.PolygonMask -> list Geometry.Box -> nat -> tensor3 bool)
  (draw_contours : nat -> grid bool -> grid bool)
  (x : Features) (pred_instances : list Instances) :
  well_formed (layers x) pred_instances ->
  exists out,
    MaskHead.forward Features layers log_vars crop_and_resize draw_contours
      MaskHead.INFER x pred_instances = Ok out /\
    length out = length pred_instances /\
    forall k inst, pred_instances !! k = Some inst ->
      exists inst' prob,
        out !! k = Some inst' /\
        len inst' = len inst /\
        (forall name, name <> "pred_masks" ->
           fields inst' !! name = fields inst !! name) /\
        (fields inst !! "pred_masks" = None -> fields inst ⊆ fields inst') /\
        fields inst' !! "pred_masks" = Some (MaskField prob) /\
        length prob = len inst /\
        forall r, (r < len inst)%nat ->
          exists row c g,
            data (layers x) !! (offset pred_instances k + r)%nat = Some row /\
            channel_of (layers x) inst r c /\
            row !! c = Some g /\
            prob !! r =
              Some [map (map (fun v : R => (1 / (1 + exp (- v)))%R)) g].
Proof.
  intros Hwf. unfold MaskHead.forward; cbv zeta.
  exact (mask_rcnn_inference_frame _ _ Hwf).
Qed.

End InferenceFacts.

(** ** Further properties of the code *)

(** ** Range and extremal values of the IoU *)

Section GeometryMore.
Import Geometry GeometrySpec.
Local Open Scope Q_scope.

Lemma interArea_pos_extents a b :
  0 < interArea a b ->
  0 < Qmin (bx2 a) (bx2 b) - Qmax (bx1 a) (bx1 b) /\
  0 < Qmin (by2 a) (by2 b) - Qmax (by1 a) (by1 b).
Proof.
  intros H.
  destruct (Qlt_le_dec 0 (Qmin (bx2 a) (bx2 b) - Qmax (bx1 a) (bx1 b)))
    as [Hx | Hx].
  - destruct (Qlt_le_dec 0 (Qmin (by2 a) (by2 b) - Qmax (by1 a) (by1 b)))
      as [Hy | Hy]; [done|].
    rewrite (interArea_zero_y _ _ Hy) in H. Lqa.lra.
  - rewrite (interArea_zero_x _ _ Hx) in H. Lqa.lra.
Qed.

Lemma iou_pos_interArea a b :
  0 < bb_intersection_over_union a b <-> 0 < interArea a b.
Proof.
  unfold bb_intersection_over_union; cbv zeta.
  pose proof (interArea_nonneg a b) as Hn.
  pose proof (interArea_le_boxArea a b) as Ha.
  pose proof (interArea_le_boxArea b a) as Hb.
  rewrite (interArea_comm b a) in Hb.
  destruct (Qeq_bool (interArea a b) 0) eqn:E.
  - apply Qeq_bool_iff in E. split; intros H; Lqa.lra.
  - assert (Hp : 0 < interArea a b).
    { destruct (Qlt_le_dec 0 (interArea a b)) as [|L]; [assumption|].
      assert (Z0 : interArea a b == 0) by Lqa.lra.
      apply Qeq_bool_iff in Z0. congruence. }
    split; [done|]. intros _. apply Qlt_shift_div_l; Lqa.lra.
Qed.

(** X1.  The value of [bb_intersection_over_union] lies between 0 and 1,
    for every pair of corner tuples, ordered or not. *)
Theorem iou_unit_interval (a b : Box) :
  0 <= bb_intersection_over_union a b /\ bb_intersection_over_union a b <= 1.
Proof.
  split; [apply iou_nonneg|].
  unfold bb_intersection_over_union; cbv zeta.
  pose proof (interArea_nonneg a b) as Hn.
  pose proof (interArea_le_boxArea a b) as Ha.
  pose proof (interArea_le_boxArea b a) as Hb.
  rewrite (interArea_comm b a) in Hb.
  destruct (Qeq_bool (interArea a b) 0) eqn:E; [Lqa.lra|].
  assert (Hp : 0 < interArea a b).
  { destruct (Qlt_le_dec 0 (interArea a b)) as [|L]; [assumption|].
    assert (Z0 : interArea a b == 0) by Lqa.lra.
    apply Qeq_bool_iff in Z0. congruence. }
  apply Qle_shift_div_r; Lqa.lra.
Qed.

Lemma extent_pos_iff a1 a2 b1 b2 :
  Qmax a1 b1 < Qmin a2 b2 <-> a1 < a2 /\ b1 < b2 /\ a1 < b2 /\ b1 < a2.
Proof.
  rewrite Q.max_lub_lt_iff, !Q.min_glb_lt_iff. tauto.
Qed.

(** X2.  [bb_intersection_over_union] is positive exactly when both
    boxes have a positive extent along each axis and each begins before
    the other one ends; it is 0 for boxes that only touch and for a box
    with a reversed or empty axis. *)
Theorem iou_positive_iff_overlap (a b : Box) :
  0 < bb_intersection_over_union a b <-> overlapping a b.
Proof.
  unfold overlapping. rewrite <- !extent_pos_iff.
  rewrite iou_pos_interArea. split.
  - intros H. apply interArea_pos_extents in H as [Hx Hy]. split; Lqa.lra.
  - intros [Hx Hy]. rewrite interArea_product.
    rewrite !clamp_pos by Lqa.lra.
    apply Qmult_lt_0_compat; Lqa.lra.
Qed.

End GeometryMore.

(** ** The table of unique boxes and the duplicate-box weight *)

Section RoiMore.
Import Geometry Tensor RoiPenalty UniqueSpec.

Lemma count_row_total b t : total (count_row b t) = (total t + 1)%Z.
Proof.
  unfold total, counts. induction t as [|[b' c] t IH]; simpl; [lia|].
  destruct (box_compare b b'); simpl; lia.
Qed.

Lemma count_row_positive b t :
  Forall (fun c => (1 <= c)%Z) (counts t) ->
  Forall (fun c => (1 <= c)%Z) (counts (count_row b t)).
Proof.
  unfold counts. induction t as [|[b' c] t IH]; simpl; intros H.
  - by repeat constructor.
  - apply Forall_cons in H as [Hc Ht].
    destruct (box_compare b b'); simpl.
    + constructor; [lia | done].
    + constructor; [lia|]. by constructor.
    + constructor; [done | by apply IH].
Qed.

Lemma np_unique_snoc rows b :
  np_unique (rows ++ [b]) = count_row b (np_unique rows).
Proof. unfold np_unique. by rewrite foldl_app. Qed.

Lemma np_unique_count_bounds (rows : list Box) :
  total (np_unique rows) = Z.of_nat (length rows) /\
  Forall (fun c => (1 <= c <= Z.of_nat (length rows))%Z)
    (counts (np_unique rows)).
Proof.
  assert (H : total (np_unique rows) = Z.of_nat (length rows) /\
              Forall (fun c => (1 <= c)%Z) (counts (np_unique rows))).
  { induction rows as [|b rows [IH1 IH2]] using rev_ind; [by split|].
    rewrite np_unique_snoc, length_app. simpl. split.
    - rewrite count_row_total, IH1. lia.
    - by apply count_row_positive. }
  destruct H as [Ht Hp]. split; [done|].
  rewrite <- Ht. clear Ht. unfold total.
  induction Hp as [|c cs Hc Hcs IH]; simpl; [done|].
  assert (Hs : (0 <= foldr Z.add 0 cs)%Z).
  { clear -Hcs. induction Hcs; simpl; lia. }
  constructor; [lia|]. eapply Forall_impl; [exact IH|]. simpl. lia.
Qed.

Lemma Qcompare_Gt_Lt x y : (x ?= y)%Q = Gt -> (y ?= x)%Q = Lt.
Proof. intros H. rewrite <- Qcompare_antisym, H. reflexivity. Qed.

Lemma Qcompare_Eq_sym x y : (x ?= y)%Q = Eq -> (y ?= x)%Q = Eq.
Proof. intros H. rewrite <- Qcompare_antisym, H. reflexivity. Qed.

Lemma box_compare_Gt_Lt a b : box_compare a b = Gt -> box_compare b a = Lt.
Proof.
  unfold box_compare.
  destruct (bx1 a ?= bx1 b)%Q eqn:E1; try discriminate.
  2:{ intros _. by rewrite (Qcompare_Gt_Lt _ _ E1). }
  rewrite (Qcompare_Eq_sym _ _ E1).
  destruct (by1 a ?= by1 b)%Q eqn:E2; try discriminate.
  2:{ intros _. by rewrite (Qcompare_Gt_Lt _ _ E2). }
  rewrite (Qcompare_Eq_sym _ _ E2).
  destruct (bx2 a ?= bx2 b)%Q eqn:E3; try discriminate.
  2:{ intros _. by rewrite (Qcompare_Gt_Lt _ _ E3). }
  rewrite (Qcompare_Eq_sym _ _ E3).
  apply Qcompare_Gt_Lt.
Qed.

Lemma count_row_increasing b t : increasing t -> increasing (count_row b t).
Proof.
  unfold increasing. induction t as [|[b' c] t IH]; simpl; intros H.
  - by repeat constructor.
  - apply Sorted_inv in H as [Ht Hhd].
    destruct (box_compare b b') eqn:E.
    + constructor; [done|]. destruct Hhd as [|[b2 c2] t Hlt]; constructor.
      simpl in *. done.
    + constructor; [by constructor|]. by constructor.
    + constructor; [by apply IH|].
      destruct t as [|[b2 c2] t]; simpl.
      * constructor. simpl. by apply box_compare_Gt_Lt.
      * apply HdRel_inv in Hhd. simpl in Hhd.
        destruct (box_compare b b2); constructor; simpl; try done.
        by apply box_compare_Gt_Lt.
Qed.

Lemma count_row_keeps b t b0 :
  b0 ∈ map fst t -> b0 ∈ map fst (count_row b t).
Proof.
  induction t as [|[b' c] t IH]; simpl; intros H; [by apply elem_of_nil in H|].
  apply elem_of_cons in H as [-> | H].
  - destruct (box_compare b b'); simpl; rewrite ?elem_of_cons; auto.
  - destruct (box_compare b b'); simpl; rewrite ?elem_of_cons; auto.
Qed.

Lemma count_row_has b t :
  exists b0, b0 ∈ map fst (count_row b t) /\ box_compare b b0 = Eq.
Proof.
  induction t as [|[b' c] t (b0 & Hin & He)]; simpl.
  - exists b. split; [apply elem_of_cons; by left | apply box_compare_refl].
  - destruct (box_compare b b') eqn:E; simpl.
    + exists b'. split; [apply elem_of_cons; by left | done].
    + exists b. split; [apply elem_of_cons; by left | apply box_compare_refl].
    + exists b0. split; [apply elem_of_cons; by right | done].
Qed.

(** X4.  The table of [np.unique(..., axis=0)] is strictly increasing in
    the order of the rows, hence without repetition, and every input row
    has its coordinates in the table. *)
Theorem np_unique_increasing (rows : list Box) :
  increasing (np_unique rows) /\
  forall b, b ∈ rows ->
    exists b0, b0 ∈ map fst (np_unique rows) /\ box_compare b b0 = Eq.
Proof.
  induction rows as [|b rows [IH1 IH2]] using rev_ind.
  - split; [constructor|]. intros b H. by apply elem_of_nil in H.
  - rewrite np_unique_snoc. split; [by apply count_row_increasing|].
    intros b1 H. apply elem_of_app in H as [H | H].
    + destruct (IH2 _ H) as (b0 & Hin & He). exists b0.
      split; [by apply count_row_keeps | done].
    + apply list_elem_of_singleton in H as ->. apply count_row_has.
Qed.

(** X5.  The counts of [np.unique(..., return_counts=True)] add up to
    the number of rows, and each count lies between 1 and that number. *)
Theorem np_unique_counts_sum (rows : list Box) :
  total (np_unique rows) = Z.of_nat (length rows) /\
  Forall (fun c => (1 <= c <= Z.of_nat (length rows))%Z)
    (counts (np_unique rows)).
Proof. apply np_unique_count_bounds. Qed.

(** X7.  Every entry of the duplicate-box weight of an image is a single
    number between 1 and the number of instances of the image. *)
Theorem roi_penalty_bounds (img : Instances.Instances) (r : nat)
  (g : list (list Z)) :
  img_roi_penalty img !! r = Some g ->
  exists w, g = [[w]] /\ (1 <= w <= Z.of_nat (length img))%Z.
Proof.
  unfold img_roi_penalty; cbv zeta.
  destruct (np_unique_count_bounds (Instances.gt_boxes img)) as [_ Hc].
  unfold Instances.gt_boxes in Hc. rewrite length_map in Hc.
  unfold counts in Hc. apply Forall_map in Hc.
  fold (Instances.gt_boxes img) in Hc.
  set (n := length img) in *.
  assert (H0 : Forall (fun g => exists w, g = [[w]] /\
                                 (1 <= w <= Z.of_nat n)%Z)
                 (full n 1 1 1%Z)).
  { unfold full. destruct n as [|n]; [constructor|].
    apply Forall_replicate. exists 1%Z. split; [done | lia]. }
  revert H0. generalize (full n 1 1 1%Z).
  induction Hc as [|gc uniq Hgc _ IH]; intros pen Hpen; simpl.
  - intros H. by eapply (Forall_lookup_1 _ _ _ _ Hpen).
  - apply IH. unfold roi_step. apply Forall_insert; [done|].
    exists (snd gc). split; [done | exact Hgc].
Qed.

End RoiMore.

Section RoiDistinct.
Import Geometry Tensor RoiPenalty UniqueSpec.

Lemma count_row_keys b t b0 :
  b0 ∈ map fst (count_row b t) -> b0 = b \/ b0 ∈ map fst t.
Proof.
  induction t as [|[b' c] t IH]; simpl.
  - intros H. apply list_elem_of_singleton in H. by left.
  - destruct (box_compare b b'); simpl; rewrite ?elem_of_cons.
    + intros [-> | H]; auto.
    + intros [-> | [-> | H]]; auto.
    + intros [-> | H]; [auto|].
      destruct (IH H) as [-> | H']; auto.
Qed.

Lemma np_unique_keys rows b0 :
  b0 ∈ map fst (np_unique rows) -> b0 ∈ rows.
Proof.
  induction rows as [|b rows IH] using rev_ind.
  - intros H. by apply elem_of_nil in H.
  - unfold np_unique. rewrite foldl_app. simpl.
    fold (np_unique rows). intros H.
    apply count_row_keys in H as [-> | H]; apply elem_of_app.
    + right. by apply list_elem_of_singleton.
    + left. by apply IH.
Qed.

Lemma count_row_fresh b t :
  (forall b0, b0 ∈ map fst t -> box_compare b b0 <> Eq) ->
  Forall (fun gc => snd gc = 1%Z) t ->
  Forall (fun gc => snd gc = 1%Z) (count_row b t).
Proof.
  induction t as [|[b' c] t IH]; simpl; intros Hne Hone.
  - by repeat constructor.
  - apply Forall_cons in Hone as [Hc Ht].
    destruct (box_compare b b') eqn:E.
    + exfalso. apply (Hne b'); [apply elem_of_cons; by left | done].
    + constructor; [done|]. by constructor.
    + constructor; [done|]. apply IH; [|done].
      intros b0 H0. apply Hne. apply elem_of_cons. by right.
Qed.

Lemma np_unique_distinct rows :
  pairwise_distinct rows ->
  Forall (fun gc => snd gc = 1%Z) (np_unique rows).
Proof.
  induction rows as [|b rows IH] using rev_ind; intros Hd; [constructor|].
  unfold np_unique. rewrite foldl_app. simpl. fold (np_unique rows).
  apply count_row_fresh.
  - intros b0 H0. apply np_unique_keys, list_elem_of_lookup in H0 as [i Hi].
    apply (Hd i (length rows) b0 b).
    + by eapply lookup_lt_Some.
    + by apply lookup_app_l_Some.
    + by rewrite lookup_app_r, Nat.sub_diag.
  - apply IH. intros i j bi bj Hij Hi Hj.
    apply (Hd i j bi bj Hij); by apply lookup_app_l_Some.
Qed.

Lemma roi_step_one props n g :
  roi_step props (full n 1 1 1%Z) (g, 1%Z) = full n 1 1 1%Z.
Proof. unfold roi_step, full. cbn [fst snd replicate]. apply insert_replicate. Qed.

Lemma roi_steps_ones props n uniq :
  Forall (fun gc : Box * Z => snd gc = 1%Z) uniq ->
  foldl (roi_step props) (full n 1 1 1%Z) uniq = full n 1 1 1%Z.
Proof.
  induction 1 as [|[g c] uniq Hc _ IH]; [done|].
  simpl in Hc. subst c. cbn [foldl]. by rewrite roi_step_one.
Qed.

(** X8.  When no two instances of an image have the same ground-truth
    box, the duplicate-box weight of the image is 1 everywhere. *)
Theorem distinct_boxes_weight_one (img : Instances.Instances) :
  pairwise_distinct (Instances.gt_boxes img) ->
  img_roi_penalty img = full (length img) 1 1 1%Z.
Proof.
  intros Hd. unfold img_roi_penalty; cbv zeta.
  apply roi_steps_ones. by apply np_unique_distinct.
Qed.

End RoiDistinct.

Section Float32Order.
Import Tensor Float32 Float32Spec.

(** The comparison of two values other than NaN is the order of their
    keys. *)
Lemma SFltb_key x y :
  x <> S754_nan -> y <> S754_nan ->
  SFltb x y = true <-> key_lt (key x) (key y).
Proof.
  intros Hx Hy. unfold SFltb, key_lt.
  destruct x as [sx|sx| |sx mx ex], y as [sy|sy| |sy my ey]; try done;
    try destruct sx; try destruct sy; cbn [SFcompare key fst snd];
    try (split; [discriminate | lia]);
    try (split; [intros _; lia | done]).
  - change (Pos.compare_cont Eq mx my) with (mx ?= my)%positive.
    destruct (Z.compare_spec ex ey); destruct (Pos.compare_spec mx my);
      cbn [CompOpp]; split; try discriminate; try lia; done.
  - change (Pos.compare_cont Eq mx my) with (mx ?= my)%positive.
    destruct (Z.compare_spec ex ey); destruct (Pos.compare_spec mx my);
      cbn [CompOpp]; split; try discriminate; try lia; done.
Qed.

Lemma SFltb_not_nan x y :
  SFltb x y = true -> x <> S754_nan /\ y <> S754_nan.
Proof.
  unfold SFltb. destruct x, y; try done; simpl; try discriminate.
Qed.

Lemma SFltb_trans x y z :
  SFltb x y = true -> SFltb y z = true -> SFltb x z = true.
Proof.
  intros Hxy Hyz.
  destruct (SFltb_not_nan _ _ Hxy) as [Hx Hy].
  destruct (SFltb_not_nan _ _ Hyz) as [_ Hz].
  apply SFltb_key in Hxy; [|done..]. apply SFltb_key in Hyz; [|done..].
  apply SFltb_key; [done..|]. unfold key_lt in *. lia.
Qed.

(** [y <= x < z] gives [y < z]. *)
Lemma SFltb_le_lt x y z :
  y <> S754_nan -> SFltb x y = false -> SFltb x z = true ->
  SFltb y z = true.
Proof.
  intros Hy Hxy Hxz.
  destruct (SFltb_not_nan _ _ Hxz) as [Hx Hz].
  apply SFltb_key in Hxz; [|done..]. apply SFltb_key; [done..|].
  assert (N : ~ key_lt (key x) (key y)).
  { intros K. apply SFltb_key in K; [|done..]. congruence. }
  unfold key_lt in *. lia.
Qed.

Section Scanned.

Variable legacy : bool.
Variable g : Box.

Local Abbreviation iou := (bb_intersection_over_union legacy g).

(** What the loop has established after the rows of [l]. *)
Lemma scan_best_row l :
  Forall (fun q => iou q <> S754_nan) l ->
  let st := Float32Spec.scan legacy g (zero, 0%nat) 0 l in
  (st = (zero, 0%nat) /\
   forall i q, l !! i = Some q -> SFltb zero (iou q) = false) \/
  (exists p, l !! snd st = Some p /\ fst st = iou p /\
     SFltb zero (iou p) = true /\
     (forall i q, (i < snd st)%nat -> l !! i = Some q ->
        SFltb (iou q) (iou p) = true) /\
     (forall i q, (snd st < i)%nat -> l !! i = Some q ->
        SFltb (iou p) (iou q) = false)).
Proof.
  induction l as [|x l IH] using rev_ind; intros Hnan; cbv zeta.
  - left. split; [done|]. intros i q H. by rewrite lookup_nil in H.
  - apply Forall_app in Hnan as [Hl Hx]. apply Forall_cons in Hx as [Hx _].
    specialize (IH Hl). cbv zeta in IH.
    rewrite scan_app, scan_cons, scan_nil. cbn [Nat.add].
    set (st := Float32Spec.scan legacy g (zero, 0%nat) 0 l) in *.
    unfold best_step. cbn [fst snd].
    destruct (SFltb (fst st) (iou x)) eqn:T.
    + right. exists x. cbn [fst snd]. split; [|split; [done|split; [|split]]].
      * by rewrite lookup_app_r, Nat.sub_diag.
      * destruct IH as [[E _] | (p & _ & Ep & Hpos & _)].
        -- by rewrite E in T.
        -- rewrite Ep in T. by eapply SFltb_trans.
      * intros i q Hi Hq. rewrite lookup_app_l in Hq by done.
        destruct IH as [[E Hno] | (p & Hp & Ep & Hpos & Hlt & Hge)].
        -- rewrite E in T. cbn [fst] in T.
           eapply SFltb_le_lt; [|by eapply Hno|done].
           by eapply (Forall_lookup_1 _ _ _ _ Hl).
        -- rewrite Ep in T.
           destruct (lt_eq_lt_dec i (snd st)) as [[L | E] | G].
           ++ eapply SFltb_trans; [by eapply Hlt | done].
           ++ subst i. rewrite Hp in Hq. by injection Hq as <-.
           ++ eapply SFltb_le_lt; [|by eapply Hge|done].
              by eapply (Forall_lookup_1 _ _ _ _ Hl).
      * intros i q Hi Hq. apply lookup_lt_Some in Hq.
        rewrite length_app in Hq. simpl in Hq. lia.
    + destruct IH as [[E Hno] | (p & Hp & Ep & Hpos & Hlt & Hge)].
      * left. split; [done|]. intros i q Hq.
        apply lookup_app_Some in Hq as [Hq | [_ Hq]]; [by eapply Hno|].
        apply list_lookup_singleton_Some in Hq as [_ <-].
        by rewrite E in T.
      * right. exists p. split; [by apply lookup_app_l_Some|].
        split; [done|]. split; [done|]. split.
        -- intros i q Hi Hq. apply lookup_lt_Some in Hp.
           rewrite lookup_app_l in Hq by lia. by eapply Hlt.
        -- intros i q Hi Hq.
           apply lookup_app_Some in Hq as [Hq | [_ Hq]]; [by eapply Hge|].
           apply list_lookup_singleton_Some in Hq as [_ <-].
           by rewrite Ep in T.
Qed.

End Scanned.

(** X6.  For a non-empty list of proposals whose computed IoUs are
    numbers, the row that the matching loop selects is a row of the
    list, no row has a greater computed IoU and every earlier row has a
    smaller one; it is row 0 when no computed IoU is above 0. *)
Theorem best_box_is_best_row (legacy : bool) (g : Box) (proposals : list Box) :
  proposals <> [] ->
  Forall (fun q => bb_intersection_over_union legacy g q <> S754_nan)
    proposals ->
  (best_box legacy g proposals < length proposals)%nat /\
  best_row legacy g proposals (best_box legacy g proposals).
Proof.
  intros Hne Hnan. unfold best_box. rewrite best_match_scan.
  destruct (scan_best_row legacy g proposals Hnan)
    as [[E Hno] | (p & Hp & Ep & Hpos & Hlt & Hge)].
  - rewrite E. cbn [snd]. split.
    + destruct proposals; [done | simpl; lia].
    + left. by split.
  - split; [by eapply lookup_lt_Some|]. right. by exists p.
Qed.

End Float32Order.

(** ** [quad] and the number of pairs *)

Section QuadMore.
Import Overlap.
Local Open Scope R_scope.

Lemma quad_of_pairs w : 1 / 2 <= w -> quad (w * (w - 1) / 2) = w.
Proof.
  intros H. rewrite quad_larger_root, radicand_linear.
  replace (1 + 8 * (w * (w - 1) / 2)) with ((2 * w - 1) * (2 * w - 1))
    by field.
  rewrite sqrt_square by Lra.lra. field.
Qed.

(** X9.  [quad] inverts the number of pairs: [quad (w (w - 1) / 2) = w]
    for [w >= 1/2], and for [c >= -1/8] the value [q = quad c] is at
    least 1/2 and satisfies [q (q - 1) / 2 = c]. *)
Theorem quad_round_trip (w c : R) :
  (1 / 2 <= w -> quad (w * (w - 1) / 2) = w) /\
  (- (1 / 8) <= c -> 1 / 2 <= quad c /\ quad c * (quad c - 1) / 2 = c).
Proof.
  split; [apply quad_of_pairs|]. intros H.
  assert (Hr : 0 <= radicand c) by (rewrite radicand_linear; Lra.lra).
  pose proof (quad_is_root c Hr) as E.
  split; [|Lra.lra].
  rewrite quad_larger_root. pose proof (sqrt_pos (radicand c)). Lra.lra.
Qed.

(** X10.  On the raw counts, which are not negative, [quad] is at least
    1 and does not decrease. *)
Theorem quad_monotone (c c' : R) :
  0 <= c -> c <= c' -> 1 <= quad c /\ quad c <= quad c'.
Proof.
  intros H0 Hle. rewrite !quad_larger_root, !radicand_linear.
  assert (H1 : 1 <= sqrt (1 + 8 * c)).
  { rewrite <- sqrt_1 at 1. apply sqrt_le_1_alt. Lra.lra. }
  assert (H2 : sqrt (1 + 8 * c) <= sqrt (1 + 8 * c')).
  { apply sqrt_le_1_alt. Lra.lra. }
  split; Lra.lra.
Qed.

End QuadMore.

Section CombinationsFacts.
Import Overlap.

(** X11.  A list of [n] masks has [n (n - 1) / 2] pairs. *)
Theorem combinations2_length {A} (l : list A) :
  (2 * length (combinations2 l) = length l * (length l - 1))%nat.
Proof.
  induction l as [|x l IH]; simpl; [done|].
  rewrite length_app, length_map. destruct l; simpl in *; lia.
Qed.

End CombinationsFacts.

(** ** The overlap raster, pixel by pixel *)

Section OverlapPixels.
Import Geometry Tensor Instances Overlap OverlapSpec ObjectsSpec LossSpec.

Variable crop_and_resize :
  list PolygonMask -> list Box -> nat -> tensor3 bool.

(** The pixel of a sum of arrays is the sum of their pixels. *)
Lemma py_sum_get (temp : list (tensor3 Z)) (vals : list Z) r i j :
  temp <> [] ->
  Forall2 (fun t v => t3_get t r i j = Some v) temp vals ->
  t3_get (py_sum temp) r i j = Some (zsum vals).
Proof.
  intros Hne H. destruct H as [|t0 v0 rest vs H0 Hrest]; [done|].
  unfold py_sum. simpl.
  assert (Hacc : t3_get (t3_map (Z.add 0) t0) r i j = Some v0).
  { rewrite t3_get_map, H0. done. }
  clear Hne H0. revert Hacc. generalize (t3_map (Z.add 0) t0). generalize v0.
  induction Hrest as [|t v rest vs Ht _ IH]; intros a acc Hacc; simpl.
  - by rewrite Z.add_0_r.
  - rewrite (IH (a + v)%Z).
    + f_equal. lia.
    + rewrite t3_get_zip, Hacc, Ht. done.
Qed.

Lemma combinations2_map {A B} (f : A -> B) (l : list A) :
  combinations2 (map f l) =
  map (fun c => (f (fst c), f (snd c))) (combinations2 l).
Proof.
  induction l as [|x l IH]; simpl; [done|].
  rewrite map_app, IH, !map_map. done.
Qed.

Lemma combinations2_Forall2 {A B} (P : A -> B -> Prop) l k :
  Forall2 P l k ->
  Forall2 (fun c d => P (fst c) (fst d) /\ P (snd c) (snd d))
    (combinations2 l) (combinations2 k).
Proof.
  induction 1 as [|x y l k Hxy Hlk IH]; simpl; [constructor|].
  apply Forall2_app; [|done].
  apply Forall2_fmap. eapply Forall2_impl; [exact Hlk|]. by intros a b Hab.
Qed.

Lemma pair_sum_cons x xs : pair_sum (x :: xs) = (x * zsum xs + pair_sum xs)%Z.
Proof.
  unfold pair_sum. simpl. rewrite map_app, map_map. simpl.
  unfold zsum at 1. rewrite foldr_app.
  fold (zsum (map (fun c => (fst c * snd c)%Z) (combinations2 xs))).
  generalize (zsum (map (fun c => (fst c * snd c)%Z) (combinations2 xs))).
  induction xs as [|y xs IH]; intros z; simpl; [lia|].
  rewrite IH. unfold zsum. simpl. lia.
Qed.

Lemma pair_sum_bits (bs : list bool) :
  let k := zsum (map Z.b2z bs) in
  (0 <= k)%Z /\ (2 * pair_sum (map Z.b2z bs) = k * (k - 1))%Z.
Proof.
  induction bs as [|b bs [IH0 IH]]; cbv zeta; [by split|].
  cbn [map]. rewrite pair_sum_cons.
  change (zsum (Z.b2z b :: map Z.b2z bs))
    with (Z.b2z b + zsum (map Z.b2z bs))%Z.
  destruct b; simpl Z.b2z; split; lia.
Qed.

Lemma img_masks_objects img M :
  img_masks crop_and_resize img M =
  map (fun p => t3_map Z.b2z (object_mask crop_and_resize img M p))
    (distinct_objects img).
Proof.
  unfold img_masks, distinct_objects.
  assert (H0 : snd (([], []) : list Polygon * list (tensor3 Z)) =
               map (fun p => t3_map Z.b2z (object_mask crop_and_resize img M p))
                 (fst (([], []) : list Polygon * list (tensor3 Z)))) by done.
  change (@nil Polygon)
    with (fst (([], []) : list Polygon * list (tensor3 Z))) at 2.
  revert H0. generalize (([], []) : list Polygon * list (tensor3 Z)).
  induction (gt_masks img) as [|x l IH]; intros st Hst; simpl; [done|].
  rewrite IH.
  - f_equal. unfold object_step, distinct_step.
    by destruct (existsb _ _).
  - unfold object_step. destruct (existsb _ _); [done|]. cbv zeta.
    cbn [fst snd]. rewrite map_app, Hst. done.
Qed.

Lemma object_pixel img M p r i j :
  rasterizer_ok crop_and_resize ->
  (r < length img)%nat -> (i < M)%nat -> (j < M)%nat ->
  t3_get (object_mask crop_and_resize img M p) r i j =
  Some (default false (t3_get (object_mask crop_and_resize img M p) r i j)).
Proof.
  intros Hr Hlt Hi Hj.
  pose proof (Hr (map (fun _ => mkPolygonMask p []) img)
                (proposal_boxes img) M) as Hs.
  unfold proposal_boxes in Hs. rewrite !length_map in Hs.
  specialize (Hs eq_refl).
  destruct (t3_get_shape _ _ _ _ r i j Hs Hlt Hi Hj) as [b Hb].
  unfold object_mask, proposal_boxes. by rewrite Hb.
Qed.

(** X12.  In an image with at least two distinct objects, let [k] be the
    number of distinct objects whose mask, rasterised against the
    proposal box of instance [r], covers pixel [(i, j)].  Where the
    ground-truth mask of the instance is set, the raw overlap count is
    the number [k (k - 1) / 2] of pairs of such objects and the overlap
    weight is [max 1 k]; elsewhere the count is 0 and the weight 1. *)
Theorem overlap_pixel_count (img : Instances) (M : nat)
  (gt : tensor3 bool) (r i j : nat) (b : bool) :
  rasterizer_ok crop_and_resize ->
  (1 < length (distinct_objects img))%nat ->
  (r < length img)%nat -> (i < M)%nat -> (j < M)%nat ->
  t3_get gt r i j = Some b ->
  let k := objects_at crop_and_resize img M r i j in
  (0 <= k)%Z /\
  t3_get (per_ins_overlap_masks crop_and_resize img M gt) r i j =
    Some (if b then (k * (k - 1) / 2)%Z else 0%Z) /\
  t3_get (overlap_weights
            (per_ins_overlap_masks crop_and_resize img M gt)) r i j =
    Some (if b then Rmax 1 (IZR k) else 1%R).
Proof.
  intros Hr Hobj Hlt Hi Hj Hgt k.
  set (bit := fun p =>
         default false (t3_get (object_mask crop_and_resize img M p) r i j)).
  assert (Ek : k = zsum (map Z.b2z (map bit (distinct_objects img)))).
  { unfold k, objects_at. by rewrite map_map. }
  destruct (pair_sum_bits (map bit (distinct_objects img))) as [Hk0 Hk2].
  rewrite <- Ek in Hk0, Hk2.
  set (ps := pair_sum (map Z.b2z (map bit (distinct_objects img)))) in *.
  assert (Hraw : t3_get (per_ins_overlap_masks crop_and_resize img M gt) r i j
                 = Some (ps * Z.b2z b)%Z).
  { unfold per_ins_overlap_masks; cbv zeta.
    rewrite img_masks_length, bool_decide_eq_true_2 by done.
    rewrite t3_get_zip, t3_get_map, Hgt. cbn [fmap option_fmap option_map].
    rewrite img_masks_objects, combinations2_map, map_map.
    rewrite (py_sum_get _
               (map (fun c => (Z.b2z (bit (fst c)) * Z.b2z (bit (snd c)))%Z)
                  (combinations2 (distinct_objects img)))).
    - cbn [mbind option_bind]. do 2 f_equal. unfold ps, pair_sum.
      rewrite (map_map bit Z.b2z), combinations2_map, map_map. done.
    - intros E. apply map_eq_nil in E.
      by apply combinations2_nonempty in E.
    - apply Forall2_fmap, Forall_Forall2_diag, Forall_forall.
      intros c _. cbn [fst snd].
      rewrite t3_get_zip, !t3_get_map.
      rewrite (object_pixel img M (fst c) r i j Hr Hlt Hi Hj).
      cbn [fmap option_fmap option_map mbind option_bind].
      rewrite (object_pixel img M (snd c) r i j Hr Hlt Hi Hj).
      done. }
  split; [done|]. split.
  - rewrite Hraw. f_equal. destruct b; cbn [Z.b2z]; [|lia].
    rewrite Z.mul_1_r. apply Z.div_unique_exact; lia.
  - unfold overlap_weights. rewrite t3_get_map, Hraw.
    cbn [fmap option_fmap option_map]. f_equal.
    destruct b; cbn [Z.b2z].
    + rewrite Z.mul_1_r.
      assert (Hps : IZR ps = (IZR k * (IZR k - 1) / 2)%R).
      { assert (H2 : (2 * IZR ps = IZR k * (IZR k - 1))%R).
        { rewrite <- (minus_IZR k 1), <- !mult_IZR. by f_equal. }
        Lra.lra. }
      destruct (Z.eq_dec k 0%Z) as [Hz | Hnz].
      * rewrite Hps, Hz. replace (0 * (0 - 1) / 2)%R with 0%R by field.
        rewrite quad_0. rewrite Rmax_left; Lra.lra.
      * assert (H1 : (1 <= IZR k)%R) by (apply IZR_le; lia).
        rewrite Hps, quad_of_pairs by Lra.lra.
        rewrite Rmax_right; Lra.lra.
    + rewrite Z.mul_0_r. apply quad_0.
Qed.

End OverlapPixels.

(** ** The boundary band *)

Section BoundaryMore.
Import Tensor Boundary BoundarySpec.

Lemma window_map {A B} (f : A -> B) (g : grid A) i j :
  window (grid_map f g) i j = map f (window g i j).
Proof.
  unfold window. induction (list_prod (neighbours i) (neighbours j))
    as [|ab l IH]; csimpl; [done|].
  rewrite grid_get_map, IH. by destruct (grid_get g ab.1 ab.2).
Qed.

Lemma existsb_negb (w : list bool) :
  existsb (fun b : bool => b) (map negb w) =
  negb (forallb (fun b : bool => b) w).
Proof. induction w as [|[] w IH]; simpl; try done. Qed.

Lemma forallb_negb (w : list bool) :
  forallb (fun b : bool => b) (map negb w) =
  negb (existsb (fun b : bool => b) w).
Proof. induction w as [|[] w IH]; simpl; try done. Qed.

Lemma bound_pixels_get_None g i j :
  grid_get g i j = None -> grid_get (bound_pixels g) i j = None.
Proof.
  intros H. unfold bound_pixels, dilate, erode.
  by rewrite grid_get_zip, !grid_get_imap, H.
Qed.

(** X13.  The boundary band of a silhouette is the band of its
    complement. *)
Theorem bound_pixels_complement (g : grid bool) (i j : nat) :
  grid_get (bound_pixels (grid_map negb g)) i j =
  grid_get (bound_pixels g) i j.
Proof.
  destruct (grid_get g i j) as [v|] eqn:E.
  - rewrite (bound_pixels_get g i j v E).
    rewrite (bound_pixels_get (grid_map negb g) i j (negb v))
      by (by rewrite grid_get_map, E).
    rewrite window_map, existsb_negb, forallb_negb. f_equal.
    by destruct (existsb _ _), (forallb _ _).
  - rewrite (bound_pixels_get_None g i j E).
    apply bound_pixels_get_None. by rewrite grid_get_map, E.
Qed.

(** X14.  A mask whose filled silhouette is all set or all unset has no
    boundary band: its boundary weight is 1 at every pixel. *)
Theorem uniform_mask_weight_one
  (draw_contours : nat -> grid bool -> grid bool) (mask_side_len : nat)
  (gt_masks : tensor3 bool) (n i j : nat) (m : grid bool) (v : bool) (w : Z) :
  gt_masks !! n = Some m ->
  (forall a b x, grid_get (draw_contours mask_side_len m) a b = Some x ->
                 x = v) ->
  t3_get (boundary_weights
            (map (fun m => bound_pixels (draw_contours mask_side_len m))
               gt_masks)) n i j = Some w ->
  w = 1%Z.
Proof.
  intros Hm Hu. unfold boundary_weights.
  rewrite t3_get_map. unfold t3_get. rewrite list_lookup_fmap, Hm.
  cbn [fmap option_fmap option_map].
  set (s := draw_contours mask_side_len m) in *.
  destruct (grid_get s i j) as [x|] eqn:E.
  2:{ by rewrite (bound_pixels_get_None s i j E). }
  rewrite (bound_pixels_get s i j x E). cbn [fmap option_fmap option_map].
  pose proof (band_pixel s i j x E) as Hb.
  destruct (xorb _ _).
  - exfalso. destruct (proj1 Hb eq_refl) as [(a & b & _ & _ & Ht)
                                               (a' & b' & _ & _ & Hf)].
    apply Hu in Ht. apply Hu in Hf. congruence.
  - by intros [= <-].
Qed.

(** X15.  At every pixel the erosion is below the silhouette and the
    dilation above it. *)
Theorem erode_below_dilate_above (g : grid bool) (i j : nat) (v : bool) :
  grid_get g i j = Some v ->
  (grid_get (erode g) i j = Some true -> v = true) /\
  (v = true -> grid_get (dilate g) i j = Some true).
Proof.
  intros H. rewrite (erode_get g i j v H), (dilate_get g i j v H). split.
  - intros [= E]. destruct v; [done|].
    apply kernel_hits_centre, forallb_window in H. congruence.
  - intros ->. f_equal. by apply existsb_window, kernel_hits_centre.
Qed.

End BoundaryMore.

(** ** The combined loss *)

Section LossMore.
Import Tensor MaskLoss LossSpec.
Local Open Scope R_scope.

Lemma concat_grid_zip {A B C} (f : A -> B -> C) h w (g : grid A) (g' : grid B) :
  grid_shape h w g -> grid_shape h w g' ->
  concat (grid_zip f g g') = zip_with f (concat g) (concat g').
Proof.
  revert h g'. induction g as [|r g IH]; intros h g' [Hl Hr] [Hl' Hr'].
  - by destruct g'.
  - destruct g' as [|r' g']; simpl in *; [lia|].
    apply Forall_cons in Hr as [Hw Hr]. apply Forall_cons in Hr' as [Hw' Hr'].
    rewrite zip_with_app by lia. f_equal.
    apply (IH (length g)); split; try done. lia.
Qed.

Lemma flatten_zip {A B C} (f : A -> B -> C) n h w
  (t : tensor3 A) (u : tensor3 B) :
  shape3 n h w t -> shape3 n h w u ->
  t3_flatten (t3_zip f t u) = zip_with f (t3_flatten t) (t3_flatten u).
Proof.
  unfold t3_flatten, t3_zip.
  revert n u. induction t as [|g t IH]; intros n u [Hl Hg] [Hl' Hg'].
  - by destruct u.
  - destruct u as [|g' u]; simpl in *; [lia|].
    apply Forall_cons in Hg as [Hs Hg]. apply Forall_cons in Hg' as [Hs' Hg'].
    rewrite !concat_app, zip_with_app.
    + f_equal; [by eapply concat_grid_zip|].
      apply (IH (length t)); split; try done. lia.
    + by rewrite (length_concat_grid _ _ _ Hs), (length_concat_grid _ _ _ Hs').
Qed.

Lemma rsum_zip3 (p0 v0 p1 v1 p2 v2 : R) (l0 l1 l2 : list R) :
  length l0 = length l1 -> length l0 = length l2 ->
  rsum (zip_with (fun ab c => p0 * ab.1 + v0 + p1 * ab.2 + v1 + p2 * c + v2)
          (zip_with pair l0 l1) l2) =
  p0 * rsum l0 + p1 * rsum l1 + p2 * rsum l2 +
  INR (length l0) * (v0 + v1 + v2).
Proof.
  revert l1 l2. induction l0 as [|a l0 IH]; intros [|b l1] [|c l2] H1 H2;
    try discriminate.
  - simpl. ring.
  - injection H1 as H1. injection H2 as H2.
    change (length (a :: l0)) with (S (length l0)). rewrite S_INR.
    simpl. rewrite (IH _ _ H1 H2). ring.
Qed.

(** X16.  The mean of the combined loss of three non-empty arrays of the
    same shape is
    [exp(-s0) mean(L0) + s0 + exp(-s1) mean(L1) + s1 + exp(-s2) mean(L2) + s2]. *)
Theorem loss_is_weighted_sum_of_means (log_vars : LogVars) (n h w : nat)
  (L0 L1 L2 : tensor3 R) :
  shape3 n h w L0 -> shape3 n h w L1 -> shape3 n h w L2 ->
  (0 < n * h * w)%nat ->
  t3_mean (weighted_mask_loss log_vars L0 L1 L2) =
  exp (- lv0 log_vars) * t3_mean L0 + lv0 log_vars +
  exp (- lv1 log_vars) * t3_mean L1 + lv1 log_vars +
  exp (- lv2 log_vars) * t3_mean L2 + lv2 log_vars.
Proof.
  intros S0 S1 S2 Hpos.
  rewrite weighted_mask_loss_pointwise. unfold pointwise3, t3_mean, t3_sum.
  rewrite (flatten_zip _ n h w) by (try done; by apply shape3_zip).
  rewrite (flatten_zip _ n h w) by done.
  pose proof (length_flatten _ _ _ _ S0) as E0.
  pose proof (length_flatten _ _ _ _ S1) as E1.
  pose proof (length_flatten _ _ _ _ S2) as E2.
  rewrite rsum_zip3 by lia.
  rewrite !length_zip_with, E0, E1, E2, !Nat.min_id.
  assert (HN : INR (n * h * w) <> 0) by (apply not_0_INR; lia).
  field. exact HN.
Qed.

Lemma zip_with_swap {A B C D AB AC : Type}
  (p : A -> B -> AB) (q : AB -> C -> D)
  (p' : A -> C -> AC) (q' : AC -> B -> D) :
  (forall a b c, q (p a b) c = q' (p' a c) b) ->
  forall l0 l1 l2,
    zip_with q (zip_with p l0 l1) l2 = zip_with q' (zip_with p' l0 l2) l1.
Proof.
  intros H. induction l0 as [|a l0 IH]; intros [|b l1] [|c l2]; simpl;
    try done.
  by rewrite H, IH.
Qed.

Lemma zip_with_comm {A B} (f : A -> A -> B) :
  (forall a b, f a b = f b a) ->
  forall l k, zip_with f l k = zip_with f k l.
Proof.
  intros H. induction l as [|a l IH]; intros [|b k]; simpl; try done.
  by rewrite H, IH.
Qed.

(** X17.  The combined loss does not depend on the order of the three
    penalty branches: exchanging two losses together with their
    log-variances leaves it unchanged. *)
Theorem weighted_mask_loss_permutation (v0 v1 v2 : R)
  (L0 L1 L2 : tensor3 R) :
  weighted_mask_loss (mkLogVars v0 v1 v2) L0 L1 L2 =
    weighted_mask_loss (mkLogVars v1 v0 v2) L1 L0 L2 /\
  weighted_mask_loss (mkLogVars v0 v1 v2) L0 L1 L2 =
    weighted_mask_loss (mkLogVars v0 v2 v1) L0 L2 L1.
Proof.
  split.
  - unfold weighted_mask_loss; cbv zeta. cbn [lv0 lv1 lv2].
    unfold t3_zip at 2 4. f_equal.
    unfold t3_zip. apply zip_with_comm. intros g g'.
    unfold grid_zip. apply zip_with_comm. intros r r'.
    apply zip_with_comm. intros a b. apply Rplus_comm.
  - unfold weighted_mask_loss; cbv zeta. cbn [lv0 lv1 lv2].
    unfold t3_zip. apply zip_with_swap. intros g0 g1 g2.
    unfold grid_zip. apply zip_with_swap. intros r0 r1 r2.
    apply zip_with_swap. intros a b c. ring.
Qed.

End LossMore.

Section LossErrors.
Import Geometry Tensor Instances MaskLoss LossSpec.

Variable crop_and_resize :
  list PolygonMask -> list Box -> nat -> tensor3 bool.
Variable draw_contours : nat -> grid bool -> grid bool.

Lemma mapM2_pick_out_of_range rows cls i row c :
  rows !! i = Some row -> cls !! i = Some c -> (length row <= c)%nat ->
  mapM2 pick rows cls = Raise IndexError.
Proof.
  revert cls i. induction rows as [|r rows IH]; intros cls i Hr Hc Hle;
    [done|].
  destruct cls as [|c0 cls]; [done|]. cbn [mapM2].
  destruct (pick r c0) as [g|e] eqn:E.
  - destruct i as [|i].
    + simpl in Hr, Hc. injection Hr as ->. injection Hc as ->.
      unfold pick in E. rewrite (proj2 (lookup_ge_None _ _) Hle) in E. done.
    + rewrite bind_Ok. by rewrite (IH cls i).
  - unfold pick in E. destruct (r !! c0); [done|]. by injection E as <-.
Qed.

(** X18.  In the class-specific case a ground-truth class that is not a
    channel of the logits makes [mask_rcnn_loss] raise [IndexError]. *)
Theorem class_out_of_range_raises (log_vars : LogVars)
  (pred_mask_logits : Logits) (instances : list Instances)
  (i : nat) (inst : Instance) (row : list (grid R)) :
  rasterizer_ok crop_and_resize ->
  size2 pred_mask_logits = size3 pred_mask_logits ->
  size1 pred_mask_logits <> 1%nat ->
  length (data pred_mask_logits) = length (concat instances) ->
  concat instances !! i = Some inst ->
  data pred_mask_logits !! i = Some row ->
  (length row <= gt_class inst)%nat ->
  mask_rcnn_loss crop_and_resize draw_contours log_vars pred_mask_logits
    instances = Raise IndexError.
Proof.
  intros Hr Hsq Hag Hlen Hi Hrow Hc.
  assert (HN : length (concat instances) <> 0%nat).
  { apply lookup_lt_Some in Hi. lia. }
  assert (Hfg : length (concat (foreground instances)) =
                length (concat instances)) by by rewrite concat_foreground.
  assert (Hfgne : foreground instances <> []).
  { intros E. rewrite E in Hfg. simpl in Hfg. lia. }
  assert (Hmasks : length (concat (map (gt_masks_of crop_and_resize
                                         (size2 pred_mask_logits))
                                    (foreground instances))) =
                   length (concat (foreground instances))).
  { apply length_concat_map. intros img.
    by destruct (masks_of_shape crop_and_resize (size2 pred_mask_logits)
                   img Hr). }
  unfold mask_rcnn_loss; cbv zeta.
  rewrite (bool_decide_eq_true_2 _ Hsq). cbn [negb].
  rewrite loop_containers; cbv zeta.
  cbn [c_gt_classes c_gt_masks c_boundary_penalty c_roi_penalty
       c_overlap_penalty empty_containers app].
  rewrite torch_stack_ok, bind_Ok.
  2:{ intros E. apply (f_equal length) in E. rewrite length_map in E.
      simpl in E. lia. }
  rewrite !torch_cat_ok by (by intros E%map_eq_nil). rewrite !bind_Ok.
  rewrite bool_decide_eq_false_2.
  2:{ rewrite length_map. by destruct (foreground instances). }
  rewrite (bool_decide_eq_false_2 _ Hag). cbn [negb].
  assert (Ec : concat (map gt_classes (foreground instances)) =
               map gt_class (concat instances)).
  { rewrite <- concat_foreground. unfold gt_classes. by rewrite concat_map. }
  rewrite Ec. unfold select_channels.
  rewrite expand_like_same by (rewrite length_map; lia).
  rewrite (mapM2_pick_out_of_range _ _ i row (gt_class inst)); try done.
  by rewrite list_lookup_fmap, Hi.
Qed.

End LossErrors.

(** ** The accuracy scalars *)

Section MetricsFacts.
Import Tensor Metrics MetricsSpec LossSpec.

Lemma ntrue_cons b l : ntrue (b :: l) = ((if b then 1 else 0) + ntrue l)%nat.
Proof.
  unfold ntrue. destruct b.
  - by rewrite filter_cons_True.
  - by rewrite filter_cons_False.
Qed.

Lemma ntrue_le l : (ntrue l <= length l)%nat.
Proof. unfold ntrue. apply length_filter. Qed.

(** Errors split into false positives and false negatives; false
    positives lie among the negatives, false negatives among the
    positives. *)
Lemma ntrue_split (inc gt : list bool) :
  length inc = length gt ->
  (ntrue (zip_with (fun i g => i && negb g) inc gt) +
   ntrue (zip_with andb inc gt) = ntrue inc)%nat /\
  (ntrue (zip_with (fun i g => i && negb g) inc gt) <=
   length gt - ntrue gt)%nat /\
  (ntrue (zip_with andb inc gt) <= ntrue gt)%nat.
Proof.
  revert gt. induction inc as [|i inc IH]; intros [|g gt] H; try discriminate.
  - simpl. unfold ntrue. simpl. lia.
  - injection H as H. destruct (IH gt H) as (I1 & I2 & I3).
    pose proof (ntrue_le gt).
    cbn [zip_with length]. rewrite !ntrue_cons.
    destruct i, g; simpl; lia.
Qed.

Lemma ratio_unit (a b : Z) :
  (0 <= a <= b)%Z ->
  (0 <= inject_Z a / Qmax (inject_Z b) 1 /\
   inject_Z a / Qmax (inject_Z b) 1 <= 1)%Q.
Proof.
  intros H.
  assert (Ha : (inject_Z 0 <= inject_Z a)%Q) by (rewrite <- Zle_Qle; lia).
  change (inject_Z 0) with 0%Q in Ha.
  assert (Hab : (inject_Z a <= inject_Z b)%Q) by (rewrite <- Zle_Qle; lia).
  pose proof (Q.le_max_l (inject_Z b) 1) as M1.
  pose proof (Q.le_max_r (inject_Z b) 1) as M2.
  split.
  - apply Qle_shift_div_l; Lqa.lra.
  - apply Qle_shift_div_r; Lqa.lra.
Qed.

(** X19.  The accuracy and the rates of false positives and of false
    negatives lie between 0 and 1. *)
Theorem mask_rates_unit_interval (n h w : nat)
  (pred_mask_logits : tensor3 R) (gt_masks_bool : tensor3 bool) :
  shape3 n h w pred_mask_logits -> shape3 n h w gt_masks_bool ->
  let r := mask_rates pred_mask_logits gt_masks_bool in
  (0 <= mask_accuracy r /\ mask_accuracy r <= 1)%Q /\
  (0 <= false_positive r /\ false_positive r <= 1)%Q /\
  (0 <= false_negative r /\ false_negative r <= 1)%Q.
Proof.
  intros Sp Sg r. unfold r, mask_rates; cbv zeta.
  cbn [mask_accuracy false_positive false_negative].
  set (inc := t3_zip (fun x g => xorb (positive x) g) pred_mask_logits
                gt_masks_bool).
  assert (Si : shape3 n h w inc) by by apply shape3_zip.
  unfold count_true, numel.
  rewrite !(flatten_zip _ n h w) by done.
  fold (ntrue (t3_flatten inc)). fold (ntrue (t3_flatten gt_masks_bool)).
  fold (ntrue (zip_with (fun i g => i && negb g) (t3_flatten inc)
                 (t3_flatten gt_masks_bool))).
  fold (ntrue (zip_with andb (t3_flatten inc) (t3_flatten gt_masks_bool))).
  assert (Hl : length (t3_flatten inc) = length (t3_flatten gt_masks_bool)).
  { by rewrite (length_flatten _ _ _ _ Si), (length_flatten _ _ _ _ Sg). }
  destruct (ntrue_split _ _ Hl) as (H1 & H2 & H3).
  pose proof (ntrue_le (t3_flatten inc)) as Li.
  pose proof (ntrue_le (t3_flatten gt_masks_bool)) as Lg.
  split; [|split].
  - destruct (ratio_unit (Z.of_nat (ntrue (t3_flatten inc)))
                (Z.of_nat (length (t3_flatten inc)))) as [A B]; [lia|].
    split; Lqa.lra.
  - apply ratio_unit. lia.
  - apply ratio_unit. lia.
Qed.

Lemma ntrue_xor_zero (xs : list R) (gs : list bool) :
  length xs = length gs ->
  ntrue (zip_with (fun x g => xorb (positive x) g) xs gs) = 0%nat <->
  Forall2 (fun x g => positive x = g) xs gs.
Proof.
  revert gs. induction xs as [|x xs IH]; intros [|g gs] H; try discriminate.
  - split; [constructor | done].
  - injection H as H. cbn [zip_with]. rewrite ntrue_cons. split.
    + intros E. constructor.
      * destruct (positive x), g; simpl in E; try done; lia.
      * apply IH; [done|]. lia.
    + intros E. apply Forall2_cons in E as [E1 E2].
      apply IH in E2; [|done]. rewrite E2, E1. by destruct g.
Qed.

Lemma ratio_times (a m : Q) : (1 <= m)%Q -> (a / m * m == a)%Q.
Proof. intros H. field. Lqa.lra. Qed.

(** X20.  The number of wrong pixels is the number of false positives
    plus the number of false negatives, each rate being taken times its
    denominator; the accuracy is 1 exactly when the sign of every logit
    agrees with the ground-truth mask. *)
Theorem mask_rates_errors (n h w : nat)
  (pred_mask_logits : tensor3 R) (gt_masks_bool : tensor3 bool) :
  shape3 n h w pred_mask_logits -> shape3 n h w gt_masks_bool ->
  let r := mask_rates pred_mask_logits gt_masks_bool in
  let total := inject_Z (numel gt_masks_bool) in
  let pos := inject_Z (count_true gt_masks_bool) in
  let neg := inject_Z (numel gt_masks_bool - count_true gt_masks_bool) in
  ((1 - mask_accuracy r) * Qmax total 1 ==
   false_positive r * Qmax neg 1 + false_negative r * Qmax pos 1)%Q /\
  ((mask_accuracy r == 1)%Q <->
   Forall2 (fun x g => positive x = g)
     (t3_flatten pred_mask_logits) (t3_flatten gt_masks_bool)).
Proof.
  intros Sp Sg r total pos neg. unfold r, total, pos, neg, mask_rates;
    cbv zeta.
  cbn [mask_accuracy false_positive false_negative].
  set (inc := t3_zip (fun x g => xorb (positive x) g) pred_mask_logits
                gt_masks_bool).
  assert (Si : shape3 n h w inc) by by apply shape3_zip.
  assert (Hnum : numel inc = numel gt_masks_bool).
  { unfold numel.
    by rewrite (length_flatten _ _ _ _ Si), (length_flatten _ _ _ _ Sg). }
  rewrite Hnum. unfold count_true.
  rewrite !(flatten_zip _ n h w) by done.
  assert (Hl : length (t3_flatten inc) = length (t3_flatten gt_masks_bool)).
  { by rewrite (length_flatten _ _ _ _ Si), (length_flatten _ _ _ _ Sg). }
  destruct (ntrue_split _ _ Hl) as (H1 & H2 & H3). unfold ntrue in H1.
  set (fp := length (filter (fun b : bool => b = true)
               (zip_with (fun i g => i && negb g) (t3_flatten inc)
                  (t3_flatten gt_masks_bool)))) in *.
  set (fn := length (filter (fun b : bool => b = true)
               (zip_with andb (t3_flatten inc)
                  (t3_flatten gt_masks_bool)))) in *.
  set (ni := length (filter (fun b : bool => b = true) (t3_flatten inc)))
    in *.
  set (m := Qmax (inject_Z (numel gt_masks_bool)) 1).
  set (m1 := Qmax (inject_Z (numel gt_masks_bool -
                     Z.of_nat (length (filter (fun b : bool => b = true)
                                 (t3_flatten gt_masks_bool))))) 1).
  set (m2 := Qmax (inject_Z (Z.of_nat (length
                     (filter (fun b : bool => b = true)
                        (t3_flatten gt_masks_bool))))) 1).
  assert (Hm : (1 <= m)%Q) by apply Q.le_max_r.
  assert (Hm1 : (1 <= m1)%Q) by apply Q.le_max_r.
  assert (Hm2 : (1 <= m2)%Q) by apply Q.le_max_r.
  assert (Hsum : (inject_Z (Z.of_nat ni) ==
                  inject_Z (Z.of_nat fp) + inject_Z (Z.of_nat fn))%Q).
  { rewrite <- inject_Z_plus. apply inject_Z_injective. lia. }
  split.
  - rewrite (ratio_times _ m1 Hm1), (ratio_times _ m2 Hm2).
    pose proof (ratio_times (inject_Z (Z.of_nat ni)) m Hm) as Rm.
    revert Rm. generalize (inject_Z (Z.of_nat ni) / m)%Q. intros t Rm.
    Lqa.nra.
  - rewrite <- (ntrue_xor_zero _ _).
    2:{ by rewrite (length_flatten _ _ _ _ Sp), (length_flatten _ _ _ _ Sg). }
    rewrite <- (flatten_zip _ n h w) by done. fold inc.
    change (ntrue (t3_flatten inc)) with ni.
    clearbody ni fp fn m m1 m2. split.
    + intros E.
      pose proof (ratio_times (inject_Z (Z.of_nat ni)) m Hm) as Rm.
      revert E Rm. generalize (inject_Z (Z.of_nat ni) / m)%Q. intros t E Rm.
      assert (Z0 : (inject_Z (Z.of_nat ni) == inject_Z 0)%Q).
      { change (inject_Z 0) with 0%Q.
        assert (T0 : (t == 0)%Q) by Lqa.lra.
        rewrite T0 in Rm. rewrite <- Rm. ring. }
      apply (proj1 (inject_Z_injective _ _)) in Z0. lia.
    + intros ->. simpl. field. Lqa.lra.
Qed.

End MetricsFacts.

(** ** Inference: errors, idempotence and range *)

Section InferenceMore.
Import Tensor MaskLoss MaskInference InferenceSpec ProbabilitySpec.

Lemma chunks_concat {A} (t : list A) sizes :
  sum_list sizes = length t -> concat (chunks t sizes) = t.
Proof.
  revert t. induction sizes as [|n sizes IH]; intros t H; simpl in *.
  - by destruct t.
  - rewrite IH; [apply take_drop|]. rewrite length_drop. lia.
Qed.

Lemma chunks_sizes {A} (t : list A) sizes :
  sum_list sizes = length t -> map length (chunks t sizes) = sizes.
Proof.
  revert t. induction sizes as [|n sizes IH]; intros t H; simpl in *; [done|].
  rewrite length_take, IH; [f_equal; lia|]. rewrite length_drop. lia.
Qed.

(** X21.  [split] returns parts of the requested sizes whose
    concatenation is the input when the sizes add up to its length, and
    raises otherwise. *)
Theorem split_round_trip {A : Type} (t : list A) (sizes : list nat) :
  (sum_list sizes = length t ->
   exists parts, split t sizes = Ok parts /\ concat parts = t /\
                 map length parts = sizes) /\
  (sum_list sizes <> length t -> split t sizes = Raise RuntimeError).
Proof.
  unfold split. split; intros H.
  - rewrite bool_decide_eq_true_2 by done. eexists. split; [done|].
    split; [by apply chunks_concat | by apply chunks_sizes].
  - by rewrite bool_decide_eq_false_2.
Qed.

Lemma sigmoid_unit (x : R) : (0 < sigmoid x < 1)%R.
Proof.
  unfold sigmoid. pose proof (exp_pos (- x)) as He.
  assert (Hd : (0 < 1 + exp (- x))%R) by Lra.lra.
  split.
  - apply Rdiv_lt_0_compat; Lra.lra.
  - apply (Rmult_lt_reg_r (1 + exp (- x))); [done|].
    unfold Rdiv. rewrite Rmult_assoc, Rinv_l by Lra.lra. Lra.lra.
Qed.

(** X22.  With a single channel, [mask_rcnn_inference] raises when the
    number of rows of the logits is not the total number of predicted
    instances. *)
Theorem class_agnostic_count_mismatch (pred_mask_logits : Logits)
  (pred_instances : list Instances) :
  size1 pred_mask_logits = 1%nat ->
  length (data pred_mask_logits) <> sum_list (map len pred_instances) ->
  mask_rcnn_inference pred_mask_logits pred_instances = Raise RuntimeError.
Proof.
  intros Hag Hne. unfold mask_rcnn_inference; cbv zeta.
  rewrite bool_decide_eq_true_2 by done. rewrite bind_Ok.
  unfold split. rewrite bool_decide_eq_false_2; [done|].
  rewrite !length_map. congruence.
Qed.

(** The run of [mask_rcnn_inference], when it returns. *)
Lemma mask_rcnn_inference_Ok logits insts out :
  mask_rcnn_inference logits insts = Ok out ->
  exists probs : list (tensor3 R),
    (if bool_decide (size1 logits = 1%nat)
     then Ok (map (map (grid_map sigmoid)) (data logits))
     else
       classes ← mapM pred_classes insts;
       class_pred ← cat classes;
       selected ← select_channels (data logits) class_pred;
       Ok (map (fun g => [grid_map sigmoid g]) selected)) = Ok probs /\
    sum_list (map len insts) = length probs /\
    out = zip_with (fun prob i => set "pred_masks" (MaskField prob) i)
            (chunks probs (map len insts)) insts.
Proof.
  unfold mask_rcnn_inference; cbv zeta. intros H.
  match type of H with (?m ≫= _) = _ => destruct m as [probs|e] eqn:E end;
    [|done].
  rewrite bind_Ok in H. unfold split in H.
  case_bool_decide as Hs; [|done]. rewrite bind_Ok in H.
  injection H as <-. by exists probs.
Qed.

Lemma zip_set_len (parts : list (list (tensor3 R))) insts :
  length parts = length insts ->
  map len (zip_with (fun prob i => set "pred_masks" (MaskField prob) i)
             parts insts) = map len insts.
Proof.
  revert parts. induction insts as [|i insts IH]; intros [|p parts] H;
    try discriminate; [done|].
  simpl. f_equal. apply IH. by injection H.
Qed.

Lemma zip_set_classes (parts : list (list (tensor3 R))) insts :
  length parts = length insts ->
  mapM pred_classes
    (zip_with (fun prob i => set "pred_masks" (MaskField prob) i)
       parts insts) = mapM pred_classes insts.
Proof.
  revert parts. induction insts as [|i insts IH]; intros [|p parts] H;
    try discriminate; [done|].
  cbn [zip_with mapM]. rewrite IH by (by injection H). f_equal.
  unfold pred_classes, set; cbn [fields]. by rewrite lookup_insert_ne.
Qed.

Lemma zip_set_twice (parts : list (list (tensor3 R))) insts :
  zip_with (fun prob i => set "pred_masks" (MaskField prob) i) parts
    (zip_with (fun prob i => set "pred_masks" (MaskField prob) i)
       parts insts) =
  zip_with (fun prob i => set "pred_masks" (MaskField prob) i) parts insts.
Proof.
  revert parts. induction insts as [|i insts IH]; intros [|p parts];
    try done.
  cbn [zip_with]. rewrite IH. f_equal.
  unfold set; cbn [len fields]. f_equal. apply insert_insert_eq.
Qed.

(** X23.  Running [mask_rcnn_inference] again on its own result, with
    the same logits, returns that result: the field [pred_masks] is
    overwritten with the same value and no other field is read or
    changed. *)
Theorem mask_rcnn_inference_idempotent (pred_mask_logits : Logits)
  (pred_instances out : list Instances) :
  mask_rcnn_inference pred_mask_logits pred_instances = Ok out ->
  mask_rcnn_inference pred_mask_logits out = Ok out.
Proof.
  intros H. destruct (mask_rcnn_inference_Ok _ _ _ H) as (probs & E & Hs & ->).
  assert (Hl : length (chunks probs (map len pred_instances)) =
               length pred_instances).
  { by rewrite chunks_length, length_map. }
  unfold mask_rcnn_inference; cbv zeta.
  rewrite (zip_set_classes _ _ Hl), (zip_set_len _ _ Hl), E, bind_Ok.
  unfold split. rewrite bool_decide_eq_true_2 by done. rewrite bind_Ok.
  by rewrite zip_set_twice.
Qed.

Lemma grid_sigmoid_probabilities (g : grid R) :
  Forall (Forall (fun p => (0 <= p <= 1)%R)) (grid_map sigmoid g).
Proof.
  unfold grid_map. apply Forall_map, Forall_forall. intros r _.
  apply Forall_map, Forall_forall. intros x _. simpl.
  pose proof (sigmoid_unit x). Lra.lra.
Qed.

Lemma chunks_Forall {A} (P : A -> Prop) (t : list A) sizes :
  Forall P t -> Forall (Forall P) (chunks t sizes).
Proof.
  revert t. induction sizes as [|n sizes IH]; intros t H; simpl; [done|].
  constructor; [by apply Forall_take | by apply IH, Forall_drop].
Qed.

(** X24.  Every value of a [pred_masks] field written by
    [mask_rcnn_inference] lies between 0 and 1. *)
Theorem pred_masks_are_probabilities (pred_mask_logits : Logits)
  (pred_instances out : list Instances) (inst : Instances)
  (prob : list (tensor3 R)) :
  mask_rcnn_inference pred_mask_logits pred_instances = Ok out ->
  inst ∈ out ->
  fields inst !! "pred_masks" = Some (MaskField prob) ->
  Forall probabilities prob.
Proof.
  intros H Hin Hf.
  destruct (mask_rcnn_inference_Ok _ _ _ H) as (probs & E & Hs & ->).
  assert (Hp : Forall probabilities probs).
  { case_bool_decide.
    - injection E as <-. apply Forall_map, Forall_forall. intros row _.
      apply Forall_map, Forall_forall. intros g _.
      apply grid_sigmoid_probabilities.
    - destruct (mapM pred_classes pred_instances) as [cls|]; [|done].
      rewrite bind_Ok in E. destruct (cat cls) as [cp|]; [|done].
      rewrite bind_Ok in E.
      destruct (select_channels (data pred_mask_logits) cp) as [sel|];
        [|done].
      rewrite bind_Ok in E. injection E as <-.
      apply Forall_map, Forall_forall. intros g _.
      constructor; [apply grid_sigmoid_probabilities | constructor]. }
  apply list_elem_of_lookup in Hin as [k Hk].
  rewrite lookup_zip_with in Hk.
  destruct (chunks probs (map len pred_instances) !! k) as [part|] eqn:Ep;
    [|done].
  destruct (pred_instances !! k) as [i|]; [|done]. simpl in Hk.
  injection Hk as <-. unfold set in Hf; cbn [fields] in Hf.
  rewrite lookup_insert_eq in Hf. injection Hf as <-.
  eapply (Forall_lookup_1 _ _ _ _ (chunks_Forall _ _ _ Hp)). exact Ep.
Qed.

(** X25.  With more than one channel, [mask_rcnn_inference] raises
    [AttributeError] at the first record that has no field
    [pred_classes], the records before it carrying their predicted
    classes. *)
Theorem class_specific_needs_classes (pred_mask_logits : Logits)
  (pre : list Instances) (i : Instances) (rest : list Instances) :
  size1 pred_mask_logits <> 1%nat ->
  Forall (fun i0 => exists v,
            fields i0 !! "pred_classes" = Some (IntField v)) pre ->
  fields i !! "pred_classes" = None ->
  mask_rcnn_inference pred_mask_logits (pre ++ i :: rest) =
  Raise AttributeError.
Proof.
  intros Hag Hpre Hf. unfold mask_rcnn_inference; cbv zeta.
  rewrite bool_decide_eq_false_2 by done.
  assert (Ec : mapM pred_classes (pre ++ i :: rest) = Raise AttributeError).
  { assert (Ei : pred_classes i = Raise AttributeError).
    { unfold pred_classes. by rewrite Hf. }
    induction Hpre as [|i0 pre (v & Hv) _ IH]; cbn [app mapM].
    - by rewrite Ei.
    - assert (E0 : pred_classes i0 = Ok v).
      { unfold pred_classes. by rewrite Hv. }
      by rewrite E0, bind_Ok, IH. }
  by rewrite Ec.
Qed.

End InferenceMore.

(** ** Shapes through the layers of the head *)

Section HeadFacts.
Import ConvUpsampleHead.






Lemma apply_layer_wrong_channels l (x : Size) :
  sC x <> in_channels l -> apply_layer l x = Raise RuntimeError.
Proof.
  intros H. unfold apply_layer. rewrite bool_decide_eq_false_2; [done|].
  by intros [? _].
Qed.

Lemma layers_after_raise (ls : list Layer) :
  foldl (fun acc layer => x ← acc; apply_layer layer x)
    (Raise RuntimeError) ls = Raise RuntimeError.
Proof. induction ls as [|l ls IH]; [done | exact IH]. Qed.

(** X27.  Feature maps whose number of channels is not the input
    channels of the head make its layers raise, also when the head has no
    convolution. *)
Theorem layers_wrong_channels (cfg : Config) (x : Size) :
  sC x <> input_channels cfg -> layers cfg x = Raise RuntimeError.
Proof.
  intros Hc. unfold layers, conv_norm_relus.
  destruct (NUM_CONV cfg) as [|n] eqn:En.
  - cbn [seq map foldl]. rewrite bind_Ok.
    rewrite apply_layer_wrong_channels; [done|].
    unfold deconv, ConvTranspose2d. cbn [in_channels]. rewrite En.
    by rewrite bool_decide_eq_false_2 by lia.
  - cbn [seq map foldl]. rewrite bind_Ok.
    rewrite (apply_layer_wrong_channels (Conv2d _ _ 3 1 1)).
    + by rewrite layers_after_raise.
    + unfold Conv2d. cbn [in_channels].
      by rewrite bool_decide_eq_true_2.
Qed.

End HeadFacts.

(** ** The paths of a directory tree *)

Section FilePathsFacts.
Import FilePaths FilePathsSpec.

Lemma paths_of_app w1 w2 : paths_of (w1 ++ w2) = paths_of w1 ++ paths_of w2.
Proof. unfold paths_of. by rewrite map_app, concat_app. Qed.

Lemma paths_of_cons top dirs files w :
  paths_of ((top, dirs, files) :: w) = map (join top) files ++ paths_of w.
Proof. done. Qed.

(** The triples of the sub-directories of a directory. *)
Lemma walk_subdirs top name files subdirs :
  walk top (mkDir name files subdirs) =
  (top, map dir_name subdirs, files) ::
  concat (map (fun sub => walk (join top (dir_name sub)) sub) subdirs).
Proof.
  cbn [walk]. f_equal.
  induction subdirs as [|sub l IH]; [done|]. cbn [map concat]. by rewrite IH.
Qed.

Lemma paths_of_concat ws :
  paths_of (concat ws) = concat (map paths_of ws).
Proof.
  induction ws as [|w ws IH]; [done|].
  cbn [concat map]. by rewrite paths_of_app, IH.
Qed.

Lemma paths_of_walk top name files subdirs :
  paths_of (walk top (mkDir name files subdirs)) =
  map (join top) files ++
  concat (map (fun sub => paths_of (walk (join top (dir_name sub)) sub))
            subdirs).
Proof.
  rewrite walk_subdirs, paths_of_cons, paths_of_concat, map_map. done.
Qed.

Lemma elem_of_concat_map {A B} (f : A -> list B) (l : list A) (y : B) :
  y ∈ concat (map f l) <-> exists x, x ∈ l /\ y ∈ f x.
Proof.
  induction l as [|a l IH]; cbn [map concat].
  - split; [intros H; by apply elem_of_nil in H|].
    intros (x & H & _). by apply elem_of_nil in H.
  - rewrite elem_of_app, IH. split.
    + intros [H | (x & Hx & Hy)].
      * exists a. split; [apply elem_of_cons; by left | done].
      * exists x. split; [apply elem_of_cons; by right | done].
    + intros (x & Hx & Hy). apply elem_of_cons in Hx as [-> | Hx].
      * by left.
      * right. by exists x.
Qed.

Lemma walk_count : forall d top, length (paths_of (walk top d)) = count_files d.
Proof.
  fix IH 1. intros [name files subdirs] top.
  rewrite paths_of_walk, length_app, length_map. cbn [count_files]. f_equal.
  induction subdirs as [|sub l IHl]; [done|].
  cbn [map concat]. rewrite length_app, IH, IHl. done.
Qed.

Lemma string_app_assoc (a b c : string) : (a +:+ b) +:+ c = a +:+ (b +:+ c).
Proof.
  induction a as [|x a IH]; [done|].
  change (String x ((a +:+ b) +:+ c) = String x (a +:+ (b +:+ c))).
  by f_equal.
Qed.

Lemma join_starts_with top name :
  startswith_sep name = false -> starts_with top (join top name).
Proof.
  intros H. unfold join. rewrite H.
  destruct (bool_decide (top = EmptyString) || endswith_sep top).
  - by exists name.
  - by exists ("/" +:+ name).
Qed.

Lemma starts_with_trans a b c :
  starts_with a b -> starts_with b c -> starts_with a c.
Proof.
  intros [t ->] [u ->]. exists (t +:+ u). apply string_app_assoc.
Qed.

Lemma walk_prefix : forall d top p,
  plain_names d -> p ∈ paths_of (walk top d) -> starts_with top p.
Proof.
  fix IH 1. intros [name files subdirs] top p. cbn [plain_names].
  intros [Hf Hs]. rewrite paths_of_walk.
  intros Hp. apply elem_of_app in Hp as [Hp | Hp].
  - apply list_elem_of_fmap in Hp as (f & -> & Hin).
    apply join_starts_with. by eapply (proj1 (Forall_forall _ _) Hf).
  - revert Hs Hp. induction subdirs as [|sub l IHl]; intros Hs Hp.
    + by apply elem_of_nil in Hp.
    + destruct Hs as (Hn & Hsub & Hl).
      cbn [map concat] in Hp. apply elem_of_app in Hp as [Hp | Hp].
      * eapply starts_with_trans; [by apply join_starts_with|].
        by eapply IH.
      * by apply IHl.
Qed.

(** Induction on a directory tree, with the property for all the
    sub-directories. *)
Lemma Dir_ind_subdirs (P : Dir -> Prop) :
  (forall name files subdirs,
     Forall P subdirs -> P (mkDir name files subdirs)) ->
  forall d, P d.
Proof.
  intros H. fix IH 1. intros [name files subdirs]. apply H.
  induction subdirs as [|sub l IHl]; constructor; [apply IH | exact IHl].
Qed.

(** Every path comes from a file of the tree. *)
Lemma walk_sound d : forall top p,
  p ∈ paths_of (walk top d) ->
  exists dirs f, file_at d dirs f /\ p = join (foldl join top dirs) f.
Proof.
  induction d as [name files subdirs IH] using Dir_ind_subdirs.
  intros top p. rewrite paths_of_walk.
  intros Hp. apply elem_of_app in Hp as [Hp | Hp].
  - apply list_elem_of_fmap in Hp as (f & -> & Hin).
    exists [], f. split; [by constructor | done].
  - apply elem_of_concat_map in Hp as (sub & Hin & Hp).
    destruct (proj1 (Forall_forall _ _) IH sub Hin _ _ Hp)
      as (dirs & f & Hat & ->).
    exists (dir_name sub :: dirs), f. split; [by constructor | done].
Qed.

(** Every file of the tree gives its path. *)
Lemma walk_complete d dirs f :
  file_at d dirs f ->
  forall top, join (foldl join top dirs) f ∈ paths_of (walk top d).
Proof.
  induction 1 as [name files subdirs f Hin
                 | name files subdirs sub dirs f Hin _ IH]; intros top;
    rewrite paths_of_walk; apply elem_of_app.
  - left. apply list_elem_of_fmap. by exists f.
  - right. apply elem_of_concat_map. exists sub. split; [done|].
    apply IH.
Qed.

(** X28.  [get_all_file_paths] returns no path when there is no
    directory.  Otherwise it returns the paths of the files of the
    directory, in the order of the listing, followed by the paths that it
    returns for each sub-directory under its joined path; a path is
    returned exactly when it joins the directory, the names of the
    sub-directories that lead to a file, and the name of the file; there
    are as many paths as files, and every path starts with the directory
    that was given. *)
Theorem file_paths_complete (directory : string) (d : Dir) :
  get_all_file_paths directory None = [] /\
  get_all_file_paths directory (Some d) =
    map (join directory) (files_of d) ++
    concat (map (fun sub =>
                   get_all_file_paths (join directory (dir_name sub))
                     (Some sub))
              (subdirs_of d)) /\
  (forall p, p ∈ get_all_file_paths directory (Some d) <->
     exists dirs f, file_at d dirs f /\
                    p = join (foldl join directory dirs) f) /\
  length (get_all_file_paths directory (Some d)) = count_files d /\
  (plain_names d ->
   Forall (starts_with directory) (get_all_file_paths directory (Some d))).
Proof.
  split; [done|]. split; [|split; [|split]].
  - destruct d as [name files subdirs].
    exact (paths_of_walk directory name files subdirs).
  - intros p. split.
    + apply walk_sound.
    + intros (dirs & f & Hat & ->). by apply walk_complete.
  - apply walk_count.
  - intros H. apply Forall_forall. intros p Hp. by eapply walk_prefix.
Qed.

End FilePathsFacts.

(** ** Runs on concrete inputs *)

Section Checks.
Import Geometry Tensor Instances Examples.

Example iou_a_b : (bb_intersection_over_union box_a box_b == 1 # 7)%Q.
Proof. reflexivity. Qed.

Example np_unique_counts :
  RoiPenalty.np_unique [box_b; box_a; box_b] = [(box_a, 1%Z); (box_b, 2%Z)].
Proof. reflexivity. Qed.

Example best_match_first_of_ties :
  RoiPenalty.best_box box_a [box_far; box_b; box_b] = 1%nat.
Proof. reflexivity. Qed.

Example bound_pixels_corner :
  Boundary.bound_pixels corner_mask =
  [[true; true; false]; [true; true; false]; [false; false; false]].
Proof. reflexivity. Qed.

Example combinations2_order :
  Overlap.combinations2 [1; 2; 3]%nat = [(1, 2); (1, 3); (2, 3)]%nat.
Proof. reflexivity. Qed.

Example quad_3 : Overlap.quad 3 = 3%R.
Proof.
  rewrite quad_larger_root, radicand_linear.
  replace (1 + 8 * 3)%R with (5 * 5)%R by ring.
  rewrite sqrt_square by Lra.lra. Lra.lra.
Qed.

Example chunks_by_image :
  MaskInference.chunks [1; 2; 3]%nat [1; 0; 2]%nat = [[1]; []; [2; 3]]%nat.
Proof. reflexivity. Qed.

Example one_instance_loss :
  MaskLoss.mask_rcnn_loss full_masks full_square zero_log_vars one_logit
    [one_instance] = Ok (3 * ln 2)%R.
Proof.
  unfold MaskLoss.mask_rcnn_loss. simpl.
  unfold MaskLoss.binary_cross_entropy_with_logits. simpl.
  unfold MaskLoss.weighted_mask_loss, MaskLoss.t3_mean, MaskLoss.t3_sum. simpl.
  unfold MaskLoss.rsum, MaskLoss.bce, MaskLoss.b2r. simpl.
  rewrite quad_0. f_equal.
  replace (- 0)%R with 0%R by ring. rewrite exp_0.
  replace (1 + 1)%R with 2%R by ring. field.
Qed.

(** Two rows of logits for three instances: the comparison of line 253
    cannot broadcast them. *)
Example row_count_mismatch :
  MaskLoss.mask_rcnn_loss full_masks full_square zero_log_vars
    (MaskLoss.mkLogits 2 1 1 1 [[[[0%R]]]; [[[0%R]]]]) [three_duplicates] =
  Raise RuntimeError.
Proof. reflexivity. Qed.

End Checks.

(** ** Instances of the theorems on concrete inputs *)

Section Witnesses.
Import Geometry Tensor Instances Examples.

Lemma iou_symmetric_unit_zero_witness :
  (bb_intersection_over_union box_a box_a == 1)%Q /\
  (bb_intersection_over_union box_a box_far == 0)%Q.
Proof.
  destruct (iou_symmetric_unit_zero box_a box_far) as (_ & Hself & Hzero).
  split.
  - apply Hself; [split; vm_compute; discriminate | reflexivity].
  - apply Hzero. left. left. vm_compute. discriminate.
Defined.

(** The IoU of a corner tuple with both axes reversed with itself is 0,
    although the product of its sides is positive: the hypothesis
    [ordered] of C8 is needed. *)
Remark iou_self_reversed :
  (0 < boxArea box_reversed)%Q /\
  (bb_intersection_over_union box_reversed box_reversed == 0)%Q.
Proof. split; reflexivity. Qed.

Lemma quad_of_one_is_two_witness : (-1 <= Overlap.quad 1)%R.
Proof.
  apply (proj2 (proj2 quad_of_one_is_two) (-1)%R). Lra.lra.
Defined.

Lemma radicand_negative_iff_witness :
  (0 <= Overlap.radicand 3)%R /\
  (Overlap.quad 3 * Overlap.quad 3 - Overlap.quad 3 - 2 * 3 = 0)%R.
Proof.
  apply (proj2 (radicand_negative_iff 3)). Lra.lra.
Defined.

Lemma boundary_weight_band_witness :
  exists (d e : bool) (w : Z),
    grid_get (Boundary.dilate corner_mask) 1 1 = Some d /\
    grid_get (Boundary.erode corner_mask) 1 1 = Some e /\
    (d = true <-> BoundarySpec.kernel_hits corner_mask 1 1 true) /\
    (e = false <-> BoundarySpec.kernel_hits corner_mask 1 1 false) /\
    (xorb d e = true <-> BoundarySpec.on_band corner_mask 1 1) /\
    t3_get (Boundary.boundary_weights
              (map (fun m => Boundary.bound_pixels (same_mask 3 m))
                 [corner_mask])) 0 1 1 = Some w /\
    w = (if xorb d e then Boundary.BNDRY_WT else 1%Z) /\
    Boundary.BNDRY_WT = 0%Z.
Proof.
  apply (boundary_weight_band same_mask 3 [corner_mask] 0 1 1 corner_mask true);
    reflexivity.
Defined.

Lemma duplicate_box_weight_witness :
  Float32.img_roi_penalty false tied_pair = [[[2%Z]]; [[1%Z]]].
Proof.
  apply (duplicate_box_weight false tied_pair large_box 0).
  - discriminate.
  - repeat split; discriminate.
  - repeat constructor.
  - right. exists near_square. split; [reflexivity|].
    split; [vm_compute; reflexivity|]. split.
    + intros i q Hi. lia.
    + intros [|[|i]] q Hi H; simpl in H; try discriminate; [lia|].
      injection H as <-. vm_compute. reflexivity.
Defined.

Lemma unmatched_box_writes_row_0_witness :
  RoiPenalty.img_roi_penalty two_unmatched !! 0%nat = Some [[2%Z]].
Proof.
  apply (unmatched_box_writes_row_0 two_unmatched [] [] box_a 2).
  - reflexivity.
  - intros p Hp. simpl in Hp.
    apply elem_of_cons in Hp as [-> | Hp];
      [|apply elem_of_cons in Hp as [-> | Hp]];
      [| |by apply elem_of_nil in Hp]; vm_compute; discriminate.
  - constructor.
Defined.

Lemma full_masks_ok : LossSpec.rasterizer_ok full_masks.
Proof.
  intros polys boxes M _. unfold full_masks. split.
  - by rewrite length_replicate.
  - apply Forall_replicate. split; [by rewrite length_replicate|].
    apply Forall_replicate. by rewrite length_replicate.
Qed.

Lemma full_square_ok : LossSpec.contours_ok full_square.
Proof.
  intros M m. unfold full_square. split; [by rewrite length_replicate|].
  apply Forall_replicate. by rewrite length_replicate.
Qed.

Lemma one_logit_well_formed : LossSpec.well_formed one_logit [one_instance].
Proof.
  repeat split; simpl; try done.
  repeat constructor.
Qed.




(** The three weights of the batch differ: at pixel [(0, 1)] of the
    first instance the boundary weight is 0, the duplicate-box weight 2
    and the overlap weight 2; at pixel [(2, 2)] of the second instance
    they are 1, 1 and 2. *)
Example duplicated_pair_weights :
  t3_get (LossSpec.boundary_volume corner_masks redraw 3 [duplicated_pair])
    0 0 1 = Some 0%R /\
  t3_get (LossSpec.roi_volume [duplicated_pair]) 0 0 0 = Some 2%R /\
  t3_get (LossSpec.overlap_volume corner_masks 3 [duplicated_pair])
    0 0 1 = Some 2%R /\
  t3_get (LossSpec.boundary_volume corner_masks redraw 3 [duplicated_pair])
    1 2 2 = Some 1%R /\
  t3_get (LossSpec.roi_volume [duplicated_pair]) 1 0 0 = Some 1%R /\
  t3_get (LossSpec.overlap_volume corner_masks 3 [duplicated_pair])
    1 2 2 = Some 2%R /\
  t3_get (LossSpec.targets corner_masks 3 [duplicated_pair]) 0 0 1 =
    Some 1%R.
Proof.
  repeat split; try reflexivity.
  - change (Some (Overlap.quad 1) = Some 2%R). by rewrite quad_1.
  - change (Some (Overlap.quad 1) = Some 2%R). by rewrite quad_1.
Qed.

(** On this batch the matching on binary32 values selects the same rows
    as the matching in exact arithmetic. *)
Example duplicated_pair_rows legacy :
  Float32.img_roi_penalty legacy
    [Float32.mkInstance (box32 0 0 2 2) (box32 0 0 2 2);
     Float32.mkInstance (box32 0 0 2 2) (box32 1 1 3 3)] =
  RoiPenalty.img_roi_penalty duplicated_pair.
Proof. destruct legacy; vm_compute; reflexivity. Qed.


Lemma empty_batch_raises_witness :
  MaskLoss.mask_rcnn_loss full_masks full_square zero_log_vars no_logits
    [[]; []] = Raise RuntimeError.
Proof.
  apply (empty_batch_raises full_masks full_square zero_log_vars no_logits
           [[]; []]).
  repeat constructor.
Defined.

(** C4, as stated, fails: the overlap weight of an image with a single
    object is not 0. *)
Lemma single_object_overlap_weight_not_zero :
  length (OverlapSpec.distinct_objects one_instance) = 1%nat /\
  ~ (forall n i j w,
       t3_get (Overlap.overlap_weights
                 (Overlap.per_ins_overlap_masks full_masks one_instance 1
                    (full_masks [no_polygon] [box_a] 1))) n i j = Some w ->
       w = 0%R).
Proof.
  split; [reflexivity|]. intros H.
  specialize (H 0%nat 0%nat 0%nat (Overlap.quad 0) eq_refl).
  rewrite quad_0 in H. Lra.lra.
Qed.

Lemma single_object_overlap_witness :
  Overlap.per_ins_overlap_masks full_masks one_instance 1
    (full_masks [no_polygon] [box_a] 1) = [[[0%Z]]] /\
  Overlap.overlap_weights
    (Overlap.per_ins_overlap_masks full_masks one_instance 1
       (full_masks [no_polygon] [box_a] 1)) = [[[1%R]]].
Proof.
  apply (single_object_overlap full_masks one_instance 1
           (full_masks [no_polygon] [box_a] 1)).
  vm_compute. lia.
Defined.

Lemma two_channels_well_formed :
  InferenceSpec.well_formed two_channels [one_prediction].
Proof.
  split; [reflexivity|]. split; [by repeat constructor|].
  intros _. split; [discriminate|]. constructor; [|constructor].
  exists [1%nat]. split; [reflexivity|]. split; [reflexivity|].
  repeat constructor.
Qed.

Lemma inference_attaches_masks_witness :
  exists out,
    MaskHead.forward unit (fun _ => two_channels) zero_log_vars full_masks
      full_square MaskHead.INFER tt [one_prediction] = Ok out /\
    length out = 1%nat /\
    forall k inst, [one_prediction] !! k = Some inst ->
      exists inst' prob,
        out !! k = Some inst' /\
        MaskInference.len inst' = MaskInference.len inst /\
        (forall name, name <> "pred_masks" ->
           MaskInference.fields inst' !! name =
           MaskInference.fields inst !! name) /\
        (MaskInference.fields inst !! "pred_masks" = None ->
         MaskInference.fields inst ⊆ MaskInference.fields inst') /\
        MaskInference.fields inst' !! "pred_masks" =
          Some (MaskInference.MaskField prob) /\
        length prob = MaskInference.len inst /\
        forall r, (r < MaskInference.len inst)%nat ->
          exists row c g,
            MaskLoss.data two_channels !!
              (InferenceSpec.offset [one_prediction] k + r)%nat = Some row /\
            InferenceSpec.channel_of two_channels inst r c /\
            row !! c = Some g /\
            prob !! r =
              Some [map (map (fun v : R => (1 / (1 + exp (- v)))%R)) g].
Proof.
  apply (inference_attaches_masks unit (fun _ => two_channels) zero_log_vars
           full_masks full_square tt [one_prediction]
           two_channels_well_formed).
Defined.

End Witnesses.

(** ** Instances of the further properties on concrete inputs *)

Section MoreWitnesses.
Import Geometry Tensor Instances Examples.

Example file_paths_small_tree :
  FilePaths.get_all_file_paths "data" (Some small_tree) =
  ["data/a.txt"; "data/sub/b.txt"].
Proof. reflexivity. Qed.

Example layers_coco_head_sizes :
  map ConvUpsampleHead.in_channels
    (ConvUpsampleHead.conv_norm_relus coco_head ++
     [ConvUpsampleHead.deconv coco_head; ConvUpsampleHead.predictor coco_head])
  = [256; 256; 256; 256; 256; 256]%nat.
Proof. reflexivity. Qed.

Example tied_pair_best_box legacy :
  Float32.best_box legacy large_box (Float32.proposal_boxes far_then_tied) =
  1%nat.
Proof. destruct legacy; vm_compute; reflexivity. Qed.

Lemma best_box_is_best_row_witness :
  (Float32.best_box false large_box (Float32.proposal_boxes far_then_tied)
   < 3)%nat /\
  Float32Spec.best_row false large_box (Float32.proposal_boxes far_then_tied)
    (Float32.best_box false large_box (Float32.proposal_boxes far_then_tied)).
Proof.
  apply (best_box_is_best_row false large_box
           (Float32.proposal_boxes far_then_tied)).
  - discriminate.
  - repeat constructor; vm_compute; discriminate.
Defined.

Lemma roi_penalty_bounds_witness :
  exists w, [[3%Z]] = [[w]] /\ (1 <= w <= 3)%Z.
Proof. apply (roi_penalty_bounds three_duplicates 1 [[3%Z]]). reflexivity. Defined.

Lemma two_objects_distinct :
  UniqueSpec.pairwise_distinct (gt_boxes two_objects).
Proof.
  intros [|[|i]] [|[|j]] bi bj Hij Hi Hj; simpl in Hi, Hj;
    try discriminate; try lia.
  injection Hi as <-. injection Hj as <-. vm_compute. discriminate.
Qed.

Lemma distinct_boxes_weight_one_witness :
  RoiPenalty.img_roi_penalty two_objects = [[[1%Z]]; [[1%Z]]].
Proof. apply (distinct_boxes_weight_one two_objects two_objects_distinct). Defined.

Lemma quad_round_trip_witness :
  Overlap.quad (3 * (3 - 1) / 2) = 3%R.
Proof. apply (proj1 (quad_round_trip 3 0)). Lra.lra. Defined.

Lemma quad_monotone_witness :
  (1 <= Overlap.quad 0 /\ Overlap.quad 0 <= Overlap.quad 1)%R.
Proof. apply (quad_monotone 0 1); Lra.lra. Defined.

Lemma overlap_pixel_count_witness :
  let k := ObjectsSpec.objects_at full_masks two_objects 1 0 0 0 in
  (0 <= k)%Z /\
  t3_get (Overlap.per_ins_overlap_masks full_masks two_objects 1
            [[[true]]; [[true]]]) 0 0 0 = Some (k * (k - 1) / 2)%Z /\
  t3_get (Overlap.overlap_weights
            (Overlap.per_ins_overlap_masks full_masks two_objects 1
               [[[true]]; [[true]]])) 0 0 0 = Some (Rmax 1 (IZR k)).
Proof.
  apply (overlap_pixel_count full_masks two_objects 1 [[[true]]; [[true]]]
           0 0 0 true full_masks_ok).
  - vm_compute. lia.
  - simpl. lia.
  - lia.
  - lia.
  - reflexivity.
Defined.

Lemma uniform_mask_weight_one_witness :
  exists w,
    t3_get (Boundary.boundary_weights
              (map (fun m => Boundary.bound_pixels (full_square 2 m))
                 [corner_mask])) 0 0 0 = Some w /\ w = 1%Z.
Proof.
  exists 1%Z. split; [reflexivity|].
  apply (uniform_mask_weight_one full_square 2 [corner_mask] 0 0 0
           corner_mask true 1).
  - reflexivity.
  - intros [|[|a]] [|[|b]] x H; vm_compute in H; congruence.
  - reflexivity.
Defined.

Lemma erode_below_dilate_above_witness :
  (grid_get (Boundary.erode corner_mask) 1 1 = Some true -> true = true) /\
  (true = true -> grid_get (Boundary.dilate corner_mask) 1 1 = Some true).
Proof. apply (erode_below_dilate_above corner_mask 1 1 true). reflexivity. Defined.

Lemma unit_shape {A} (x : A) : LossSpec.shape3 1 1 1 [[[x]]].
Proof. split; [done|]. repeat constructor. Qed.

Lemma loss_is_weighted_sum_of_means_witness :
  MaskLoss.t3_mean
    (MaskLoss.weighted_mask_loss zero_log_vars [[[1%R]]] [[[2%R]]] [[[3%R]]]) =
  (exp (- 0) * MaskLoss.t3_mean [[[1%R]]] + 0 +
   exp (- 0) * MaskLoss.t3_mean [[[2%R]]] + 0 +
   exp (- 0) * MaskLoss.t3_mean [[[3%R]]] + 0)%R.
Proof.
  apply (loss_is_weighted_sum_of_means zero_log_vars 1 1 1
           [[[1%R]]] [[[2%R]]] [[[3%R]]]);
    try apply unit_shape.
  simpl. lia.
Defined.

Lemma class_out_of_range_raises_witness :
  MaskLoss.mask_rcnn_loss full_masks full_square zero_log_vars two_channels
    [class_two] = Raise IndexError.
Proof.
  apply (class_out_of_range_raises full_masks full_square zero_log_vars
           two_channels [class_two] 0
           (mkInstance 2 box_a box_a no_polygon) [[[0%R]]; [[1%R]]]
           full_masks_ok); try reflexivity.
  discriminate.
Defined.

Lemma mask_rates_unit_interval_witness :
  let r := Metrics.mask_rates [[[1%R]]] [[[true]]] in
  (0 <= Metrics.mask_accuracy r /\ Metrics.mask_accuracy r <= 1)%Q /\
  (0 <= Metrics.false_positive r /\ Metrics.false_positive r <= 1)%Q /\
  (0 <= Metrics.false_negative r /\ Metrics.false_negative r <= 1)%Q.
Proof.
  apply (mask_rates_unit_interval 1 1 1 [[[1%R]]] [[[true]]]);
    apply unit_shape.
Defined.

Lemma mask_rates_errors_witness :
  let r := Metrics.mask_rates [[[1%R]]] [[[true]]] in
  let total := inject_Z (Metrics.numel [[[true]]]) in
  let pos := inject_Z (Metrics.count_true [[[true]]]) in
  let neg :=
    inject_Z (Metrics.numel [[[true]]] - Metrics.count_true [[[true]]]) in
  ((1 - Metrics.mask_accuracy r) * Qmax total 1 ==
   Metrics.false_positive r * Qmax neg 1 +
   Metrics.false_negative r * Qmax pos 1)%Q /\
  ((Metrics.mask_accuracy r == 1)%Q <->
   Forall2 (fun x g => Metrics.positive x = g)
     (t3_flatten [[[1%R]]]) (t3_flatten [[[true]]])).
Proof.
  apply (mask_rates_errors 1 1 1 [[[1%R]]] [[[true]]]); apply unit_shape.
Defined.

Lemma class_agnostic_count_mismatch_witness :
  MaskInference.mask_rcnn_inference one_logit [] = Raise RuntimeError.
Proof.
  apply (class_agnostic_count_mismatch one_logit []); [reflexivity|].
  discriminate.
Defined.

Lemma two_channels_run :
  MaskInference.mask_rcnn_inference two_channels [one_prediction] =
  Ok [MaskInference.set "pred_masks"
        (MaskInference.MaskField [[[[MaskInference.sigmoid 1]]]])
        one_prediction].
Proof. reflexivity. Qed.

Lemma mask_rcnn_inference_idempotent_witness :
  MaskInference.mask_rcnn_inference two_channels
    [MaskInference.set "pred_masks"
       (MaskInference.MaskField [[[[MaskInference.sigmoid 1]]]])
       one_prediction] =
  Ok [MaskInference.set "pred_masks"
        (MaskInference.MaskField [[[[MaskInference.sigmoid 1]]]])
        one_prediction].
Proof.
  apply (mask_rcnn_inference_idempotent two_channels [one_prediction]).
  apply two_channels_run.
Defined.

Lemma pred_masks_are_probabilities_witness :
  Forall ProbabilitySpec.probabilities [[[[MaskInference.sigmoid 1]]]].
Proof.
  apply (pred_masks_are_probabilities two_channels [one_prediction] _
           (MaskInference.set "pred_masks"
              (MaskInference.MaskField [[[[MaskInference.sigmoid 1]]]])
              one_prediction) _ two_channels_run).
  - apply elem_of_cons. by left.
  - apply lookup_insert_eq.
Defined.

Lemma class_specific_needs_classes_witness :
  MaskInference.mask_rcnn_inference two_channels
    [one_prediction; MaskInference.mkInstances 1 ∅] = Raise AttributeError.
Proof.
  apply (class_specific_needs_classes two_channels [one_prediction]
           (MaskInference.mkInstances 1 ∅) []).
  - discriminate.
  - constructor; [|constructor]. by exists [1%nat].
  - reflexivity.
Defined.


(** Without classes the predictor has no output channel and the layers
    raise. *)
Example layers_no_class :
  ConvUpsampleHead.layers (ConvUpsampleHead.mkConfig 0 256 4 false 256)
    (ConvUpsampleHead.mkSize 1 256 2 2) = Raise RuntimeError.
Proof. reflexivity. Qed.

Lemma layers_wrong_channels_witness :
  ConvUpsampleHead.layers coco_head (ConvUpsampleHead.mkSize 2 3 14 14) =
  Raise RuntimeError.
Proof.
  apply (layers_wrong_channels coco_head (ConvUpsampleHead.mkSize 2 3 14 14)).
  discriminate.
Defined.

Lemma small_tree_plain : FilePathsSpec.plain_names small_tree.
Proof. repeat split; repeat constructor. Qed.

Lemma file_paths_complete_witness :
  Forall (FilePathsSpec.starts_with "data")
    (FilePaths.get_all_file_paths "data" (Some small_tree)).
Proof.
  apply (proj2 (proj2 (proj2 (proj2
           (file_paths_complete "data" small_tree))))).
  apply small_tree_plain.
Defined.

End MoreWitnesses.
